(** * Life cycle observer registry of [@loopback/core]

    A shallow embedding of [packages/core/src/lifecycle-registry.ts]:
    discovery of observer bindings, grouping and ordering of the groups,
    and the notification of the groups through the start and stop event
    triads, serially or in parallel within a group. *)

From Stdlib Require Import ZArith Lia Permutation.
From stdpp Require Import base option list sorting gmap strings.

Local Open Scope string_scope.
Local Open Scope list_scope.
Local Open Scope Z_scope.

(** ** Bindings of [@loopback/context], as far as the registry reads them *)

Inductive BindingType := CONSTANT | DYNAMIC_VALUE | CLASS | PROVIDER.
Inductive BindingScope := TRANSIENT | CONTEXT | SINGLETON.

#[global] Instance BindingType_eq_dec : EqDecision BindingType.
Proof. solve_decision. Defined.
#[global] Instance BindingScope_eq_dec : EqDecision BindingScope.
Proof. solve_decision. Defined.

(** A binding: [type] is undefined until a value, class or provider is
    attached; [tagMap] is the JS object holding the tags.  Tag values are
    modelled as strings: [tag(name)] stores [name] under [name], and
    [tag({name: value})] stores [value].  A missing property reads as
    [None] (undefined). *)
Record Binding := mkBinding {
  key : string;
  scope : BindingScope;
  type : option BindingType;
  tagMap : gmap string string;
}.

#[global] Instance Binding_eq_dec : EqDecision Binding.
Proof. solve_decision. Defined.

(** The tag names of [CoreBindings.Tags] ([keys.ts]); the registry only
    refers to them by name, so they are taken as a parameter. *)
Record Tags := mkTags {
  LIFE_CYCLE_OBSERVER : string;
  LIFE_CYCLE_OBSERVER_GROUP : string;
  SERVER : string;
}.

(** JS truthiness of a string-or-undefined value: [undefined] and the
    empty string are falsy. *)
Definition truthy (v : option string) : bool :=
  match v with
  | Some s => negb (String.eqb s "")
  | None => false
  end.

(** [v != null] *)
Definition not_null (v : option string) : bool :=
  match v with Some _ => true | None => false end.

(** ** JS array and [Map] operations used by the registry *)

(** [arr.indexOf(x)]: the first index holding [x], or [-1]. *)
Fixpoint indexOf (arr : list string) (x : string) : Z :=
  match arr with
  | [] => -1
  | y :: arr' =>
      if String.eqb y x then 0
      else let i := indexOf arr' x in if i <? 0 then -1 else i + 1
  end.

(** [arr.find(p)]: the first element satisfying [p], or undefined. *)
Fixpoint Array_find {A} (p : A -> bool) (arr : list A) : option A :=
  match arr with
  | [] => None
  | y :: arr' => if p y then Some y else Array_find p arr'
  end.

(** [arr.sort(cmp)].  The sort of ECMAScript is stable (since ES2019); for
    a comparator that is consistent (here: a difference of keys) every
    stable sort gives the list computed by this insertion sort, which puts
    [x] before the first element it does not compare greater than. *)
Fixpoint sort_insert {A} (cmp : A -> A -> Z) (x : A) (l : list A) : list A :=
  match l with
  | [] => [x]
  | y :: l' => if cmp x y <=? 0 then x :: l else y :: sort_insert cmp x l'
  end.

Fixpoint Array_sort {A} (cmp : A -> A -> Z) (arr : list A) : list A :=
  match arr with
  | [] => []
  | x :: arr' => sort_insert cmp x (Array_sort cmp arr')
  end.

(** A JS [Map] iterates its entries in the order in which the keys were
    first set, so it is an association list with unique keys. *)
Fixpoint Map_get {V} (m : list (string * V)) (k : string) : option V :=
  match m with
  | [] => None
  | (k', v) :: m' => if String.eqb k' k then Some v else Map_get m' k
  end.

(** [m.set(k, v)]: an existing key keeps its position. *)
Fixpoint Map_set {V} (m : list (string * V)) (k : string) (v : V)
  : list (string * V) :=
  match m with
  | [] => [(k, v)]
  | (k', v') :: m' =>
      if String.eqb k' k then (k', v) :: m' else (k', v') :: Map_set m' k v
  end.

(** ** The registry object *)

(** A group of life cycle observers *)
Record LifeCycleObserverGroup := mkGroup {
  group : string;
  bindings : list Binding;
}.

#[global] Instance LifeCycleObserverGroup_eq_dec :
  EqDecision LifeCycleObserverGroup.
Proof. solve_decision. Defined.

(** [{parallel?: boolean}] *)
Record LifeCycleObserverOptions := mkOptions {
  parallel : option bool;
}.

(** [if (this.options.parallel)] *)
Definition is_parallel (o : LifeCycleObserverOptions) : bool :=
  match parallel o with Some b => b | None => false end.

Section Registry.

Context (CoreTags : Tags).

(** The filter of [findObserverBindings]. *)
Definition isObserverBinding (binding : Binding) : bool :=
  (bool_decide (type binding = Some CONSTANT)
   || bool_decide (scope binding = SINGLETON))
  && (not_null (tagMap binding !! LIFE_CYCLE_OBSERVER CoreTags)
      || truthy (tagMap binding !! SERVER CoreTags)).

(** [getObserverGroup], reading [this.groupsByOrder]. *)
Definition getObserverGroup (groupsByOrder : list string) (binding : Binding)
  : string :=
  let group := tagMap binding !! LIFE_CYCLE_OBSERVER_GROUP CoreTags in
  let group :=
    if truthy group then group
    else Array_find
           (fun g => bool_decide (tagMap binding !! g = Some g)) groupsByOrder
  in
  if truthy group then default "" group else "".

(** The first loop of [sortObserverBindingsByGroup]: one iteration.  The
    array stored in the map is the one that [push] extends. *)
Definition groupMap_add (groupsByOrder : list string)
  (groupMap : list (string * list Binding)) (binding : Binding)
  : list (string * list Binding) :=
  let group := getObserverGroup groupsByOrder binding in
  match Map_get groupMap group with
  | None => Map_set groupMap group [binding]
  | Some bindingsInGroup => Map_set groupMap group (bindingsInGroup ++ [binding])
  end.

Definition groupMap_of (groupsByOrder : list string) (bs : list Binding)
  : list (string * list Binding) :=
  foldl (groupMap_add groupsByOrder) [] bs.

(** The second loop: the array of group entries, in [Map] order. *)
Definition groups_of (groupMap : list (string * list Binding))
  : list LifeCycleObserverGroup :=
  map (fun entry => mkGroup (fst entry) (snd entry)) groupMap.

(** The comparator given to [sort]. *)
Definition compareGroups (groupsByOrder : list string)
  (g1 g2 : LifeCycleObserverGroup) : Z :=
  indexOf groupsByOrder (group g1) - indexOf groupsByOrder (group g2).

Definition sortObserverBindingsByGroup (groupsByOrder : list string)
  (bs : list Binding) : list LifeCycleObserverGroup :=
  Array_sort (compareGroups groupsByOrder)
    (groups_of (groupMap_of groupsByOrder bs)).

End Registry.

(** ** Observers, the context and the state of a run *)

(** [keyof LifeCycleObserver]: the six event names. *)
Inductive LifeCycleEvent :=
  PreStart | Start | PostStart | PreStop | Stop | PostStop.

#[global] Instance LifeCycleEvent_eq_dec : EqDecision LifeCycleEvent.
Proof. solve_decision. Defined.

(** What a rejected promise or a thrown exception carries. *)
Definition Error := string.

(** The result of awaiting a [Promise<void>]. *)
Inductive Outcome := Fulfilled | Rejected (e : Error).

#[global] Instance Outcome_eq_dec : EqDecision Outcome.
Proof. solve_decision. Defined.

(** The observable actions of the notifier, in the order in which they
    happen: the look-ups in the context, the calls of hooks, the debug
    lines of [notifyGroups], [notifyObserverGroup] and [notifyObserver],
    and the exception that leaves [notifyObserver] when an await throws.
    Each action carries the event that is being notified. *)
Inductive Action :=
| Beginning (event : LifeCycleEvent)
| NotifyingGroup (group : string) (event : LifeCycleEvent)
| Get (key : string) (event : LifeCycleEvent)
| NotifyingBinding (key : string) (event : LifeCycleEvent)
| Call (event : LifeCycleEvent)
| BindingProcessed (key : string) (event : LifeCycleEvent)
| Raised (key : string) (event : LifeCycleEvent) (e : Error)
| GroupProcessed (group : string) (event : LifeCycleEvent)
| Finished (event : LifeCycleEvent).

#[global] Instance Action_eq_dec : EqDecision Action.
Proof. solve_decision. Defined.

Definition action_event (a : Action) : LifeCycleEvent :=
  match a with
  | Beginning ev | NotifyingGroup _ ev | Get _ ev | NotifyingBinding _ ev
  | Call ev | BindingProcessed _ ev | Raised _ ev _ | GroupProcessed _ ev
  | Finished ev => ev
  end.

(** Asynchrony.  A call of the async closure [notifyObserver(binding)] runs
    up to its first await and returns a promise; what remains of it is a
    task, cut at its two awaits.  In serial mode the promise is awaited at
    once, so the task runs to its end before the next member is looked at.
    In parallel mode the tasks of all members are pending together and
    [Promise.all] waits for them: which task is resumed next depends on
    when the awaited promises settle, which the code does not control.
    That order is an input of the model (the oracle of the state), and the
    properties are proved for every oracle.  A hook acts on the world when
    it is called; the promise it returns settles when the task is resumed
    again. *)
Inductive TaskState :=
| AwaitGet                        (* at [await this.ctx.get(...)] *)
| AwaitInvoke (r : option Error)  (* at [await this.invokeObserver(...)] *)
| TaskFulfilled
| TaskRejected (e : Error).

Record Task := mkTask {
  task_binding : Binding;
  task_state : TaskState;
}.

Section Notification.

(** The world that the hooks act on (sockets, connections, a list of
    recorded events in the tests). *)
Context {W : Type}.

(** A hook is code of the observer: called on the world, it changes it and
    decides how the promise it returns settles ([None]: fulfilled). *)
Definition Hook := W -> W * option Error.

(** An observer: [observer[event]] is a function or is missing. *)
Definition LifeCycleObserver := LifeCycleEvent -> option Hook.

(** Modelled from the spec: the container [Context] of [@loopback/context]
    is an external collaborator, known through [find] (a read-only query
    over the bindings, in registration order) and [get] (resolution of a
    key to an instance, which may fail). *)
Record Context := mkContext {
  registry : list Binding;
  get : string -> Error + LifeCycleObserver;
}.

Definition Context_find (c : Context) (p : Binding -> bool) : list Binding :=
  List.filter p (registry c).

Record LifeCycleObserverRegistry := mkRegistry {
  ctx : Context;
  options : LifeCycleObserverOptions;
  groupsByOrder : list string;
}.

(** The constructor: [options] defaults to [{parallel: true}], the group
    order to [['server']]. *)
Definition new_LifeCycleObserverRegistry (c : Context)
  (o : option LifeCycleObserverOptions) : LifeCycleObserverRegistry :=
  mkRegistry c (default (mkOptions (Some true)) o) ["server"].

(** [groups || ['server']]: only null and undefined are replaced. *)
Definition setGroupsByOrder (this : LifeCycleObserverRegistry)
  (groups : option (list string)) : LifeCycleObserverRegistry :=
  mkRegistry (ctx this) (options this) (default ["server"] groups).

(** The state threaded through a run.  [oracle] stands for the timing of
    the awaited promises: for each parallel group it gives the order in
    which the suspended [notifyObserver] calls are resumed. *)
Record State := mkState {
  world : W;
  log : list Action;
  oracle : list (list nat);
}.

Definition add_log (a : Action) (st : State) : State :=
  mkState (world st) (log st ++ [a]) (oracle st).

Definition next_schedule (st : State) : list nat * State :=
  match oracle st with
  | [] => ([], st)
  | s :: o => (s, mkState (world st) (log st) o)
  end.

Context (CoreTags : Tags).

Definition findObserverBindings (this : LifeCycleObserverRegistry)
  : list Binding :=
  Context_find (ctx this) (isObserverBinding CoreTags).

Definition getObserverGroupsByOrder (this : LifeCycleObserverRegistry)
  : list LifeCycleObserverGroup :=
  let bindings := findObserverBindings this in
  sortObserverBindingsByGroup CoreTags (groupsByOrder this) bindings.

(** [invokeObserver]: the hook is called only if it is a function. *)
Definition invokeObserver (observer : LifeCycleObserver)
  (event : LifeCycleEvent) (st : State) : option Error * State :=
  match observer event with
  | Some hook =>
      let '(w, r) := hook (world st) in
      (r, mkState w (log st ++ [Call event]) (oracle st))
  | None => (None, st)
  end.

(** The closure [notifyObserver] of [notifyObserverGroup], awaited to its
    end (serial mode). *)
Definition notifyObserver (this : LifeCycleObserverRegistry)
  (event : LifeCycleEvent) (binding : Binding) (st : State)
  : Outcome * State :=
  let st := add_log (Get (key binding) event) st in
  match get (ctx this) (key binding) with
  | inl e => (Rejected e, add_log (Raised (key binding) event e) st)
  | inr observer =>
      let st := add_log (NotifyingBinding (key binding) event) st in
      let '(r, st) := invokeObserver observer event st in
      match r with
      | None => (Fulfilled, add_log (BindingProcessed (key binding) event) st)
      | Some e => (Rejected e, add_log (Raised (key binding) event e) st)
      end
  end.

(** The same closure, not awaited (parallel mode): the call runs up to the
    first await, the rest runs when the task is resumed. *)
Definition notifyObserver_call (event : LifeCycleEvent) (binding : Binding)
  (st : State) : Task * State :=
  (mkTask binding AwaitGet, add_log (Get (key binding) event) st).

Definition notifyObserver_resume (this : LifeCycleObserverRegistry)
  (event : LifeCycleEvent) (t : Task) (st : State) : Task * State :=
  let binding := task_binding t in
  match task_state t with
  | AwaitGet =>
      match get (ctx this) (key binding) with
      | inl e =>
          (mkTask binding (TaskRejected e),
           add_log (Raised (key binding) event e) st)
      | inr observer =>
          let st := add_log (NotifyingBinding (key binding) event) st in
          let '(r, st) := invokeObserver observer event st in
          (mkTask binding (AwaitInvoke r), st)
      end
  | AwaitInvoke None =>
      (mkTask binding TaskFulfilled,
       add_log (BindingProcessed (key binding) event) st)
  | AwaitInvoke (Some e) =>
      (mkTask binding (TaskRejected e),
       add_log (Raised (key binding) event e) st)
  | TaskFulfilled | TaskRejected _ => (t, st)
  end.

(** [await Promise.all(notifiers)] when no resumption is left to choose:
    the tasks still suspended run to their end one after the other; the
    first rejection rejects the whole. *)
Fixpoint Promise_all_rest (this : LifeCycleObserverRegistry)
  (event : LifeCycleEvent) (notifiers : list Task) (st : State)
  : Outcome * State :=
  match notifiers with
  | [] => (Fulfilled, st)
  | t :: notifiers' =>
      let '(t1, st1) := notifyObserver_resume this event t st in
      match task_state t1 with
      | TaskRejected e => (Rejected e, st1)
      | _ =>
          let '(t2, st2) := notifyObserver_resume this event t1 st1 in
          match task_state t2 with
          | TaskRejected e => (Rejected e, st2)
          | _ => Promise_all_rest this event notifiers' st2
          end
      end
  end.

(** [await Promise.all(notifiers)]: the suspended tasks are resumed in the
    order [sched] gives (an index that names no suspended task resumes
    nothing); the first rejection rejects the whole at once, whatever the
    other tasks still have to do. *)
Fixpoint Promise_all (this : LifeCycleObserverRegistry)
  (event : LifeCycleEvent) (sched : list nat) (notifiers : list Task)
  (st : State) : Outcome * State :=
  match sched with
  | [] => Promise_all_rest this event notifiers st
  | n :: sched' =>
      match notifiers !! n with
      | Some t =>
          let '(t', st') := notifyObserver_resume this event t st in
          match task_state t' with
          | TaskRejected e => (Rejected e, st')
          | _ => Promise_all this event sched' (<[n := t']> notifiers) st'
          end
      | None => Promise_all this event sched' notifiers st
      end
  end.

(** The [for] loop of [notifyObserverGroup] over [group.bindings]. *)
Fixpoint notifyObserverGroup_loop (this : LifeCycleObserverRegistry)
  (event : LifeCycleEvent) (bs : list Binding) (notifiers : list Task)
  (st : State) : Outcome * list Task * State :=
  match bs with
  | [] => (Fulfilled, notifiers, st)
  | b :: bs' =>
      if is_parallel (options this) then
        let '(t, st) := notifyObserver_call event b st in
        notifyObserverGroup_loop this event bs' (notifiers ++ [t]) st
      else
        match notifyObserver this event b st with
        | (Fulfilled, st) =>
            notifyObserverGroup_loop this event bs' notifiers st
        | (Rejected e, st) => (Rejected e, notifiers, st)
        end
  end.

Definition notifyObserverGroup (this : LifeCycleObserverRegistry)
  (g : LifeCycleObserverGroup) (event : LifeCycleEvent) (st : State)
  : Outcome * State :=
  let st := add_log (NotifyingGroup (group g) event) st in
  match notifyObserverGroup_loop this event (bindings g) [] st with
  | (Rejected e, _, st) => (Rejected e, st)
  | (Fulfilled, notifiers, st) =>
      let '(r, st) :=
        if is_parallel (options this) then
          let '(sched, st) := next_schedule st in
          Promise_all this event sched notifiers st
        else (Fulfilled, st) in
      match r with
      | Fulfilled => (Fulfilled, add_log (GroupProcessed (group g) event) st)
      | Rejected e => (Rejected e, st)
      end
  end.

(** The inner loop of [notifyGroups]: the groups, for one event. *)
Fixpoint notifyGroups_event (this : LifeCycleObserverRegistry)
  (event : LifeCycleEvent) (groups : list LifeCycleObserverGroup)
  (st : State) : Outcome * State :=
  match groups with
  | [] => (Fulfilled, st)
  | g :: groups' =>
      match notifyObserverGroup this g event st with
      | (Fulfilled, st) => notifyGroups_event this event groups' st
      | (Rejected e, st) => (Rejected e, st)
      end
  end.

Fixpoint notifyGroups (this : LifeCycleObserverRegistry)
  (events : list LifeCycleEvent) (groups : list LifeCycleObserverGroup)
  (st : State) : Outcome * State :=
  match events with
  | [] => (Fulfilled, st)
  | event :: events' =>
      let st := add_log (Beginning event) st in
      match notifyGroups_event this event groups st with
      | (Fulfilled, st) =>
          notifyGroups this events' groups (add_log (Finished event) st)
      | (Rejected e, st) => (Rejected e, st)
      end
  end.

Definition start (this : LifeCycleObserverRegistry) (st : State)
  : Outcome * State :=
  let groups := getObserverGroupsByOrder this in
  notifyGroups this [PreStart; Start; PostStart] groups st.

Definition stop (this : LifeCycleObserverRegistry) (st : State)
  : Outcome * State :=
  let groups := reverse (getObserverGroupsByOrder this) in
  (* Stop in the reverse order *)
  notifyGroups this [PreStop; Stop; PostStop] groups st.

End Notification.

Arguments Context : clear implicits.
Arguments LifeCycleObserverRegistry : clear implicits.
Arguments State : clear implicits.
Arguments LifeCycleObserver : clear implicits.
Arguments Hook : clear implicits.

(** ** Vocabulary of the properties *)

(** The order [indexOf] induces on the groups. *)
Definition key_le {A : Type} (keyOf : A -> Z) (x y : A) : Prop :=
  keyOf x <= keyOf y.

(** The labels of a list in the order in which they are first seen. *)
Fixpoint first_seen (l : list string) : list string :=
  match l with
  | [] => []
  | x :: l' => x :: filter (fun y => y <> x) (first_seen l')
  end.

(** The entries of one label, in the order of the input. *)
Definition members (CoreTags : Tags) (order : list string)
  (bs : list Binding) (g : string) : list Binding :=
  filter (fun b => getObserverGroup CoreTags order b = g) bs.

(** The array of groups before it is sorted. *)
Definition unsorted_groups (CoreTags : Tags) (order : list string)
  (bs : list Binding) : list LifeCycleObserverGroup :=
  map (fun g => mkGroup g (members CoreTags order bs g))
    (first_seen (map (getObserverGroup CoreTags order) bs)).

(** The order as the specification words it: a group whose label is not in
    the configured order stands after every group whose label is. *)
Definition absent_after_present (order : list string)
  (gs : list LifeCycleObserverGroup) : Prop :=
  forall (i j : nat) gi gj,
    gs !! i = Some gi -> gs !! j = Some gj ->
    group gi ∉ order -> group gj ∈ order -> (j < i)%nat.

(** The order as the comparator makes it: [indexOf] is [-1] for a label
    that is not in the configured order, so such a group stands before
    every group whose label is. *)
Definition absent_before_present (order : list string)
  (gs : list LifeCycleObserverGroup) : Prop :=
  forall (i j : nat) gi gj,
    gs !! i = Some gi -> gs !! j = Some gj ->
    group gi ∉ order -> group gj ∈ order -> (i < j)%nat.

(** ** Reading the log of a run *)

(** The actions that a run appends to the log. *)
Definition actions_of {W : Type} (run : State W -> Outcome * State W)
  (st : State W) : list Action :=
  drop (length (log st)) (log (run st).2).

(** The binding that an action is about. *)
Definition action_key (a : Action) : option string :=
  match a with
  | Get k _ | NotifyingBinding k _ | BindingProcessed k _ | Raised k _ _ =>
      Some k
  | _ => None
  end.

(** The look-ups in the context, in order. *)
Definition resolved (a : Action) : option (string * LifeCycleEvent) :=
  match a with
  | Get k ev => Some (k, ev)
  | _ => None
  end.

Definition gets_of (l : list Action) : list (string * LifeCycleEvent) :=
  omap resolved l.

Definition is_Raised (a : Action) : Prop :=
  match a with Raised _ _ _ => True | _ => False end.

(** What the notification of one binding logs when nothing is thrown. *)
Definition member_action (keys : list string) (ev : LifeCycleEvent)
  (a : Action) : Prop :=
  match a with
  | Get k ev' | NotifyingBinding k ev' | BindingProcessed k ev' =>
      ev' = ev /\ k ∈ keys
  | Call ev' => ev' = ev
  | _ => False
  end.

(** The binding [k] resolves, and its hook for [ev] is missing ([r] is then
    [None]) or settles with [r] on some world. *)
Definition hook_result {W : Type} (this : LifeCycleObserverRegistry W)
  (ev : LifeCycleEvent) (k : string) (r : option Error) : Prop :=
  exists o, get (ctx this) k = inr o
    /\ match o ev with
       | None => r = None
       | Some hook => exists w, (hook w).2 = r
       end.

(** The log of the members of a group for one event: quiet actions about
    the members, ended by the exception if there is one. *)
Definition members_log (keys : list string) (ev : LifeCycleEvent)
  (out : Outcome) (l : list Action) : Prop :=
  match out with
  | Fulfilled => Forall (member_action keys ev) l
  | Rejected e =>
      exists l0 k, l = l0 ++ [Raised k ev e] /\ k ∈ keys
                   /\ Forall (member_action keys ev) l0
  end.

Definition get_actions (ev : LifeCycleEvent) (bs : list Binding)
  : list Action :=
  map (fun b => Get (key b) ev) bs.

(** All members of the group have processed the event. *)
Definition members_processed {W : Type} (this : LifeCycleObserverRegistry W)
  (ev : LifeCycleEvent) (bs : list Binding) (l : list Action) : Prop :=
  forall b, b ∈ bs ->
    hook_result this ev (key b) None /\ BindingProcessed (key b) ev ∈ l.

(** Fan-out: the look-ups of all members come first, then no more. *)
Definition fanned_out (ev : LifeCycleEvent) (bs : list Binding)
  (l : list Action) : Prop :=
  exists l', l = get_actions ev bs ++ l' /\ gets_of l' = [].

(** What [notifyObserverGroup] logs between its two debug lines. *)
Record members_trace {W : Type} (this : LifeCycleObserverRegistry W)
  (ev : LifeCycleEvent) (bs : list Binding) (out : Outcome)
  (l : list Action) : Prop := {
  mt_log : members_log (map key bs) ev out l;
  mt_gets : exists n, gets_of l = map (fun b => (key b, ev)) (take n bs);
  mt_all_gets : out = Fulfilled -> gets_of l = map (fun b => (key b, ev)) bs;
  mt_processed : out = Fulfilled -> members_processed this ev bs l;
  mt_fanned_out : is_parallel (options this) = true -> fanned_out ev bs l;
}.

(** What [notifyObserverGroup] logs. *)
Definition group_trace {W : Type} (this : LifeCycleObserverRegistry W)
  (ev : LifeCycleEvent) (g : LifeCycleObserverGroup) (out : Outcome)
  (t : list Action) : Prop :=
  exists l,
    members_trace this ev (bindings g) out l
    /\ t = NotifyingGroup (group g) ev :: l
           ++ match out with
              | Fulfilled => [GroupProcessed (group g) ev]
              | Rejected _ => []
              end.

(** What the inner loop of [notifyGroups] logs for one event. *)
Fixpoint event_trace {W : Type} (this : LifeCycleObserverRegistry W)
  (ev : LifeCycleEvent) (groups : list LifeCycleObserverGroup)
  (out : Outcome) (t : list Action) : Prop :=
  match groups with
  | [] => out = Fulfilled /\ t = []
  | g :: groups' =>
      exists o1 t1, group_trace this ev g o1 t1
        /\ match o1 with
           | Fulfilled =>
               exists t2, t = t1 ++ t2 /\ event_trace this ev groups' out t2
           | Rejected e => out = Rejected e /\ t = t1
           end
  end.

(** What [notifyGroups] logs. *)
Fixpoint pass_trace {W : Type} (this : LifeCycleObserverRegistry W)
  (events : list LifeCycleEvent) (groups : list LifeCycleObserverGroup)
  (out : Outcome) (t : list Action) : Prop :=
  match events with
  | [] => out = Fulfilled /\ t = []
  | ev :: events' =>
      exists o1 t1, event_trace this ev groups o1 t1
        /\ match o1 with
           | Fulfilled =>
               exists t2, t = Beginning ev :: t1 ++ Finished ev :: t2
                          /\ pass_trace this events' groups out t2
           | Rejected e => out = Rejected e /\ t = Beginning ev :: t1
           end
  end.

(** ** Reading a trace *)

(** How a trace ends: without any exception when the promise is fulfilled,
    with the exception that rejects it, and no other, otherwise. *)
Definition raise_shape (out : Outcome) (t : list Action) : Prop :=
  match out with
  | Fulfilled => Forall (fun a => ~ is_Raised a) t
  | Rejected e =>
      exists t0 k ev, t = t0 ++ [Raised k ev e]
                      /\ Forall (fun a => ~ is_Raised a) t0
  end.

(** The actions are about the given events and about bindings of the given
    groups. *)
Definition about (events : list LifeCycleEvent)
  (groups : list LifeCycleObserverGroup) (a : Action) : Prop :=
  action_event a ∈ events
  /\ forall k, action_key a = Some k ->
       exists g, g ∈ groups /\ k ∈ map key (bindings g).

(** The look-ups of a whole pass: each event, each group, each member. *)
Definition group_gets (ev : LifeCycleEvent) (g : LifeCycleObserverGroup)
  : list (string * LifeCycleEvent) :=
  map (fun b => (key b, ev)) (bindings g).

Definition event_gets (groups : list LifeCycleObserverGroup)
  (ev : LifeCycleEvent) : list (string * LifeCycleEvent) :=
  concat (map (group_gets ev) groups).

Definition pass_gets (events : list LifeCycleEvent)
  (groups : list LifeCycleObserverGroup) : list (string * LifeCycleEvent) :=
  concat (map (event_gets groups) events).

(** Every group has processed the event [ev] in the log [l]. *)
Definition completed {W : Type} (this : LifeCycleObserverRegistry W)
  (groups : list LifeCycleObserverGroup) (ev : LifeCycleEvent)
  (l : list Action) : Prop :=
  forall g, g ∈ groups ->
    GroupProcessed (group g) ev ∈ l
    /\ members_processed this ev (bindings g) l.

(** [ev1] comes before [ev2] in the sequence of events of a pass. *)
Definition precedes (events : list LifeCycleEvent)
  (ev1 ev2 : LifeCycleEvent) : Prop :=
  exists pre mid post, events = pre ++ ev1 :: mid ++ ev2 :: post.

(** One resumption of a suspended task: the state before, what is logged,
    the state after. *)
Inductive resumes {W : Type} (this : LifeCycleObserverRegistry W)
  (ev : LifeCycleEvent) (k : string)
  : TaskState -> list Action -> TaskState -> Prop :=
| resumes_unresolved e :
    get (ctx this) k = inl e ->
    resumes this ev k AwaitGet [Raised k ev e] (TaskRejected e)
| resumes_skipped :
    hook_result this ev k None ->
    resumes this ev k AwaitGet [NotifyingBinding k ev] (AwaitInvoke None)
| resumes_invoked r :
    hook_result this ev k r ->
    resumes this ev k AwaitGet [NotifyingBinding k ev; Call ev] (AwaitInvoke r)
| resumes_processed :
    resumes this ev k (AwaitInvoke None) [BindingProcessed k ev] TaskFulfilled
| resumes_failed e :
    resumes this ev k (AwaitInvoke (Some e)) [Raised k ev e] (TaskRejected e)
| resumes_fulfilled : resumes this ev k TaskFulfilled [] TaskFulfilled
| resumes_rejected e : resumes this ev k (TaskRejected e) [] (TaskRejected e).

(** What is known of a task in the pool, [l] being the log of the group so
    far: a rejected task never stays in the pool. *)
Definition task_inv {W : Type} (this : LifeCycleObserverRegistry W)
  (ev : LifeCycleEvent) (l : list Action) (t : Task) : Prop :=
  let k := key (task_binding t) in
  match task_state t with
  | AwaitGet => True
  | AwaitInvoke r => hook_result this ev k r
  | TaskFulfilled => hook_result this ev k None /\ BindingProcessed k ev ∈ l
  | TaskRejected _ => False
  end.

(** What a join of the pool establishes. *)
Definition join_spec {W : Type} (this : LifeCycleObserverRegistry W)
  (ev : LifeCycleEvent) (keys : list string) (l0 : list Action)
  (ts : list Task) (st : State W) (r : Outcome * State W) : Prop :=
  oracle r.2 = oracle st
  /\ exists l, log r.2 = log st ++ l
       /\ members_log keys ev r.1 l
       /\ gets_of l = []
       /\ (r.1 = Fulfilled ->
           members_processed this ev (task_binding <$> ts) (l0 ++ l)).

(** Two states that differ at most in the oracle, and two results that
    differ at most in the oracle that is left. *)
Definition same_state {W : Type} (st1 st2 : State W) : Prop :=
  world st1 = world st2 /\ log st1 = log st2.

Definition same_run {W : Type} (r1 r2 : Outcome * State W) : Prop :=
  r1.1 = r2.1 /\ same_state r1.2 r2.2.

(** The registry with the mode of notification set. *)
Definition with_parallel {W : Type} (this : LifeCycleObserverRegistry W)
  (p : bool) : LifeCycleObserverRegistry W :=
  mkRegistry (ctx this) (mkOptions (Some p)) (groupsByOrder this).

(** A group of at most one member. *)
Definition small (g : LifeCycleObserverGroup) : Prop :=
  (length (bindings g) <= 1)%nat.

(** ** Fixtures: the bindings of the test suite *)

Module Fixtures.

(** The tag names of [keys.ts], as the tests rely on them. *)
Definition CoreTags : Tags :=
  mkTags "lifeCycleObserver" "lifeCycleObserverGroup" "server".

Definition tag_group (g : option string) (m : gmap string string)
  : gmap string string :=
  match g with
  | Some g => <[LIFE_CYCLE_OBSERVER_GROUP CoreTags := g]> m
  | None => m
  end.

(** [bind(key).toClass(MyObserver).apply(asLifeCycleObserverBinding)],
    then the group tag if a group is given. *)
Definition givenObserverBinding (key : string) (g : option string) : Binding :=
  mkBinding key SINGLETON (Some CLASS)
    (tag_group g {[LIFE_CYCLE_OBSERVER CoreTags := LIFE_CYCLE_OBSERVER CoreTags]}).

(** [bind(key).toClass(FakeServer).tag(SERVER).inScope(SINGLETON)]. *)
Definition givenServerBinding (key : string) (g : option string) : Binding :=
  mkBinding key SINGLETON (Some CLASS)
    (tag_group g {[SERVER CoreTags := SERVER CoreTags]}).

(** [bind(key).to(observer).tag({group}).apply(asLifeCycleObserverBinding)] *)
Definition givenConstantBinding (key : string) (g : option string) : Binding :=
  mkBinding key SINGLETON (Some CONSTANT)
    (tag_group g {[LIFE_CYCLE_OBSERVER CoreTags := LIFE_CYCLE_OBSERVER CoreTags]}).

Definition keys_of (gs : list LifeCycleObserverGroup)
  : list (string * list string) :=
  map (fun g => (group g, map key (bindings g))) gs.

End Fixtures.

(** ** More fixtures: mock observers and a context *)

Module Mocks.

Definition event_name (event : LifeCycleEvent) : string :=
  match event with
  | PreStart => "preStart" | Start => "start" | PostStart => "postStart"
  | PreStop => "preStop" | Stop => "stop" | PostStop => "postStop"
  end.

(** [events.push(`${event}-${this.name}`)] *)
Definition push_event (event : LifeCycleEvent) (name : string)
  : Hook (list string) :=
  fun events => (events ++ [event_name event +:+ "-" +:+ name], None).

(** The observer of 'allows pre/post events': all six hooks. *)
Definition MockObserver (name : string) : LifeCycleObserver (list string) :=
  fun event => Some (push_event event name).

(** The observer of 'starts/stops all registered life cycle observers by
    order': [start] and [stop] only. *)
Definition StartStopObserver (name : string)
  : LifeCycleObserver (list string) :=
  fun event =>
    match event with
    | Start | Stop => Some (push_event event name)
    | _ => None
    end.

(** A context holding the given bindings and instances; a key without an
    instance does not resolve. *)
Definition givenContext {W : Type} (bs : list Binding)
  (instances : list (string * LifeCycleObserver W)) : Context W :=
  mkContext bs
    (fun k =>
       match Map_get instances k with
       | Some o => inr o
       | None => inl ("The key " +:+ k +:+ " was not bound to any value.")
       end).

(** Observers A (group g1) and B (group g2), with all six hooks. *)
Definition ctx_AB : Context (list string) :=
  givenContext
    [Fixtures.givenConstantBinding "A" (Some "g1");
     Fixtures.givenConstantBinding "B" (Some "g2")]
    [("A", MockObserver "A"); ("B", MockObserver "B")].

(** [new LifeCycleObserverRegistry(ctx, options)], then
    [setGroupsByOrder(['g1', 'g2'])]. *)
Definition registry_AB (o : option LifeCycleObserverOptions)
  : LifeCycleObserverRegistry (list string) :=
  setGroupsByOrder (new_LifeCycleObserverRegistry ctx_AB o)
    (Some ["g1"; "g2"]).

(** The groups that the order [g1, g2] makes of A and B. *)
Definition groups_AB : list LifeCycleObserverGroup :=
  [mkGroup "g1" [Fixtures.givenConstantBinding "A" (Some "g1")];
   mkGroup "g2" [Fixtures.givenConstantBinding "B" (Some "g2")]].

(** A single observer with [start] and [stop] only, default options. *)
Definition registry_one : LifeCycleObserverRegistry (list string) :=
  new_LifeCycleObserverRegistry
    (givenContext [Fixtures.givenConstantBinding "my-observer" None]
       [("my-observer", StartStopObserver "1")])
    None.

(** Two observers of one group; the hook of the second one fails. *)
Definition failing : LifeCycleObserver (list string) :=
  fun event =>
    match event with
    | Start => Some (fun events => (events, Some "cannot start"))
    | _ => None
    end.

Definition registry_failing (o : option LifeCycleObserverOptions)
  : LifeCycleObserverRegistry (list string) :=
  new_LifeCycleObserverRegistry
    (givenContext
       [Fixtures.givenConstantBinding "h1" (Some "g");
        Fixtures.givenConstantBinding "h2" (Some "g")]
       [("h1", StartStopObserver "h1"); ("h2", failing)])
    o.

(** An observer bound to a class in the default, transient scope, next to
    a singleton one. *)
Definition transient_binding : Binding :=
  mkBinding "transient-observer" TRANSIENT (Some CLASS)
    {[LIFE_CYCLE_OBSERVER Fixtures.CoreTags
        := LIFE_CYCLE_OBSERVER Fixtures.CoreTags]}.

Definition registry_transient : LifeCycleObserverRegistry (list string) :=
  new_LifeCycleObserverRegistry
    (givenContext
       [transient_binding; Fixtures.givenObserverBinding "my-observer" None]
       [("transient-observer", MockObserver "t");
        ("my-observer", MockObserver "1")])
    None.

Definition initial (oracle : list (list nat)) : State (list string) :=
  mkState [] [] oracle.

End Mocks.

(** The claim C3 as it is worded: in one pass no binding is looked up in
    the context more than once. *)
Definition resolved_once_per_pass (t : list Action) : Prop :=
  forall k, (length (filter (fun p => p.1 = k) (gets_of t)) <= 1)%nat.

(** What a run of [start] or [stop] guarantees about failures. *)
Definition failure_propagates {W : Type} (this : LifeCycleObserverRegistry W)
  (events : list LifeCycleEvent) (groups : list LifeCycleObserverGroup)
  (run : State W -> Outcome * State W) : Prop :=
  forall st,
    (forall k ev e, Raised k ev e ∈ actions_of run st ->
       (run st).1 = Rejected e
       /\ exists t0, actions_of run st = t0 ++ [Raised k ev e]
                     /\ Forall (fun a => ~ is_Raised a) t0)
    /\ (forall e, (run st).1 = Rejected e ->
          exists t0 k ev, actions_of run st = t0 ++ [Raised k ev e])
    /\ ((run st).1 = Fulfilled ->
          Forall (fun a => ~ is_Raised a) (actions_of run st)
          /\ forall ev g b, ev ∈ events -> g ∈ groups -> b ∈ bindings g ->
               hook_result this ev (key b) None)
    /\ (forall ev g b o hook e,
          ev ∈ events -> g ∈ groups -> b ∈ bindings g ->
          get (ctx this) (key b) = inr o -> o ev = Some hook ->
          (forall w, (hook w).2 = Some e) ->
          exists e', (run st).1 = Rejected e').

(** What a run guarantees about the order of the events. *)
Definition sequenced {W : Type} (this : LifeCycleObserverRegistry W)
  (events : list LifeCycleEvent) (groups : list LifeCycleObserverGroup)
  (run : State W -> Outcome * State W) : Prop :=
  forall st l1 a l2 ev1,
    actions_of run st = l1 ++ a :: l2 ->
    precedes events ev1 (action_event a) ->
    (completed this groups ev1 l1 /\ Finished ev1 ∈ l1)
    /\ Forall (fun a' => action_event a' <> ev1) l2.

(** What a run guarantees about the look-ups in the context. *)
Definition resolves_once_per_event {W : Type}
  (this : LifeCycleObserverRegistry W)
  (events : list LifeCycleEvent) (groups : list LifeCycleObserverGroup)
  (run : State W -> Outcome * State W) : Prop :=
  forall st,
    gets_of (actions_of run st) `prefix_of` pass_gets events groups
    /\ ((run st).1 = Fulfilled ->
        gets_of (actions_of run st) = pass_gets events groups)
    /\ (NoDup (map key (registry (ctx this))) ->
        NoDup (gets_of (actions_of run st))).

Module Scenario.

(** Observers mysql and mongo of group datasource and the server rest,
    under the order [datasource, server], notified one after the other. *)
Definition registry_datasources : LifeCycleObserverRegistry (list string) :=
  setGroupsByOrder
    (new_LifeCycleObserverRegistry
       (Mocks.givenContext
          [Fixtures.givenConstantBinding "mysql" (Some "datasource");
           Fixtures.givenConstantBinding "mongo" (Some "datasource");
           Fixtures.givenConstantBinding "rest" (Some "server")]
          [("mysql", Mocks.MockObserver "mysql");
           ("mongo", Mocks.MockObserver "mongo");
           ("rest", Mocks.MockObserver "rest")])
       (Some (mkOptions (Some false))))
    (Some ["datasource"; "server"]).

End Scenario.

(** What the notification of one group guarantees in parallel mode. *)
Definition fans_out_then_joins {W : Type}
  (this : LifeCycleObserverRegistry W) (g : LifeCycleObserverGroup)
  (ev : LifeCycleEvent) (st : State W) : Prop :=
  let r := notifyObserverGroup this g ev st in
  (exists l,
     actions_of (notifyObserverGroup this g ev) st
     = NotifyingGroup (group g) ev :: get_actions ev (bindings g) ++ l
         ++ match r.1 with
            | Fulfilled => [GroupProcessed (group g) ev]
            | Rejected _ => []
            end
     /\ gets_of l = []
     /\ match r.1 with
        | Fulfilled =>
            (forall b, b ∈ bindings g -> BindingProcessed (key b) ev ∈ l)
            /\ Forall (fun a => ~ is_Raised a) l
        | Rejected e =>
            exists l0 k, l = l0 ++ [Raised k ev e] /\ k ∈ map key (bindings g)
        end)
  /\ (forall groups,
        notifyGroups_event this ev (g :: groups) st
        = match r.1 with
          | Fulfilled => notifyGroups_event this ev groups r.2
          | Rejected e => (Rejected e, r.2)
          end).

(** What the notification of a binding does when the observer has no hook
    for the event. *)
Definition skips_missing_hook {W : Type} (this : LifeCycleObserverRegistry W)
  (observer : LifeCycleObserver W) (event : LifeCycleEvent) (b : Binding)
  (st : State W) : Prop :=
  invokeObserver observer event st = (None, st)
  /\ notifyObserver this event b st
     = (Fulfilled,
        mkState (world st)
          (log st ++ [Get (key b) event; NotifyingBinding (key b) event;
                      BindingProcessed (key b) event])
          (oracle st))
  /\ (let '(t1, st1) :=
        notifyObserver_resume this event (mkTask b AwaitGet) st in
      let '(t2, st2) := notifyObserver_resume this event t1 st1 in
      t1 = mkTask b (AwaitInvoke None)
      /\ t2 = mkTask b TaskFulfilled
      /\ world st2 = world st
      /\ log st2 = log st ++ [NotifyingBinding (key b) event;
                              BindingProcessed (key b) event]).

(** ** Further fixtures *)

Module Edge.

(** A context whose only observer is bound in the transient scope: nothing
    is discovered. *)
Definition registry_none : LifeCycleObserverRegistry (list string) :=
  new_LifeCycleObserverRegistry
    (Mocks.givenContext [Mocks.transient_binding]
       [("transient-observer", Mocks.MockObserver "t")])
    None.

(** An observer binding whose key does not resolve to an instance. *)
Definition registry_unbound (o : option LifeCycleObserverOptions)
  : LifeCycleObserverRegistry (list string) :=
  new_LifeCycleObserverRegistry
    (Mocks.givenContext
       [Fixtures.givenObserverBinding "my-observer" None] [])
    o.

(** A binding with an empty group tag and the tag of a server. *)
Definition empty_group_server : Binding :=
  mkBinding "servers.rest" SINGLETON (Some CLASS)
    (<[LIFE_CYCLE_OBSERVER_GROUP Fixtures.CoreTags := ""]>
       {[SERVER Fixtures.CoreTags := SERVER Fixtures.CoreTags]}).

End Edge.

(** ** The earlier design: a context that is its own registry *)

(** [ContextWithLifeCycle] keeps no groups: it sorts the bindings
    themselves and notifies them one after the other. *)
Module LifeCycleContext.

Section Class.

Context {W : Type} (CoreTags : Tags).

(** The class extends [Context]: [super] is the inherited part. *)
Record ContextWithLifeCycle := mkContextWithLifeCycle {
  super : Context W;
  lifeCycleObserverGroups : list string;
}.

Definition new_ContextWithLifeCycle (c : Context W) : ContextWithLifeCycle :=
  mkContextWithLifeCycle c ["server"].

Definition configureLifeCycleObserverGroups (this : ContextWithLifeCycle)
  (groups : option (list string)) : ContextWithLifeCycle :=
  mkContextWithLifeCycle (super this) (default ["server"] groups).

Definition _getLifeCycleObserverGroup (this : ContextWithLifeCycle)
  (binding : Binding) : string :=
  (* First check if there is an explicit group name in the tag *)
  let group := tagMap binding !! LIFE_CYCLE_OBSERVER_GROUP CoreTags in
  let group :=
    if truthy group then group
    else (* Fall back to a tag that matches one of the groups *)
      Array_find (fun g => bool_decide (tagMap binding !! g = Some g))
        (lifeCycleObserverGroups this)
  in
  if truthy group then default "" group else "".

(** The comparator given to [sort]. *)
Definition compareBindings (this : ContextWithLifeCycle) (b1 b2 : Binding)
  : Z :=
  let group1 := _getLifeCycleObserverGroup this b1 in
  let group2 := _getLifeCycleObserverGroup this b2 in
  indexOf (lifeCycleObserverGroups this) group1
  - indexOf (lifeCycleObserverGroups this) group2.

Definition sortLifeCycleObserverBindings (this : ContextWithLifeCycle)
  (bindings : list Binding) : list Binding :=
  Array_sort (compareBindings this) bindings.

Definition findLifeCycleObserverBindings (this : ContextWithLifeCycle)
  : list Binding :=
  let bindings :=
    Context_find (super this)
      (fun binding =>
         (bool_decide (type binding = Some CONSTANT)
          || bool_decide (scope binding = SINGLETON))
         && (not_null (tagMap binding !! LIFE_CYCLE_OBSERVER CoreTags)
             || truthy (tagMap binding !! SERVER CoreTags))) in
  sortLifeCycleObserverBindings this bindings.

Definition invokeLifeCycleObserver (observer : LifeCycleObserver W)
  (event : LifeCycleEvent) (st : State W) : option Error * State W :=
  match observer event with
  | Some hook =>
      let '(w, r) := hook (world st) in
      (r, mkState w (log st ++ [Call event]) (oracle st))
  | None => (None, st)
  end.

(** Each binding is resolved, notified and awaited before the next one;
    an await that throws ends the loop. *)
Fixpoint notifyLifeCycleObservers (this : ContextWithLifeCycle)
  (bindings : list Binding) (event : LifeCycleEvent) (st : State W)
  : Outcome * State W :=
  match bindings with
  | [] => (Fulfilled, st)
  | binding :: bindings' =>
      let st := add_log (Get (key binding) event) st in
      match get (super this) (key binding) with
      | inl e => (Rejected e, add_log (Raised (key binding) event e) st)
      | inr observer =>
          let st := add_log (NotifyingBinding (key binding) event) st in
          let '(r, st) := invokeLifeCycleObserver observer event st in
          match r with
          | None =>
              notifyLifeCycleObservers this bindings' event
                (add_log (BindingProcessed (key binding) event) st)
          | Some e => (Rejected e, add_log (Raised (key binding) event e) st)
          end
      end
  end.

(** The loop over the events that [start] and [stop] both have. *)
Fixpoint notifyEvents (this : ContextWithLifeCycle)
  (events : list LifeCycleEvent) (bindings : list Binding) (st : State W)
  : Outcome * State W :=
  match events with
  | [] => (Fulfilled, st)
  | event :: events' =>
      let st := add_log (Beginning event) st in
      match notifyLifeCycleObservers this bindings event st with
      | (Fulfilled, st) =>
          notifyEvents this events' bindings (add_log (Finished event) st)
      | (Rejected e, st) => (Rejected e, st)
      end
  end.

Definition start (this : ContextWithLifeCycle) (st : State W)
  : Outcome * State W :=
  let bindings := findLifeCycleObserverBindings this in
  let events := [PreStart; Start; PostStart] in
  notifyEvents this events bindings st.

Definition stop (this : ContextWithLifeCycle) (st : State W)
  : Outcome * State W :=
  let bindings := reverse (findLifeCycleObserverBindings this) in
  (* Stop in the reverse order *)
  let events := [PreStop; Stop; PostStop] in
  notifyEvents this events bindings st.

End Class.

Arguments ContextWithLifeCycle : clear implicits.

End LifeCycleContext.

(** ** Comparing the two designs *)

(** The position of a binding's group in the configured order. *)
Definition group_index (CoreTags : Tags) (order : list string) (b : Binding)
  : Z :=
  indexOf order (getObserverGroup CoreTags order b).

(** No two groups among the bindings share a position: at most one group
    is missing from the configured order. *)
Definition index_names_group (CoreTags : Tags) (order : list string)
  (bs : list Binding) : Prop :=
  forall b1 b2, b1 ∈ bs -> b2 ∈ bs ->
    group_index CoreTags order b1 = group_index CoreTags order b2 ->
    getObserverGroup CoreTags order b1 = getObserverGroup CoreTags order b2.

(** The debug lines about groups, which only the registry writes. *)
Definition is_group_line (a : Action) : bool :=
  match a with
  | NotifyingGroup _ _ | GroupProcessed _ _ => true
  | _ => false
  end.

Definition without_group_lines (l : list Action) : list Action :=
  List.filter (fun a => negb (is_group_line a)) l.

(** The registry that takes the place of a [ContextWithLifeCycle]: over
    the same context, with the same order, notifying in series. *)
Definition registry_for {W : Type}
  (c : LifeCycleContext.ContextWithLifeCycle W)
  : LifeCycleObserverRegistry W :=
  setGroupsByOrder
    (new_LifeCycleObserverRegistry (LifeCycleContext.super c)
       (Some (mkOptions (Some false))))
    (Some (LifeCycleContext.lifeCycleObserverGroups c)).

(** Two states that began with the log [l0] and have since come to differ
    by group lines only. *)
Definition same_but_group_lines {W : Type} (l0 : list Action)
  (st1 st2 : State W) : Prop :=
  world st1 = world st2
  /\ exists l1 l2, log st1 = l0 ++ l1 /\ log st2 = l0 ++ l2
                   /\ without_group_lines l1 = l2.

(** The look-ups of a pass over bindings: each event, each binding. *)
Definition binding_gets (events : list LifeCycleEvent) (bs : list Binding)
  : list (string * LifeCycleEvent) :=
  concat (map (fun ev => map (fun b => (key b, ev)) bs) events).

(** ** Fixtures of the tests of [ContextWithLifeCycle] *)

Module ContextFixtures.

(** 'sorts life cycle observers by group' *)
Definition observers_g1_g2_g1 : list Binding :=
  [Fixtures.givenObserverBinding "my-observer-1" (Some "g1");
   Fixtures.givenObserverBinding "my-observer-2" (Some "g2");
   Fixtures.givenObserverBinding "my-observer-3" (Some "g1")].

Definition givenContext (bs : list Binding)
  (instances : list (string * LifeCycleObserver (list string)))
  (groups : option (list string))
  : LifeCycleContext.ContextWithLifeCycle (list string) :=
  LifeCycleContext.configureLifeCycleObserverGroups
    (LifeCycleContext.new_ContextWithLifeCycle
       (Mocks.givenContext bs instances))
    groups.

(** Three observers with all six hooks, in the groups g1, g2, g1. *)
Definition context_121 : LifeCycleContext.ContextWithLifeCycle (list string) :=
  givenContext observers_g1_g2_g1
    [("my-observer-1", Mocks.MockObserver "1");
     ("my-observer-2", Mocks.MockObserver "2");
     ("my-observer-3", Mocks.MockObserver "3")]
    (Some ["g1"; "g2"]).

(** 'allows pre/post events': one observer in g1, one in g2. *)
Definition context_AB : LifeCycleContext.ContextWithLifeCycle (list string) :=
  LifeCycleContext.configureLifeCycleObserverGroups
    (LifeCycleContext.new_ContextWithLifeCycle Mocks.ctx_AB)
    (Some ["g1"; "g2"]).

End ContextFixtures.

(** ** [lifecycle.ts]: recognising and registering observers *)

Module Lifecycle.

(** Modelled from the use the tests make of [@loopback/context], whose
    source is not at hand: [binding.tag(name)] stores [name] under [name],
    [binding.inScope(scope)] sets the scope; both return the binding. *)
Definition Binding_tag (binding : Binding) (name : string) : Binding :=
  mkBinding (key binding) (scope binding) (type binding)
    (<[name := name]> (tagMap binding)).

Definition Binding_inScope (binding : Binding) (s : BindingScope) : Binding :=
  mkBinding (key binding) s (type binding) (tagMap binding).

Definition lifeCycleMethods : list LifeCycleEvent :=
  [PreStart; Start; PostStart; PreStop; Stop; PostStop].

(** [lifeCycleMethods.some(m => typeof obj[m] === 'function')] *)
Definition isLifeCycleObserver {W : Type} (obj : LifeCycleObserver W) : bool :=
  existsb (fun m => match obj m with Some _ => true | None => false end)
    lifeCycleMethods.

(** Configure the binding as life cycle observer *)
Definition asLifeCycleObserverBinding (CoreTags : Tags) (binding : Binding)
  : Binding :=
  Binding_inScope (Binding_tag binding (LIFE_CYCLE_OBSERVER CoreTags))
    SINGLETON.

End Lifecycle.

(** ** The hooks that a run calls *)

(** One invocation of a hook: the event, the binding whose observer is
    notified, and what the promise that the hook returned settled to
    ([None]: it was fulfilled). *)
Definition Invocation : Type := LifeCycleEvent * Binding * option Error.

Definition invoked_event (x : Invocation) : LifeCycleEvent := x.1.1.
Definition invoked (x : Invocation) : Binding := x.1.2.
Definition settled (x : Invocation) : option Error := x.2.

(** The hook of the observer bound to [b], for the event [ev], called on
    the world [w]: the world that it leaves and what its promise settles
    to.  An observer without a hook for the event is passed over. *)
Definition call_hook {W : Type} (this : LifeCycleObserverRegistry W)
  (ev : LifeCycleEvent) (b : Binding) (w : W) : W * option Error :=
  match get (ctx this) (key b) with
  | inr observer =>
      match observer ev with
      | Some hook => hook w
      | None => (w, None)
      end
  | inl _ => (w, None)
  end.

(** [replays this w h w']: the history [h] is what was done to the world,
    from [w] to [w'].  Every binding of [h] resolved, every hook was called
    on the world that the invocation before it left, and its promise
    settled to what [h] records for it. *)
Inductive replays {W : Type} (this : LifeCycleObserverRegistry W)
  : W -> list Invocation -> W -> Prop :=
| replays_nil w : replays this w [] w
| replays_cons w ev b o h w' :
    get (ctx this) (key b) = inr o ->
    replays this (call_hook this ev b w).1 h w' ->
    replays this w ((ev, b, (call_hook this ev b w).2) :: h) w'.

(** The invocations for which there is a hook to call. *)
Definition has_hook {W : Type} (this : LifeCycleObserverRegistry W)
  (x : Invocation) : bool :=
  match get (ctx this) (key (invoked x)) with
  | inr observer =>
      match observer (invoked_event x) with
      | Some _ => true
      | None => false
      end
  | inl _ => false
  end.

(** The calls of hooks that a log shows, and the calls that a history
    makes. *)
Definition called (a : Action) : option LifeCycleEvent :=
  match a with
  | Call ev => Some ev
  | _ => None
  end.

Definition hook_calls_of (l : list Action) : list LifeCycleEvent :=
  omap called l.

Definition logged_calls {W : Type} (this : LifeCycleObserverRegistry W)
  (h : list Invocation) : list LifeCycleEvent :=
  map invoked_event (List.filter (has_hook this) h).

(** A member of [bs] whose key the context does not resolve, the look-up
    failing with [e]. *)
Definition unresolved {W : Type} (this : LifeCycleObserverRegistry W)
  (bs : list Binding) (e : Error) : Prop :=
  exists b, b ∈ bs /\ get (ctx this) (key b) = inl e.

(** The members [bs] of one group notified of [ev], from the world [w] to
    the world [w'], with the outcome [out] and the history [h].  Fulfilled:
    every member was invoked, once, in some order, and every promise was
    fulfilled.  Rejected with [e]: no member was invoked twice, and [e] is
    the error of a look-up that failed or of a hook that was invoked. *)
Definition chunk_run {W : Type} (this : LifeCycleObserverRegistry W)
  (ev : LifeCycleEvent) (bs : list Binding) (w : W) (h : list Invocation)
  (out : Outcome) (w' : W) : Prop :=
  replays this w h w'
  /\ Forall (fun x => invoked_event x = ev) h
  /\ match out with
     | Fulfilled =>
         map invoked h ≡ₚ bs /\ Forall (fun x => settled x = None) h
     | Rejected e =>
         map invoked h ⊆+ bs
         /\ (unresolved this bs e \/ exists b, (ev, b, Some e) ∈ h)
     end.

(** A sequence of such notifications, each beginning when the one before
    it is fulfilled; the first that is rejected ends the sequence. *)
Fixpoint chunks_run {W : Type} (this : LifeCycleObserverRegistry W)
  (chunks : list (LifeCycleEvent * list Binding)) (w : W)
  (h : list Invocation) (out : Outcome) (w' : W) : Prop :=
  match chunks with
  | [] => h = [] /\ out = Fulfilled /\ w' = w
  | (ev, bs) :: chunks' =>
      exists h1 o1 w1,
        chunk_run this ev bs w h1 o1 w1
        /\ match o1 with
           | Fulfilled =>
               exists h2, h = h1 ++ h2
                          /\ chunks_run this chunks' w1 h2 out w'
           | Rejected e => h = h1 /\ out = Rejected e /\ w' = w1
           end
  end.

(** The notifications of an event, and of a pass: each group for the
    event, and that for each event in turn. *)
Definition event_chunks (ev : LifeCycleEvent)
  (groups : list LifeCycleObserverGroup)
  : list (LifeCycleEvent * list Binding) :=
  map (fun g => (ev, bindings g)) groups.

Definition pass_chunks (events : list LifeCycleEvent)
  (groups : list LifeCycleObserverGroup)
  : list (LifeCycleEvent * list Binding) :=
  concat (map (fun ev => event_chunks ev groups) events).

(** The invocations that a sequence of notifications is to make. *)
Definition chunk_calls (c : LifeCycleEvent * list Binding)
  : list (LifeCycleEvent * Binding) :=
  map (fun b => (c.1, b)) c.2.

Definition expected_calls (chunks : list (LifeCycleEvent * list Binding))
  : list (LifeCycleEvent * Binding) :=
  concat (map chunk_calls chunks).

(** What a suspended task has added to the history of its group. *)
Definition entry (ev : LifeCycleEvent) (t : Task) : option Invocation :=
  match task_state t with
  | AwaitGet => None
  | AwaitInvoke r => Some (ev, task_binding t, r)
  | TaskFulfilled => Some (ev, task_binding t, None)
  | TaskRejected e => Some (ev, task_binding t, Some e)
  end.

Definition ledger (ev : LifeCycleEvent) (ts : list Task) : list Invocation :=
  omap (entry ev) ts.

(** The pool of tasks of a group while they are joined: [h] is the history
    since the world [w0] and the log [l0]. *)
Definition pool_history {W : Type} (this : LifeCycleObserverRegistry W)
  (ev : LifeCycleEvent) (w0 : W) (l0 : list Action) (ts : list Task)
  (st : State W) (h : list Invocation) : Prop :=
  replays this w0 h (world st)
  /\ h ≡ₚ ledger ev ts
  /\ hook_calls_of (log st) = hook_calls_of l0 ++ logged_calls this h
  /\ Forall (fun t => forall e, task_state t <> TaskRejected e) ts.

(** What the notification of the members [bs] has done when it settles. *)
Definition members_history {W : Type} (this : LifeCycleObserverRegistry W)
  (ev : LifeCycleEvent) (bs : list Binding) (st : State W)
  (r : Outcome * State W) : Prop :=
  exists h,
    chunk_run this ev bs (world st) h r.1 (world r.2)
    /\ hook_calls_of (log r.2) = hook_calls_of (log st) ++ logged_calls this h.

(** What a sequence of notifications has done when it settles. *)
Definition run_history {W : Type} (this : LifeCycleObserverRegistry W)
  (chunks : list (LifeCycleEvent * list Binding)) (st : State W)
  (r : Outcome * State W) : Prop :=
  exists h,
    chunks_run this chunks (world st) h r.1 (world r.2)
    /\ hook_calls_of (log r.2) = hook_calls_of (log st) ++ logged_calls this h.

(** The event and the binding of an invocation. *)
Definition call_of (x : Invocation) : LifeCycleEvent * Binding := x.1.

(** What the notification of one group does with the hooks of its members:
    [h] is the history of the invocations that it made. *)
Definition joins_hooks {W : Type} (this : LifeCycleObserverRegistry W)
  (g : LifeCycleObserverGroup) (ev : LifeCycleEvent) (st : State W) : Prop :=
  let r := notifyObserverGroup this g ev st in
  exists h : list Invocation,
    replays this (world st) h (world r.2)
    /\ Forall (fun x => invoked_event x = ev) h
    /\ map invoked h ⊆+ bindings g
    /\ hook_calls_of (actions_of (notifyObserverGroup this g ev) st)
       = logged_calls this h
    /\ (r.1 = Fulfilled ->
        map invoked h ≡ₚ bindings g
        /\ Forall (fun x => settled x = None) h)
    /\ (forall e, r.1 = Rejected e ->
          unresolved this (bindings g) e \/ exists b, (ev, b, Some e) ∈ h)
    /\ (forall x e, x ∈ h -> settled x = Some e ->
          exists e', r.1 = Rejected e').

(** What a run over a sequence of notifications does with the hooks: the
    notifications follow each other, each beginning on the world that the
    one before it left when all its hooks had been fulfilled. *)
Definition joins_in_sequence {W : Type} (this : LifeCycleObserverRegistry W)
  (chunks : list (LifeCycleEvent * list Binding))
  (run : State W -> Outcome * State W) : Prop :=
  forall st, exists h : list Invocation,
    chunks_run this chunks (world st) h (run st).1 (world (run st).2)
    /\ hook_calls_of (actions_of run st) = logged_calls this h.

(** What a run of [start] or [stop] does with the hooks and with their
    failures: [h] is the history of the invocations that the run made. *)
Definition failures_surface {W : Type} (this : LifeCycleObserverRegistry W)
  (events : list LifeCycleEvent) (groups : list LifeCycleObserverGroup)
  (run : State W -> Outcome * State W) : Prop :=
  forall st, exists h : list Invocation,
    replays this (world st) h (world (run st).2)
    /\ hook_calls_of (actions_of run st) = logged_calls this h
    /\ chunks_run this (pass_chunks events groups) (world st) h (run st).1
         (world (run st).2)
    /\ map call_of h ⊆+ expected_calls (pass_chunks events groups)
    /\ ((run st).1 = Fulfilled ->
        map call_of h ≡ₚ expected_calls (pass_chunks events groups)
        /\ Forall (fun x => settled x = None) h)
    /\ (forall e, (run st).1 = Rejected e ->
          (exists g, g ∈ groups /\ unresolved this (bindings g) e)
          \/ exists ev b, (ev, b, Some e) ∈ h)
    /\ (forall x e, x ∈ h -> settled x = Some e ->
          exists e', (run st).1 = Rejected e').

(** ** The computation of the groups on the store *)

(** [getObserverGroupsByOrder] once more, now with the objects that it
    reads and creates held in a store, so that what it writes can be told:
    the registry and its array of group names, the context, and the map
    and the arrays that the method allocates.  Bindings are only read and
    are kept as values. *)
Module Store.

Definition loc := nat.

Inductive Object :=
| RegistryObject (ctx : loc) (groupsByOrder : loc)
| ContextObject (registry : list Binding)
| StringArray (items : list string)
| BindingArray (items : list Binding)
| MapObject (entries : list (string * loc))
| GroupArray (items : list (string * loc)).

Abbreviation Heap := (gmap loc Object).

(** A new object: any location that is not in use. *)
Definition alloc (h : Heap) (o : Object) : loc * Heap :=
  let l := fresh (dom h) in (l, <[l := o]> h).

Definition this_ctx (h : Heap) (this : loc) : loc :=
  match h !! this with
  | Some (RegistryObject ctx _) => ctx
  | _ => 0%nat
  end.

Definition this_groupsByOrder (h : Heap) (this : loc) : loc :=
  match h !! this with
  | Some (RegistryObject _ groupsByOrder) => groupsByOrder
  | _ => 0%nat
  end.

Definition read_context (h : Heap) (l : loc) : list Binding :=
  match h !! l with
  | Some (ContextObject registry) => registry
  | _ => []
  end.

Definition read_strings (h : Heap) (l : loc) : list string :=
  match h !! l with
  | Some (StringArray items) => items
  | _ => []
  end.

Definition read_bindings (h : Heap) (l : loc) : list Binding :=
  match h !! l with
  | Some (BindingArray items) => items
  | _ => []
  end.

Definition read_map (h : Heap) (l : loc) : list (string * loc) :=
  match h !! l with
  | Some (MapObject entries) => entries
  | _ => []
  end.

Definition read_groups (h : Heap) (l : loc) : list (string * loc) :=
  match h !! l with
  | Some (GroupArray items) => items
  | _ => []
  end.

Section Methods.

Context (CoreTags : Tags).

(** Modelled from the documentation of [@loopback/context]:
    [ctx.find(filter)] returns a new array of the bindings that match, in
    the order of registration, and writes nothing. *)
Definition Context_find (h : Heap) (ctx : loc) (p : Binding -> bool)
  : loc * Heap :=
  alloc h (BindingArray (List.filter p (read_context h ctx))).

Definition findObserverBindings (h : Heap) (this : loc) : loc * Heap :=
  Context_find h (this_ctx h this) (isObserverBinding CoreTags).

(** [getObserverGroup] reads [this.groupsByOrder] and the binding. *)
Definition getObserverGroup (h : Heap) (this : loc) (binding : Binding)
  : string :=
  getObserverGroup CoreTags (read_strings h (this_groupsByOrder h this))
    binding.

(** [arr.push(binding)] *)
Definition push (h : Heap) (arr : loc) (binding : Binding) : Heap :=
  <[arr := BindingArray (read_bindings h arr ++ [binding])]> h.

(** The body of the first loop of [sortObserverBindingsByGroup]. *)
Definition group_binding (this groupMap : loc) (h : Heap) (binding : Binding)
  : Heap :=
  let group := getObserverGroup h this binding in
  match Map_get (read_map h groupMap) group with
  | None =>
      let '(bindingsInGroup, h) := alloc h (BindingArray []) in
      let h :=
        <[groupMap :=
            MapObject (Map_set (read_map h groupMap) group bindingsInGroup)]>
          h in
      push h bindingsInGroup binding
  | Some bindingsInGroup => push h bindingsInGroup binding
  end.

(** The body of the second loop: [groups.push({group, bindings})]; the
    array of the map is shared, not copied. *)
Definition push_group (groups : loc) (h : Heap) (entry : string * loc)
  : Heap :=
  <[groups := GroupArray (read_groups h groups ++ [entry])]> h.

(** The comparator given to [sort]. *)
Definition compareGroups (h : Heap) (this : loc) (g1 g2 : string * loc) : Z :=
  indexOf (read_strings h (this_groupsByOrder h this)) g1.1
  - indexOf (read_strings h (this_groupsByOrder h this)) g2.1.

(** [sort] sorts the array in place and returns it.  The loops run over
    the elements that the array holds when the loop begins: their bodies
    do not write to the array that they run over. *)
Definition sortObserverBindingsByGroup (h : Heap) (this bindings : loc)
  : loc * Heap :=
  let '(groupMap, h) := alloc h (MapObject []) in
  let h := foldl (group_binding this groupMap) h (read_bindings h bindings) in
  let '(groups, h) := alloc h (GroupArray []) in
  let h := foldl (push_group groups) h (read_map h groupMap) in
  let h :=
    <[groups :=
        GroupArray (Array_sort (compareGroups h this) (read_groups h groups))]>
      h in
  (groups, h).

Definition getObserverGroupsByOrder (h : Heap) (this : loc) : loc * Heap :=
  let '(bindings, h) := findObserverBindings h this in
  sortObserverBindingsByGroup h this bindings.

End Methods.

(** The groups that an array of groups holds, read through the store. *)
Definition deep_groups (h : Heap) (l : loc) : list LifeCycleObserverGroup :=
  map (fun entry => mkGroup entry.1 (read_bindings h entry.2))
    (read_groups h l).

(** The entries that a map holds, read through the store. *)
Definition deep_map (h : Heap) (entries : list (string * loc))
  : list (string * list Binding) :=
  map (fun entry => (entry.1, read_bindings h entry.2)) entries.

(** The object at [this] is a registry over the entries [bs] with the
    order [names]. *)
Definition registry_at (h : Heap) (this : loc) (bs : list Binding)
  (names : list string) : Prop :=
  exists ctx order,
    h !! this = Some (RegistryObject ctx order)
    /\ h !! ctx = Some (ContextObject bs)
    /\ h !! order = Some (StringArray names).

(** The first loop of [sortObserverBindingsByGroup] under way, from the
    store [hs]: the map at [groupMap] holds arrays that the loop has
    allocated, each under one name only, and read through the store it is
    the map [pm]; what was in [hs] is as it was. *)
Definition map_inv (hs : Heap) (groupMap : loc) (h : Heap)
  (pm : list (string * list Binding)) : Prop :=
  dom hs ⊆ dom h
  /\ (groupMap ∉ dom hs)
  /\ (forall l, l ∈ dom hs -> h !! l = hs !! l)
  /\ exists entries,
       h !! groupMap = Some (MapObject entries)
       /\ NoDup (map snd entries)
       /\ Forall (fun entry =>
                    (entry.2 ∉ dom hs) /\ entry.2 <> groupMap
                    /\ entry.2 ∈ dom h) entries
       /\ deep_map h entries = pm.

(** A store with a registry at 0, its context at 1 and its order at 2. *)
Definition given_registry (bs : list Binding) (names : list string) : Heap :=
  <[0%nat := RegistryObject 1%nat 2%nat]>
    (<[1%nat := ContextObject bs]> {[2%nat := StringArray names]}).

End Store.

(** What the computation of the groups leaves of the store, and what two
    calls of it return. *)
Definition groups_computed_purely (CoreTags : Tags) (h : Store.Heap)
  (this : Store.loc) (bs : list Binding) (names : list string) : Prop :=
  let r1 := Store.getObserverGroupsByOrder CoreTags h this in
  let r2 := Store.getObserverGroupsByOrder CoreTags r1.2 this in
  (forall l, l ∈ dom h -> r1.2 !! l = h !! l)
  /\ Store.registry_at r1.2 this bs names
  /\ Store.deep_groups r1.2 r1.1
     = sortObserverBindingsByGroup CoreTags names
         (List.filter (isObserverBinding CoreTags) bs)
  /\ Store.deep_groups r2.2 r2.1 = Store.deep_groups r1.2 r1.1
  /\ r2.1 <> r1.1
  /\ Store.deep_groups r2.2 r1.1 = Store.deep_groups r1.2 r1.1.

(** * Properties *)

(** ** The JS array operations *)

Lemma indexOf_ge (arr : list string) (x : string) : -1 <= indexOf arr x.
Proof.
  induction arr as [|y arr IH]; simpl; [lia|].
  destruct (String.eqb y x); [lia|].
  destruct (indexOf arr x <? 0) eqn:E; lia.
Qed.

Lemma indexOf_absent (arr : list string) (x : string) :
  indexOf arr x = -1 <-> x ∉ arr.
Proof.
  induction arr as [|y arr IH]; simpl.
  - split; [intros _; apply not_elem_of_nil | done].
  - rewrite not_elem_of_cons.
    destruct (String.eqb_spec y x) as [->|Hne].
    + split; [lia | intros [? _]; done].
    + pose proof (indexOf_ge arr x).
      destruct (indexOf arr x <? 0) eqn:E.
      * apply Z.ltb_lt in E. split; [intros _|done].
        split; [congruence | apply IH; lia].
      * apply Z.ltb_ge in E. split; [lia|]. intros [_ H1]. apply IH in H1. lia.
Qed.

Lemma indexOf_present (arr : list string) (x : string) :
  0 <= indexOf arr x <-> x ∈ arr.
Proof.
  pose proof (indexOf_ge arr x). pose proof (indexOf_absent arr x).
  destruct (decide (x ∈ arr)) as [Hin|Hin].
  - split; [done|]. intros _.
    destruct (decide (indexOf arr x = -1)) as [E|E]; [|lia].
    apply H0 in E. done.
  - split; [|done]. intros Hge. apply H0 in Hin. lia.
Qed.

Section SortFacts.

Context {A : Type} (keyOf : A -> Z) (cmp : A -> A -> Z).
Hypothesis cmp_keys : forall x y, cmp x y = keyOf x - keyOf y.

Lemma sort_insert_perm (x : A) (l : list A) : sort_insert cmp x l ≡ₚ x :: l.
Proof.
  induction l as [|y l IH]; simpl; [done|].
  destruct (cmp x y <=? 0); [done|].
  rewrite IH. apply Permutation_swap.
Qed.

Lemma Array_sort_perm (l : list A) : Array_sort cmp l ≡ₚ l.
Proof.
  induction l as [|x l IH]; simpl; [done|].
  rewrite sort_insert_perm. by rewrite IH.
Qed.

Lemma sort_insert_sorted (x : A) (l : list A) :
  StronglySorted (key_le keyOf) l -> StronglySorted (key_le keyOf) (sort_insert cmp x l).
Proof.
  induction l as [|y l IH]; simpl; intros Hs.
  - repeat constructor.
  - apply StronglySorted_inv in Hs as [Hs Hy].
    destruct (cmp x y <=? 0) eqn:E.
    + apply Z.leb_le in E. rewrite cmp_keys in E.
      constructor; [by constructor|].
      constructor; [unfold key_le; lia|].
      eapply Forall_impl; [exact Hy|]. unfold key_le. intros z. simpl. lia.
    + apply Z.leb_gt in E. rewrite cmp_keys in E.
      constructor; [by apply IH|].
      rewrite sort_insert_perm. constructor; [unfold key_le; lia | done].
Qed.

Lemma Array_sort_sorted (l : list A) :
  StronglySorted (key_le keyOf) (Array_sort cmp l).
Proof.
  induction l as [|x l IH]; simpl; [constructor|].
  by apply sort_insert_sorted.
Qed.

(** Stability: the elements of one key keep their relative order. *)
Lemma sort_insert_stable (c : Z) (x : A) (l : list A) :
  filter (fun y => keyOf y = c) (sort_insert cmp x l)
  = filter (fun y => keyOf y = c) (x :: l).
Proof.
  induction l as [|y l IH]; simpl; [done|].
  destruct (cmp x y <=? 0) eqn:E; [done|].
  apply Z.leb_gt in E. rewrite cmp_keys in E.
  rewrite filter_cons, IH, !filter_cons.
  repeat case_decide; try done; lia.
Qed.

Lemma Array_sort_stable (c : Z) (l : list A) :
  filter (fun y => keyOf y = c) (Array_sort cmp l)
  = filter (fun y => keyOf y = c) l.
Proof.
  induction l as [|x l IH]; simpl; [done|].
  rewrite sort_insert_stable, !filter_cons, IH. done.
Qed.

(** In a sorted list a smaller key stands at a smaller index. *)
Lemma sorted_lookup_lt (l : list A) (i j : nat) (x y : A) :
  StronglySorted (key_le keyOf) l ->
  l !! i = Some x -> l !! j = Some y -> keyOf x < keyOf y -> (i < j)%nat.
Proof.
  intros Hs. revert i j. induction Hs as [|a l Hs IH Ha]; intros i j Hi Hj Hlt.
  - done.
  - destruct i as [|i], j as [|j]; simpl in *.
    + simplify_eq. lia.
    + lia.
    + simplify_eq. rewrite Forall_forall in Ha.
      apply list_elem_of_lookup_2 in Hi. apply Ha in Hi.
      unfold key_le in Hi. lia.
    + apply (IH i j) in Hlt; [lia|done|done].
Qed.

End SortFacts.

(** ** Grouping *)

Lemma elem_of_first_seen (l : list string) (x : string) :
  x ∈ first_seen l <-> x ∈ l.
Proof.
  induction l as [|a l IH]; simpl; [done|].
  rewrite !elem_of_cons, list_elem_of_filter, IH.
  destruct (decide (x = a)); tauto.
Qed.

Lemma NoDup_first_seen (l : list string) : NoDup (first_seen l).
Proof.
  induction l as [|a l IH]; simpl; constructor.
  - rewrite list_elem_of_filter. tauto.
  - by apply NoDup_filter.
Qed.

Lemma first_seen_snoc (l : list string) (x : string) :
  first_seen (l ++ [x])
  = if decide (x ∈ l) then first_seen l else first_seen l ++ [x].
Proof.
  induction l as [|a l IH]; simpl; [done|].
  rewrite IH. destruct (decide (x ∈ l)) as [Hin|Hin].
  - rewrite decide_True; [done | by apply list_elem_of_further].
  - rewrite filter_app, filter_cons, filter_nil.
    destruct (decide (x = a)) as [->|Hne].
    + rewrite (decide_False (P := a <> a)) by tauto.
      rewrite (decide_True (P := a ∈ a :: l)) by apply list_elem_of_here.
      by rewrite app_nil_r.
    + rewrite (decide_True (P := x <> a)) by done.
      rewrite (decide_False (P := x ∈ a :: l)); [done|].
      rewrite elem_of_cons; tauto.
Qed.

Section MapFacts.

Context {V : Type} (F : string -> V).

Lemma Map_get_fmap (ks : list string) (k : string) :
  Map_get (map (fun k' => (k', F k')) ks) k
  = if decide (k ∈ ks) then Some (F k) else None.
Proof.
  induction ks as [|a ks IH]; simpl; [done|].
  destruct (String.eqb_spec a k) as [->|Hne].
  - rewrite decide_True; [done | apply list_elem_of_here].
  - rewrite IH. destruct (decide (k ∈ ks)) as [Hin|Hin].
    + rewrite decide_True; [done | by apply list_elem_of_further].
    + rewrite decide_False; [done | rewrite elem_of_cons; intros [?|?]; congruence].
Qed.

Lemma Map_set_fmap_absent (ks : list string) (k : string) (v : V) :
  k ∉ ks ->
  Map_set (map (fun k' => (k', F k')) ks) k v
  = map (fun k' => (k', F k')) ks ++ [(k, v)].
Proof.
  induction ks as [|a ks IH]; simpl; intros Hk; [done|].
  apply not_elem_of_cons in Hk as [Hne Hk].
  destruct (String.eqb_spec a k) as [->|_]; [done|].
  by rewrite IH.
Qed.

Lemma Map_set_fmap_present (ks : list string) (k : string) (v : V) :
  NoDup ks -> k ∈ ks ->
  Map_set (map (fun k' => (k', F k')) ks) k v
  = map (fun k' => (k', if decide (k' = k) then v else F k')) ks.
Proof.
  induction ks as [|a ks IH]; simpl; intros Hnd Hk; [by apply elem_of_nil in Hk|].
  apply NoDup_cons in Hnd as [Ha Hnd].
  destruct (String.eqb_spec a k) as [->|Hne].
  - rewrite decide_True by done. f_equal.
    apply map_ext_in. intros k' Hk'. apply list_elem_of_In in Hk'.
    rewrite decide_False; [done | congruence].
  - rewrite decide_False by done. f_equal. apply IH; [done|].
    apply elem_of_cons in Hk as [->|Hk]; done.
Qed.

End MapFacts.

Section Grouping.

Context (CoreTags : Tags) (order : list string).

Local Abbreviation label := (getObserverGroup CoreTags order).
Local Abbreviation members := (members CoreTags order).
Local Abbreviation unsorted_groups := (unsorted_groups CoreTags order).

Lemma members_absent (bs : list Binding) (g : string) :
  g ∉ map label bs -> members bs g = [].
Proof.
  unfold members. induction bs as [|b bs IH]; simpl; intros Hg; [done|].
  apply not_elem_of_cons in Hg as [Hne Hg].
  rewrite filter_cons, decide_False by congruence. by apply IH.
Qed.

(** The map built by the first loop: one entry per label, in first-seen
    order, holding the bindings of that label in the order of the input. *)
Lemma groupMap_of_spec (bs : list Binding) :
  groupMap_of CoreTags order bs
  = map (fun g => (g, members bs g)) (first_seen (map label bs)).
Proof.
  induction bs as [|b bs IH] using rev_ind; [done|].
  unfold groupMap_of in *. rewrite foldl_snoc, IH. clear IH.
  unfold groupMap_add. rewrite Map_get_fmap, map_app. simpl.
  rewrite first_seen_snoc.
  assert (Hmem : forall g, members (bs ++ [b]) g
            = if decide (g = label b) then members bs g ++ [b]
              else members bs g).
  { intros g. unfold members. rewrite filter_app, filter_cons, filter_nil.
    destruct (decide (g = label b)) as [->|Hne].
    - by rewrite decide_True.
    - rewrite decide_False by congruence. by rewrite app_nil_r. }
  destruct (decide (label b ∈ first_seen (map label bs))) as [Hin|Hin].
  - rewrite decide_True by (by apply elem_of_first_seen).
    rewrite Map_set_fmap_present; [|apply NoDup_first_seen|done].
    apply map_ext. intros g. rewrite Hmem.
    by destruct (decide (g = label b)) as [->|].
  - rewrite decide_False by (by rewrite <- elem_of_first_seen).
    rewrite Map_set_fmap_absent by done.
    rewrite map_app. simpl. f_equal.
    + apply map_ext_in. intros g Hg. apply list_elem_of_In in Hg.
      rewrite Hmem, decide_False; [done | congruence].
    + rewrite Hmem, decide_True by done.
      rewrite members_absent; [done|].
      intros Hl. apply Hin. by apply elem_of_first_seen.
Qed.

Lemma groups_of_spec (bs : list Binding) :
  groups_of (groupMap_of CoreTags order bs) = unsorted_groups bs.
Proof.
  rewrite groupMap_of_spec. unfold groups_of, unsorted_groups.
  rewrite map_map. done.
Qed.

Lemma sortObserverBindingsByGroup_perm (bs : list Binding) :
  sortObserverBindingsByGroup CoreTags order bs ≡ₚ unsorted_groups bs.
Proof.
  unfold sortObserverBindingsByGroup. rewrite groups_of_spec.
  apply Array_sort_perm.
Qed.

Lemma elem_of_sorted_groups (bs : list Binding) (g : LifeCycleObserverGroup) :
  g ∈ sortObserverBindingsByGroup CoreTags order bs
  <-> group g ∈ map label bs /\ bindings g = members bs (group g).
Proof.
  rewrite sortObserverBindingsByGroup_perm. unfold unsorted_groups.
  rewrite list_elem_of_fmap. split.
  - intros (l & -> & Hl). simpl. split; [|done].
    by rewrite elem_of_first_seen in Hl.
  - intros [Hl Hb]. exists (group g). split.
    + destruct g as [l m]. simpl in *. by rewrite Hb.
    + by apply elem_of_first_seen.
Qed.

Lemma NoDup_sorted_labels (bs : list Binding) :
  NoDup (map group (sortObserverBindingsByGroup CoreTags order bs)).
Proof.
  rewrite sortObserverBindingsByGroup_perm. unfold unsorted_groups.
  rewrite map_map. simpl. rewrite map_id. apply NoDup_first_seen.
Qed.

End Grouping.
(** ** Order of the groups *)

(** 'sorts servers as last group by default' *)
Example sorts_servers_last :
  Fixtures.keys_of (sortObserverBindingsByGroup Fixtures.CoreTags ["server"]
    [Fixtures.givenServerBinding "server-1" (Some "server");
     Fixtures.givenServerBinding "server-2" None;
     Fixtures.givenObserverBinding "my-observer-1" (Some "g1");
     Fixtures.givenObserverBinding "my-observer-2" (Some "g2");
     Fixtures.givenObserverBinding "my-observer-3" None])
  = [("g1", ["my-observer-1"]); ("g2", ["my-observer-2"]);
     ("", ["my-observer-3"]); ("server", ["server-1"; "server-2"])].
Proof. vm_compute. reflexivity. Qed.

Lemma filter_unsorted_groups (CoreTags : Tags) (order : list string)
  (P : string -> Prop) `{!forall l, Decision (P l)} (bs : list Binding) :
  map group (filter (fun g => P (group g)) (unsorted_groups CoreTags order bs))
  = filter P (first_seen (map (getObserverGroup CoreTags order) bs)).
Proof.
  unfold unsorted_groups.
  induction (first_seen (map (getObserverGroup CoreTags order) bs))
    as [|l ls IH]; [done|].
  simpl. rewrite !filter_cons. simpl.
  destruct (decide (P l)); simpl; by rewrite IH.
Qed.

(** C1, as amended: the groups whose label is absent from the configured
    order stand before all the groups whose label is present in it, and
    among themselves the absent groups keep the order in which their labels
    are first seen in the list of entries. *)
Theorem absent_groups_sort_first (CoreTags : Tags) (order : list string)
  (bs : list Binding) :
  let gs := sortObserverBindingsByGroup CoreTags order bs in
  absent_before_present order gs
  /\ map group (filter (fun g => group g ∉ order) gs)
     = filter (fun l => l ∉ order)
         (first_seen (map (getObserverGroup CoreTags order) bs)).
Proof.
  intros gs.
  set (keyOf := fun g : LifeCycleObserverGroup => indexOf order (group g)).
  assert (Hcmp : forall x y, compareGroups order x y = keyOf x - keyOf y)
    by done.
  split.
  - intros i j gi gj Hi Hj Hgi Hgj.
    eapply (sorted_lookup_lt keyOf); [|exact Hi|exact Hj|].
    + unfold gs, sortObserverBindingsByGroup.
      by apply (Array_sort_sorted keyOf).
    + apply indexOf_absent in Hgi. apply indexOf_present in Hgj.
      unfold keyOf. lia.
  - rewrite <- filter_unsorted_groups.
    f_equal. unfold gs, sortObserverBindingsByGroup.
    rewrite groups_of_spec.
    rewrite (list_filter_iff (fun g => group g ∉ order)
               (fun g => keyOf g = -1)) by (intros g; symmetry; apply indexOf_absent).
    rewrite (Array_sort_stable keyOf) by done.
    apply list_filter_iff. intros g. apply indexOf_absent.
Qed.

(** C1, as the claim states it, fails: with the default order ['server'] an
    observer of group 'g1' is placed before the server. *)
Lemma absent_after_present_fails :
  ~ absent_after_present ["server"]
      (sortObserverBindingsByGroup Fixtures.CoreTags ["server"]
         [Fixtures.givenServerBinding "server-1" None;
          Fixtures.givenObserverBinding "my-observer-1" (Some "g1")]).
Proof.
  intros H.
  specialize (H 0%nat 1%nat
    (mkGroup "g1" [Fixtures.givenObserverBinding "my-observer-1" (Some "g1")])
    (mkGroup "server" [Fixtures.givenServerBinding "server-1" None])).
  assert (Hlt : (1 < 0)%nat); [|lia].
  apply H.
  - vm_compute. reflexivity.
  - vm_compute. reflexivity.
  - simpl. rewrite list_elem_of_singleton. discriminate.
  - simpl. apply list_elem_of_here.
Qed.

(** ** The groups partition the entries *)

Lemma concat_perm {A : Type} (l1 l2 : list (list A)) :
  l1 ≡ₚ l2 -> concat l1 ≡ₚ concat l2.
Proof.
  induction 1 as [|x l1 l2 _ IH|x y l|l1 l2 l3 _ IH1 _ IH2]; simpl.
  - done.
  - by rewrite IH.
  - rewrite !app_assoc. by rewrite (Permutation_app_comm y x).
  - by rewrite IH1.
Qed.

Lemma concat_insert_one {A : Type} (F : string -> list A) (x : A)
  (k0 : string) (ks : list string) :
  NoDup ks -> k0 ∈ ks ->
  concat (map (fun k => if decide (k0 = k) then x :: F k else F k) ks)
  ≡ₚ x :: concat (map F ks).
Proof.
  induction ks as [|a ks IH]; simpl; intros Hnd Hin.
  - by apply elem_of_nil in Hin.
  - apply NoDup_cons in Hnd as [Ha Hnd].
    destruct (decide (k0 = a)) as [->|Hne].
    + simpl. apply Permutation_refl'. do 3 f_equal.
      apply map_ext_in. intros k Hk. apply list_elem_of_In in Hk.
      rewrite decide_False; [done | congruence].
    + apply elem_of_cons in Hin as [?|Hin]; [done|].
      rewrite IH by done. by rewrite Permutation_middle.
Qed.

Lemma concat_members (CoreTags : Tags) (order : list string)
  (bs : list Binding) (ks : list string) :
  NoDup ks ->
  (forall b, b ∈ bs -> getObserverGroup CoreTags order b ∈ ks) ->
  concat (map (members CoreTags order bs) ks) ≡ₚ bs.
Proof.
  intros Hnd. induction bs as [|b bs IH]; intros Hks.
  - clear. induction ks as [|k ks IHk]; simpl; [done|].
    done.
  - transitivity (b :: concat (map (members CoreTags order bs) ks)).
    + pose proof (concat_insert_one (members CoreTags order bs) b _ ks Hnd
                    (Hks b (list_elem_of_here _ _))) as HP.
      rewrite <- HP. apply Permutation_refl'. reflexivity.
    + constructor. apply IH. intros b' Hb'.
      by apply Hks, list_elem_of_further.
Qed.

(** Together the groups hold the entries of the input. *)
Lemma concat_sorted_groups (CoreTags : Tags) (order : list string)
  (bs : list Binding) :
  concat (map bindings (sortObserverBindingsByGroup CoreTags order bs)) ≡ₚ bs.
Proof.
  rewrite (concat_perm _ (map bindings (unsorted_groups CoreTags order bs))).
  - unfold unsorted_groups. rewrite map_map. simpl.
    apply concat_members; [apply NoDup_first_seen|].
    intros b Hb. apply elem_of_first_seen.
    by apply (list_elem_of_fmap_2 (getObserverGroup CoreTags order)).
  - apply Permutation_map, sortObserverBindingsByGroup_perm.
Qed.

(** C8: every entry of the input is a member of exactly one computed
    group; the members of a group are the entries of its label in the order
    of the input; together the groups hold the entries of the input, each
    as often as the input does.  For the order [g1, g2] and entries tagged
    g1, g2, g1 the groups are g1 (first and third entry) and g2. *)
Theorem groups_partition_entries (CoreTags : Tags) (order : list string)
  (bs : list Binding) :
  let gs := sortObserverBindingsByGroup CoreTags order bs in
  (forall b, b ∈ bs ->
     exists g, g ∈ gs /\ b ∈ bindings g
               /\ forall g', g' ∈ gs -> b ∈ bindings g' -> g' = g)
  /\ (forall g, g ∈ gs ->
        bindings g
        = filter (fun b => getObserverGroup CoreTags order b = group g) bs)
  /\ concat (map bindings gs) ≡ₚ bs
  /\ Fixtures.keys_of
       (sortObserverBindingsByGroup Fixtures.CoreTags ["g1"; "g2"]
          [Fixtures.givenObserverBinding "my-observer-1" (Some "g1");
           Fixtures.givenObserverBinding "my-observer-2" (Some "g2");
           Fixtures.givenObserverBinding "my-observer-3" (Some "g1")])
     = [("g1", ["my-observer-1"; "my-observer-3"]); ("g2", ["my-observer-2"])].
Proof.
  intros gs. split; [|split; [|split]].
  - intros b Hb.
    set (l := getObserverGroup CoreTags order b).
    exists (mkGroup l (members CoreTags order bs l)). split; [|split].
    + apply elem_of_sorted_groups. simpl. split; [|done].
      by apply (list_elem_of_fmap_2 (getObserverGroup CoreTags order)).
    + simpl. unfold members. by apply list_elem_of_filter.
    + intros [l' m'] Hg' Hb'. apply elem_of_sorted_groups in Hg' as [_ Hm].
      simpl in *. subst m'. unfold members in Hb'.
      apply list_elem_of_filter in Hb' as [Hl _]. by subst l'.
  - intros g Hg. by apply elem_of_sorted_groups in Hg as [_ Hm].
  - apply concat_sorted_groups.
  - vm_compute. reflexivity.
Qed.

(** ** The notifier: one binding *)

Section NotifierFacts.

Context {W : Type} (this : LifeCycleObserverRegistry W) (ev : LifeCycleEvent).

Local Abbreviation resumes := (resumes this ev).
Local Abbreviation task_inv := (task_inv this ev).

Lemma actions_of_app (run : State W -> Outcome * State W) (st : State W)
  (l : list Action) :
  log (run st).2 = log st ++ l -> actions_of run st = l.
Proof. unfold actions_of. intros ->. by rewrite drop_app_length. Qed.

Lemma invokeObserver_spec (o : LifeCycleObserver W) (st : State W) :
  let r := invokeObserver o ev st in
  oracle r.2 = oracle st
  /\ match o ev with
     | None => r = (None, st)
     | Some hook =>
         log r.2 = log st ++ [Call ev]
         /\ world r.2 = (hook (world st)).1 /\ r.1 = (hook (world st)).2
     end.
Proof.
  unfold invokeObserver. destruct (o ev) as [hook|]; [|done].
  by destruct (hook (world st)).
Qed.

Lemma notifyObserver_resume_spec (t : Task) (st : State W) :
  let r := notifyObserver_resume this ev t st in
  task_binding r.1 = task_binding t
  /\ oracle r.2 = oracle st
  /\ exists l, log r.2 = log st ++ l
       /\ resumes (key (task_binding t)) (task_state t) l (task_state r.1).
Proof.
  destruct t as [b s]. unfold notifyObserver_resume. simpl.
  destruct s as [|[e|]| |e]; simpl.
  - destruct (get (ctx this) (key b)) as [e|o] eqn:Hget; simpl.
    + repeat split. eexists. split; [done|]. by constructor.
    + pose proof (invokeObserver_spec o
        (add_log (NotifyingBinding (key b) ev) st)) as [Hor Hinv].
      destruct (invokeObserver o ev _) as [r st'] eqn:Hio. simpl in *.
      repeat split; [done|].
      destruct (o ev) as [hook|] eqn:Hhook.
      * destruct Hinv as (Hlog & _ & Hr). exists [NotifyingBinding (key b) ev; Call ev].
        split; [by rewrite Hlog, <- app_assoc|].
        constructor. exists o. split; [done|]. rewrite Hhook. by eexists.
      * injection Hinv as -> ->. exists [NotifyingBinding (key b) ev].
        split; [done|]. constructor. exists o. by rewrite Hhook.
  - repeat split. eexists. split; [done|]. constructor.
  - repeat split. eexists. split; [done|]. constructor.
  - repeat split. exists []. split; [by rewrite app_nil_r|]. constructor.
  - repeat split. exists []. split; [by rewrite app_nil_r|]. constructor.
Qed.

Lemma task_inv_mono (l l' : list Action) (t : Task) :
  task_inv l t -> task_inv (l ++ l') t.
Proof.
  unfold task_inv. destruct (task_state t); try done.
  intros [? ?]. split; [done|]. apply elem_of_app. by left.
Qed.

Lemma member_action_mono (keys keys' : list string) (a : Action) :
  (forall k, k ∈ keys -> k ∈ keys') ->
  member_action keys ev a -> member_action keys' ev a.
Proof. intros Hsub. destruct a; simpl; try done; intros [? ?]; auto. Qed.

(** A resumption that does not reject keeps the invariant and logs quiet
    actions; one that rejects logs the exception. *)
Lemma resumes_inv (keys : list string) (l0 l : list Action) (b : Binding)
  (s s' : TaskState) :
  key b ∈ keys ->
  task_inv l0 (mkTask b s) ->
  resumes (key b) s l s' ->
  match s' with
  | TaskRejected e => l = [Raised (key b) ev e]
  | _ => Forall (member_action keys ev) l /\ task_inv (l0 ++ l) (mkTask b s')
  end.
Proof.
  intros Hk Hinv Hres. destruct Hres; unfold task_inv in *; simpl in *;
    try done.
  - split; [by repeat constructor | done].
  - split; [by repeat constructor | done].
  - split; [by repeat constructor|]. split; [done|].
    apply elem_of_app. right. apply list_elem_of_here.
  - split; [constructor|]. destruct Hinv. split; [done|].
    by rewrite app_nil_r.
Qed.

End NotifierFacts.

(** ** The notifier: one group *)

Section GroupFacts.

Context {W : Type} (this : LifeCycleObserverRegistry W) (ev : LifeCycleEvent).

Local Abbreviation join_spec := (join_spec this ev).

Lemma resumes_no_get (k : string) (s s' : TaskState) (l : list Action) :
  resumes this ev k s l s' -> gets_of l = [].
Proof. by destruct 1. Qed.

Lemma resumes_twice_settled (k : string) (s s1 s2 : TaskState)
  (l1 l2 : list Action) :
  resumes this ev k s l1 s1 -> resumes this ev k s1 l2 s2 ->
  s2 = TaskFulfilled \/ exists e, s2 = TaskRejected e.
Proof. intros H1 H2. destruct H1; inversion H2; eauto. Qed.

Lemma gets_of_app (l1 l2 : list Action) :
  gets_of (l1 ++ l2) = gets_of l1 ++ gets_of l2.
Proof. apply omap_app. Qed.

Lemma gets_of_get_actions (bs : list Binding) :
  gets_of (get_actions ev bs) = map (fun b => (key b, ev)) bs.
Proof. induction bs as [|b bs IH]; simpl; [done|]. by f_equal. Qed.

Lemma members_log_prepend (keys : list string) (out : Outcome)
  (l1 l2 : list Action) :
  Forall (member_action keys ev) l1 ->
  members_log keys ev out l2 -> members_log keys ev out (l1 ++ l2).
Proof.
  intros H1. destruct out as [|e]; simpl.
  - intros H2. by apply Forall_app.
  - intros (l0 & k & -> & Hk & H0). exists (l1 ++ l0), k.
    split; [by rewrite app_assoc|]. split; [done|]. by apply Forall_app.
Qed.

Lemma members_log_mono (keys keys' : list string) (out : Outcome)
  (l : list Action) :
  (forall k, k ∈ keys -> k ∈ keys') ->
  members_log keys ev out l -> members_log keys' ev out l.
Proof.
  intros Hsub. destruct out as [|e]; simpl.
  - intros H. eapply Forall_impl; [exact H|].
    intros a. by apply member_action_mono.
  - intros (l0 & k & -> & Hk & H0). exists l0, k.
    split; [done|]. split; [by apply Hsub|].
    eapply Forall_impl; [exact H0|]. intros a. by apply member_action_mono.
Qed.

Lemma join_spec_step (keys : list string) (l0 l1 : list Action)
  (ts ts' : list Task) (st st1 : State W) (r : Outcome * State W) :
  oracle st1 = oracle st ->
  log st1 = log st ++ l1 ->
  Forall (member_action keys ev) l1 ->
  gets_of l1 = [] ->
  (forall l, members_processed this ev (task_binding <$> ts') ((l0 ++ l1) ++ l)
             -> members_processed this ev (task_binding <$> ts) ((l0 ++ l1) ++ l)) ->
  join_spec keys (l0 ++ l1) ts' st1 r -> join_spec keys l0 ts st r.
Proof.
  intros Hor Hlog Hl1 Hg1 Hproc (Hor' & l & Hlog' & Hml & Hg & Hful).
  split; [congruence|]. exists (l1 ++ l).
  split; [by rewrite Hlog', Hlog, app_assoc|].
  split; [by apply members_log_prepend|].
  split; [by rewrite gets_of_app, Hg1, Hg|].
  intros Hout. rewrite app_assoc. apply Hproc. by apply Hful.
Qed.

Lemma join_spec_rejected (keys : list string) (l0 : list Action)
  (ts : list Task) (st st1 : State W) (k : string) (e : Error) :
  oracle st1 = oracle st ->
  log st1 = log st ++ [Raised k ev e] ->
  k ∈ keys ->
  join_spec keys l0 ts st (Rejected e, st1).
Proof.
  intros Hor Hlog Hk. split; [done|]. exists [Raised k ev e].
  split; [done|]. split; [|done].
  exists [], k. split; [done|]. split; [done|]. constructor.
Qed.

Lemma Promise_all_rest_spec (keys : list string) (ts : list Task) :
  forall (st : State W) (l0 : list Action),
    Forall (fun t => key (task_binding t) ∈ keys) ts ->
    Forall (task_inv this ev l0) ts ->
    join_spec keys l0 ts st (Promise_all_rest this ev ts st).
Proof.
  induction ts as [|t ts IH]; intros st l0 Hkeys Hinv; simpl.
  - split; [done|]. exists []. rewrite app_nil_r.
    split; [done|]. split; [constructor|]. split; [done|].
    intros _ b Hb. by apply elem_of_nil in Hb.
  - apply Forall_cons in Hkeys as [Hk Hkeys].
    apply Forall_cons in Hinv as [Ht Hinv].
    pose proof (notifyObserver_resume_spec this ev t st) as H1.
    destruct (notifyObserver_resume this ev t st) as [[b1 s1] st1].
    destruct t as [b s]. simpl in *.
    destruct H1 as (-> & Hor1 & l1 & Hlog1 & Hres1).
    pose proof (resumes_inv this ev keys l0 l1 b s s1 Hk Ht Hres1) as Hs1.
    pose proof (notifyObserver_resume_spec this ev (mkTask b s1) st1) as H2.
    destruct (notifyObserver_resume this ev (mkTask b s1) st1)
      as [[b2 s2] st2].
    simpl in *. destruct H2 as (-> & Hor2 & l2 & Hlog2 & Hres2).
    assert (Hstep1 : forall r,
      (exists e, s1 = TaskRejected e) \/
      join_spec keys (l0 ++ l1) (mkTask b s1 :: ts) st1 r ->
      (forall e, s1 <> TaskRejected e) ->
      join_spec keys l0 (mkTask b s :: ts) st r).
    { intros r [[e ->]|Hj] Hne; [by destruct (Hne e)|].
      destruct s1; try (by destruct (Hne e));
        (eapply join_spec_step; [exact Hor1|exact Hlog1|apply Hs1|
          by eapply resumes_no_get|done|exact Hj]). }
    destruct s1 as [|r1| |e1];
      try (rewrite Hs1 in Hlog1; by eapply join_spec_rejected).
    all: apply Hstep1; [right|done]; destruct Hs1 as [Hl1 Hinv1].
    all: pose proof (resumes_inv this ev keys _ l2 b _ s2 Hk Hinv1 Hres2)
           as Hs2.
    all: destruct (resumes_twice_settled _ _ _ _ _ _ Hres1 Hres2)
           as [->|[e ->]];
      [|rewrite Hs2 in Hlog2; by eapply join_spec_rejected].
    all: destruct Hs2 as [Hl2 Hinv2].
    all: eapply join_spec_step;
      [exact Hor2|exact Hlog2|exact Hl2|by eapply resumes_no_get| |
       apply IH; [done|];
       eapply Forall_impl; [exact Hinv|]; intros t' Ht';
       by do 2 apply task_inv_mono].
    all: intros l Hproc b' Hb'; simpl in Hb';
      apply elem_of_cons in Hb' as [->|Hb'];
      [|by apply Hproc].
    all: destruct Hinv2 as [Hh Hin]; split; [done|];
      apply elem_of_app; by left.
Qed.

Lemma Promise_all_spec (keys : list string) (sched : list nat) :
  forall (ts : list Task) (st : State W) (l0 : list Action),
    Forall (fun t => key (task_binding t) ∈ keys) ts ->
    Forall (task_inv this ev l0) ts ->
    join_spec keys l0 ts st (Promise_all this ev sched ts st).
Proof.
  induction sched as [|n sched IH]; intros ts st l0 Hkeys Hinv; simpl.
  - by apply Promise_all_rest_spec.
  - destruct (ts !! n) as [t|] eqn:Hn; [|by apply IH].
    pose proof (notifyObserver_resume_spec this ev t st) as H1.
    destruct (notifyObserver_resume this ev t st) as [[b1 s1] st1].
    destruct t as [b s]. simpl in *.
    destruct H1 as (-> & Hor1 & l1 & Hlog1 & Hres1).
    assert (Hk : key b ∈ keys).
    { rewrite Forall_forall in Hkeys.
      apply (Hkeys (mkTask b s)). by eapply list_elem_of_lookup_2. }
    assert (Ht : task_inv this ev l0 (mkTask b s)).
    { rewrite Forall_forall in Hinv.
      apply Hinv. by eapply list_elem_of_lookup_2. }
    pose proof (resumes_inv this ev keys l0 l1 b s s1 Hk Ht Hres1) as Hs1.
    assert (Hb : task_binding <$> <[n := mkTask b s1]> ts
                 = task_binding <$> ts).
    { rewrite list_fmap_insert. simpl. apply list_insert_id.
      by rewrite list_lookup_fmap, Hn. }
    destruct s1 as [|r1| |e1];
      try (rewrite Hs1 in Hlog1; by eapply join_spec_rejected).
    all: destruct Hs1 as [Hl1 Hinv1].
    all: eapply join_spec_step;
      [exact Hor1|exact Hlog1|exact Hl1|by eapply resumes_no_get| |
       apply IH].
    all: try (intros l; by rewrite Hb).
    all: try (apply Forall_insert; done).
    all: apply Forall_insert; [|done];
      eapply Forall_impl; [exact Hinv|]; intros t' Ht';
      by apply task_inv_mono.
Qed.

End GroupFacts.

Section GroupTrace.

Context {W : Type} (this : LifeCycleObserverRegistry W) (ev : LifeCycleEvent).

(** Serial mode: the notification of one binding, awaited to its end. *)
Lemma notifyObserver_spec (b : Binding) (st : State W) :
  let r := notifyObserver this ev b st in
  oracle r.2 = oracle st
  /\ exists l, log r.2 = log st ++ Get (key b) ev :: l
       /\ gets_of l = []
       /\ members_log [key b] ev r.1 l
       /\ (r.1 = Fulfilled ->
           hook_result this ev (key b) None
           /\ BindingProcessed (key b) ev ∈ l).
Proof.
  assert (Hkb : key b ∈ [key b]) by apply list_elem_of_here.
  unfold notifyObserver.
  destruct (get (ctx this) (key b)) as [e|o] eqn:Hget; simpl.
  - split; [done|]. exists [Raised (key b) ev e].
    split; [by rewrite <- app_assoc|]. split; [done|].
    split; [|done]. exists [], (key b). split; [done|]. split; [done|constructor].
  - pose proof (invokeObserver_spec ev o
      (add_log (NotifyingBinding (key b) ev) (add_log (Get (key b) ev) st)))
      as [Hor Hinv].
    destruct (invokeObserver o ev _) as [r st'] eqn:Hio. simpl in *.
    assert (Hres : hook_result this ev (key b) r
                   /\ exists c, log st' = (log st ++ [Get (key b) ev])
                                   ++ NotifyingBinding (key b) ev :: c
                                /\ Forall (member_action [key b] ev) c
                                /\ gets_of c = []).
    { destruct (o ev) as [hook|] eqn:Hhook.
      - destruct Hinv as (Hlog & _ & Hr). split.
        + exists o. split; [done|]. rewrite Hhook. by eexists.
        + exists [Call ev]. split; [by rewrite Hlog, <- app_assoc|].
          split; [by repeat constructor | done].
      - injection Hinv as -> ->. split.
        + exists o. by rewrite Hhook.
        + exists []. split; [done|]. split; [constructor | done]. }
    destruct Hres as (Hh & c & Hlog & Hc & Hgc).
    destruct r as [e|]; simpl.
    + split; [done|].
      exists (NotifyingBinding (key b) ev :: c ++ [Raised (key b) ev e]).
      split; [rewrite Hlog; by rewrite <- !app_assoc|].
      split; [simpl; by rewrite gets_of_app, Hgc|].
      split; [|done].
      exists (NotifyingBinding (key b) ev :: c), (key b).
      split; [done|]. split; [done|]. by constructor.
    + split; [done|].
      exists (NotifyingBinding (key b) ev :: c ++ [BindingProcessed (key b) ev]).
      split; [rewrite Hlog; by rewrite <- !app_assoc|].
      split; [simpl; by rewrite gets_of_app, Hgc|].
      split.
      * constructor; [done|]. apply Forall_app. split; [done|].
        by repeat constructor.
      * intros _. split; [done|]. apply list_elem_of_further, elem_of_app.
        right. apply list_elem_of_here.
Qed.

Lemma loop_parallel (bs : list Binding) :
  is_parallel (options this) = true ->
  forall (notifiers : list Task) (st : State W),
    notifyObserverGroup_loop this ev bs notifiers st
    = (Fulfilled, notifiers ++ map (fun b => mkTask b AwaitGet) bs,
       mkState (world st) (log st ++ get_actions ev bs) (oracle st)).
Proof.
  intros Hpar. induction bs as [|b bs IH]; intros notifiers st; simpl.
  - rewrite !app_nil_r. by destruct st.
  - rewrite Hpar, IH. simpl. by rewrite <- !app_assoc.
Qed.

Lemma keys_cons_mono (b : Binding) (bs : list Binding) (k : string) :
  k ∈ map key bs -> k ∈ map key (b :: bs).
Proof. simpl. apply list_elem_of_further. Qed.

Lemma keys_head_mono (b : Binding) (bs : list Binding) (k : string) :
  k ∈ [key b] -> k ∈ map key (b :: bs).
Proof.
  rewrite list_elem_of_singleton. intros ->. simpl. apply list_elem_of_here.
Qed.

Lemma loop_serial (bs : list Binding) :
  is_parallel (options this) = false ->
  forall (notifiers : list Task) (st : State W),
    let r := notifyObserverGroup_loop this ev bs notifiers st in
    r.1.2 = notifiers
    /\ exists l, log r.2 = log st ++ l /\ members_trace this ev bs r.1.1 l.
Proof.
  intros Hpar. induction bs as [|b bs IH]; intros notifiers st; simpl.
  - split; [done|]. exists []. split; [by rewrite app_nil_r|].
    split; simpl; try done.
    + by exists 0%nat.
    + intros _ b Hb. by apply elem_of_nil in Hb.
    + by rewrite Hpar.
  - rewrite Hpar.
    pose proof (notifyObserver_spec b st) as (_ & l1 & Hlog1 & Hg1 & Hml1 & Hp1).
    destruct (notifyObserver this ev b st) as [[|e] st1]; simpl in *.
    + specialize (IH notifiers st1) as (Hn & l2 & Hlog2 & Hmt).
      split; [done|]. exists (Get (key b) ev :: l1 ++ l2).
      split; [rewrite Hlog2, Hlog1; by rewrite <- app_assoc|].
      destruct Hmt as [Hml [n Hgets] Hall Hproc _].
      split.
      * apply (members_log_prepend ev _ _ (Get (key b) ev :: l1)).
        -- constructor; [split; [done|apply list_elem_of_here]|].
           eapply Forall_impl; [exact Hml1|]. intros a.
           apply member_action_mono, keys_head_mono.
        -- eapply members_log_mono; [apply keys_cons_mono|exact Hml].
      * exists (S n). simpl. by rewrite gets_of_app, Hg1, Hgets.
      * intros Hout. simpl. by rewrite gets_of_app, Hg1, Hall.
      * intros Hout b' Hb'. apply elem_of_cons in Hb' as [->|Hb'].
        -- destruct (Hp1 eq_refl) as [Hh Hin]. split; [done|].
           apply list_elem_of_further, elem_of_app. by left.
        -- destruct (Hproc Hout b' Hb') as [Hh Hin]. split; [done|].
           apply list_elem_of_further, elem_of_app. by right.
      * by rewrite Hpar.
    + split; [done|]. exists (Get (key b) ev :: l1). split; [done|].
      destruct Hml1 as (l0 & k & -> & Hk & Hl0).
      split; try done.
      * exists (Get (key b) ev :: l0), k. split; [done|].
        split; [by apply keys_head_mono|].
        constructor; [split; [done|apply list_elem_of_here]|].
        eapply Forall_impl; [exact Hl0|]. intros a.
        apply member_action_mono, keys_head_mono.
      * exists 1%nat. simpl. by rewrite Hg1.
      * by rewrite Hpar.
Qed.

Lemma notifyObserverGroup_spec (g : LifeCycleObserverGroup) (st : State W) :
  let r := notifyObserverGroup this g ev st in
  exists t, log r.2 = log st ++ t /\ group_trace this ev g r.1 t.
Proof.
  unfold notifyObserverGroup.
  destruct (is_parallel (options this)) eqn:Hpar.
  - rewrite loop_parallel by done. simpl.
    set (st1 := mkState _ _ _).
    set (ts := map _ _).
    assert (Hns : exists sched st2,
      next_schedule st1 = (sched, st2)
      /\ log st2 = log st1 /\ world st2 = world st1).
    { unfold next_schedule. destruct (oracle st1); by eexists _, _. }
    destruct Hns as (sched & st2 & -> & Hlog2 & _).
    pose proof (Promise_all_spec this ev (map key (bindings g)) sched ts st2
                  (get_actions ev (bindings g))) as Hj.
    assert (Hts : task_binding <$> ts = bindings g).
    { unfold ts. clear. induction (bindings g) as [|b bs IH]; simpl; [done|].
      by f_equal. }
    destruct Hj as (_ & l & Hlog & Hml & Hg & Hful).
    { unfold ts. clear. induction (bindings g) as [|b bs IH]; simpl;
        constructor.
      - simpl. apply list_elem_of_here.
      - eapply Forall_impl; [exact IH|]. intros t. simpl.
        apply list_elem_of_further. }
    { apply Forall_forall. intros t Ht. unfold ts in Ht.
      apply list_elem_of_fmap in Ht as (b & -> & _). done. }
    rewrite Hts in Hful.
    assert (Hmt : members_trace this ev (bindings g)
                    (Promise_all this ev sched ts st2).1
                    (get_actions ev (bindings g) ++ l)).
    { split.
      - apply members_log_prepend; [|done].
        clear. induction (bindings g) as [|b bs IH]; simpl; constructor.
        + split; [done|apply list_elem_of_here].
        + eapply Forall_impl; [exact IH|]. intros a.
          apply member_action_mono. intros k. apply list_elem_of_further.
      - exists (length (bindings g)).
        rewrite gets_of_app, Hg, app_nil_r, gets_of_get_actions.
        by rewrite firstn_all.
      - intros _. by rewrite gets_of_app, Hg, app_nil_r, gets_of_get_actions.
      - done.
      - intros _. by exists l. }
    destruct (Promise_all this ev sched ts st2) as [[|e] st3]; simpl in *.
    + eexists. split; [|exists (get_actions ev (bindings g) ++ l); split; [done|reflexivity]].
      rewrite Hlog, Hlog2. unfold st1. simpl. by rewrite <- !app_assoc.
    + eexists. split; [|exists (get_actions ev (bindings g) ++ l); split; [done|reflexivity]].
      rewrite Hlog, Hlog2. unfold st1. simpl.
      by rewrite app_nil_r, <- !app_assoc.
  - pose proof (loop_serial (bindings g) Hpar []
                  (add_log (NotifyingGroup (group g) ev) st))
      as (_ & l & Hlog & Hmt).
    destruct (notifyObserverGroup_loop this ev (bindings g) [] _)
      as [[[|e] ts] st1]; simpl in *.
    + eexists. split; [|exists l; split; [done|reflexivity]].
      rewrite Hlog. by rewrite <- !app_assoc.
    + eexists. split; [|exists l; split; [done|reflexivity]].
      rewrite Hlog. by rewrite app_nil_r, <- !app_assoc.
Qed.

Lemma notifyGroups_event_spec (groups : list LifeCycleObserverGroup) :
  forall st : State W,
    let r := notifyGroups_event this ev groups st in
    exists t, log r.2 = log st ++ t /\ event_trace this ev groups r.1 t.
Proof.
  induction groups as [|g groups IH]; intros st; simpl.
  - exists []. by rewrite app_nil_r.
  - pose proof (notifyObserverGroup_spec g st) as (t1 & Hlog1 & Hgt).
    destruct (notifyObserverGroup this g ev st) as [[|e] st1]; simpl in *.
    + destruct (IH st1) as (t2 & Hlog2 & Het).
      exists (t1 ++ t2). split; [by rewrite Hlog2, Hlog1, app_assoc|].
      exists Fulfilled, t1. split; [done|]. by exists t2.
    + exists t1. split; [done|]. by exists (Rejected e), t1.
Qed.

End GroupTrace.

Lemma notifyGroups_spec {W : Type} (this : LifeCycleObserverRegistry W)
  (events : list LifeCycleEvent) (groups : list LifeCycleObserverGroup) :
  forall st : State W,
    let r := notifyGroups this events groups st in
    exists t, log r.2 = log st ++ t /\ pass_trace this events groups r.1 t.
Proof.
  induction events as [|ev events IH]; intros st; simpl.
  - exists []. by rewrite app_nil_r.
  - pose proof (notifyGroups_event_spec this ev groups
                  (add_log (Beginning ev) st)) as (t1 & Hlog1 & Het).
    destruct (notifyGroups_event this ev groups _) as [[|e] st1]; simpl in *.
    + destruct (IH (add_log (Finished ev) st1)) as (t2 & Hlog2 & Hpt).
      exists (Beginning ev :: t1 ++ Finished ev :: t2).
      split.
      * rewrite Hlog2. simpl. rewrite Hlog1. by rewrite <- !app_assoc.
      * exists Fulfilled, t1. split; [done|]. by exists t2.
    + exists (Beginning ev :: t1). split; [by rewrite Hlog1, <- app_assoc|].
      by exists (Rejected e), t1.
Qed.

Lemma notifyGroups_trace {W : Type} (this : LifeCycleObserverRegistry W)
  (events : list LifeCycleEvent) (groups : list LifeCycleObserverGroup)
  (st : State W) :
  pass_trace this events groups (notifyGroups this events groups st).1
    (actions_of (notifyGroups this events groups) st).
Proof.
  destruct (notifyGroups_spec this events groups st) as (t & Hlog & Hpt).
  by rewrite (actions_of_app _ _ _ Hlog).
Qed.

(** ** What the traces tell *)

Section TraceFacts.

Context {W : Type} (this : LifeCycleObserverRegistry W).

Lemma raise_shape_app (out : Outcome) (t1 t2 : list Action) :
  Forall (fun a => ~ is_Raised a) t1 ->
  raise_shape out t2 -> raise_shape out (t1 ++ t2).
Proof.
  intros H1. destruct out as [|e]; simpl.
  - intros H2. by apply Forall_app.
  - intros (t0 & k & ev & -> & H0). exists (t1 ++ t0), k, ev.
    split; [by rewrite app_assoc|]. by apply Forall_app.
Qed.

Lemma member_action_quiet (keys : list string) (ev : LifeCycleEvent)
  (a : Action) : member_action keys ev a -> ~ is_Raised a.
Proof. destruct a; simpl; tauto. Qed.

Lemma member_action_about (ev : LifeCycleEvent) (g : LifeCycleObserverGroup)
  (a : Action) :
  member_action (map key (bindings g)) ev a -> about [ev] [g] a.
Proof.
  assert (Hg : g ∈ [g]) by apply list_elem_of_here.
  assert (He : ev ∈ [ev]) by apply list_elem_of_here.
  destruct a; simpl; try done.
  all: try (intros [-> Hk]; split; simpl; [done|];
            intros k' [= <-]; by exists g).
  intros ->. split; [done|]. done.
Qed.

Lemma about_mono (events events' : list LifeCycleEvent)
  (groups groups' : list LifeCycleObserverGroup) (a : Action) :
  (forall ev, ev ∈ events -> ev ∈ events') ->
  (forall g, g ∈ groups -> g ∈ groups') ->
  about events groups a -> about events' groups' a.
Proof.
  intros He Hg [Hev Hk]. split; [by apply He|].
  intros k Hak. destruct (Hk k Hak) as (g & Hin & Hkg).
  exists g. split; [by apply Hg | done].
Qed.

Lemma group_trace_about (ev : LifeCycleEvent) (g : LifeCycleObserverGroup)
  (out : Outcome) (t : list Action) :
  group_trace this ev g out t -> Forall (about [ev] [g]) t.
Proof.
  assert (He : ev ∈ [ev]) by apply list_elem_of_here.
  intros (l & [Hml _ _ _ _] & ->).
  constructor; [by split|]. apply Forall_app. split.
  - destruct out as [|e]; simpl in Hml.
    + eapply Forall_impl; [exact Hml|]. apply member_action_about.
    + destruct Hml as (l0 & k & -> & Hk & Hl0). apply Forall_app. split.
      * eapply Forall_impl; [exact Hl0|]. apply member_action_about.
      * constructor; [|constructor]. split; [done|].
        intros k' [= <-]. exists g. split; [apply list_elem_of_here | done].
  - destruct out; repeat constructor; done.
Qed.

Lemma group_trace_raise (ev : LifeCycleEvent) (g : LifeCycleObserverGroup)
  (out : Outcome) (t : list Action) :
  group_trace this ev g out t -> raise_shape out t.
Proof.
  intros (l & [Hml _ _ _ _] & ->).
  apply (raise_shape_app out [NotifyingGroup (group g) ev]);
    [constructor; [simpl; tauto | constructor]|].
  destruct out as [|e]; simpl in *.
  - apply Forall_app. split; [|constructor; [simpl; tauto | constructor]].
    eapply Forall_impl; [exact Hml|]. apply member_action_quiet.
  - destruct Hml as (l0 & k & -> & Hk & Hl0). rewrite app_nil_r.
    exists l0, k, ev. split; [done|].
    eapply Forall_impl; [exact Hl0|]. apply member_action_quiet.
Qed.

Lemma group_trace_gets (ev : LifeCycleEvent) (g : LifeCycleObserverGroup)
  (out : Outcome) (t : list Action) :
  group_trace this ev g out t ->
  gets_of t `prefix_of` group_gets ev g
  /\ (out = Fulfilled -> gets_of t = group_gets ev g).
Proof.
  intros (l & [_ [n Hn] Hall _ _] & ->).
  assert (Hg : gets_of (NotifyingGroup (group g) ev :: l
                 ++ match out with
                    | Fulfilled => [GroupProcessed (group g) ev]
                    | Rejected _ => []
                    end) = gets_of l).
  { simpl. rewrite gets_of_app. destruct out; simpl; by rewrite app_nil_r. }
  rewrite Hg. split; [|done].
  rewrite Hn. unfold group_gets.
  exists (map (fun b => (key b, ev)) (drop n (bindings g))).
  by rewrite <- map_app, take_drop.
Qed.

Lemma group_trace_processed (ev : LifeCycleEvent) (g : LifeCycleObserverGroup)
  (t : list Action) :
  group_trace this ev g Fulfilled t -> completed this [g] ev t.
Proof.
  intros (l & [_ _ _ Hproc _] & ->) g' Hg'.
  apply list_elem_of_singleton in Hg' as ->. split.
  - apply list_elem_of_further, elem_of_app. right. apply list_elem_of_here.
  - intros b Hb. destruct (Hproc eq_refl b Hb) as [Hh Hin]. split; [done|].
    apply list_elem_of_further, elem_of_app. by left.
Qed.

Lemma completed_app_l (groups : list LifeCycleObserverGroup)
  (ev : LifeCycleEvent) (l l' : list Action) :
  completed this groups ev l -> completed this groups ev (l ++ l').
Proof.
  intros H g Hg. destruct (H g Hg) as [Hgp Hmp]. split.
  - apply elem_of_app. by left.
  - intros b Hb. destruct (Hmp b Hb). split; [done|].
    apply elem_of_app. by left.
Qed.

Lemma completed_app_r (groups : list LifeCycleObserverGroup)
  (ev : LifeCycleEvent) (l l' : list Action) :
  completed this groups ev l' -> completed this groups ev (l ++ l').
Proof.
  intros H g Hg. destruct (H g Hg) as [Hgp Hmp]. split.
  - apply elem_of_app. by right.
  - intros b Hb. destruct (Hmp b Hb). split; [done|].
    apply elem_of_app. by right.
Qed.

(** The trace of one event. *)
Lemma event_trace_facts (ev : LifeCycleEvent)
  (groups : list LifeCycleObserverGroup) :
  forall (out : Outcome) (t : list Action),
    event_trace this ev groups out t ->
    Forall (about [ev] groups) t
    /\ raise_shape out t
    /\ gets_of t `prefix_of` event_gets groups ev
    /\ (out = Fulfilled ->
        gets_of t = event_gets groups ev /\ completed this groups ev t).
Proof.
  induction groups as [|g groups IH]; intros out t; simpl.
  - intros [-> ->]. split; [constructor|]. split; [constructor|].
    split; [done|]. intros _. split; [done|].
    intros g Hg. by apply elem_of_nil in Hg.
  - intros (o1 & t1 & Hgt & Hrest).
    pose proof (group_trace_about _ _ _ _ Hgt) as Hab1.
    pose proof (group_trace_raise _ _ _ _ Hgt) as Hr1.
    pose proof (group_trace_gets _ _ _ _ Hgt) as [Hp1 Hg1].
    assert (Hab1' : Forall (about [ev] (g :: groups)) t1).
    { eapply Forall_impl; [exact Hab1|]. intros a.
      apply about_mono; [done|]. intros g' Hg'.
      apply list_elem_of_singleton in Hg' as ->. apply list_elem_of_here. }
    destruct o1 as [|e].
    + destruct Hrest as (t2 & -> & Het).
      destruct (IH _ _ Het) as (Hab2 & Hr2 & Hp2 & Hf2).
      split; [|split; [|split]].
      * apply Forall_app. split; [done|].
        eapply Forall_impl; [exact Hab2|]. intros a.
        apply about_mono; [done|]. intros g'. apply list_elem_of_further.
      * by apply raise_shape_app.
      * rewrite gets_of_app, (Hg1 eq_refl). unfold event_gets. simpl.
        by apply prefix_app.
      * intros Hout. destruct (Hf2 Hout) as [Hg2 Hc2]. split.
        -- rewrite gets_of_app, (Hg1 eq_refl), Hg2. done.
        -- intros g' Hg'. apply elem_of_cons in Hg' as [->|Hg'].
           ++ apply (completed_app_l [g] ev t1 t2);
                [by apply group_trace_processed | apply list_elem_of_here].
           ++ by apply (completed_app_r groups ev t1 t2).
    + destruct Hrest as [-> ->].
      split; [done|]. split; [done|]. split; [|done].
      unfold event_gets. simpl. by apply prefix_app_r.
Qed.

End TraceFacts.

Section PassFacts.

Context {W : Type} (this : LifeCycleObserverRegistry W).

Lemma about_event_in (events : list LifeCycleEvent)
  (groups : list LifeCycleObserverGroup) (ev : LifeCycleEvent) (a : Action) :
  ev ∈ events -> about [ev] groups a -> about events groups a.
Proof.
  intros Hev. apply about_mono; [|done].
  intros ev' Hev'. by apply list_elem_of_singleton in Hev' as ->.
Qed.

Lemma about_single (events : list LifeCycleEvent)
  (groups : list LifeCycleObserverGroup) (a : Action) :
  action_event a ∈ events -> action_key a = None -> about events groups a.
Proof. intros He Hk. split; [done|]. intros k. by rewrite Hk. Qed.

(** The trace of a pass. *)
Lemma pass_trace_facts (events : list LifeCycleEvent)
  (groups : list LifeCycleObserverGroup) :
  forall (out : Outcome) (t : list Action),
    pass_trace this events groups out t ->
    Forall (about events groups) t
    /\ raise_shape out t
    /\ gets_of t `prefix_of` pass_gets events groups
    /\ (out = Fulfilled ->
        gets_of t = pass_gets events groups
        /\ forall ev, ev ∈ events ->
             completed this groups ev t /\ Finished ev ∈ t).
Proof.
  induction events as [|ev events IH]; intros out t; simpl.
  - intros [-> ->]. split; [constructor|]. split; [constructor|].
    split; [done|]. intros _. split; [done|].
    intros ev Hev. by apply elem_of_nil in Hev.
  - intros (o1 & t1 & Het & Hrest).
    destruct (event_trace_facts this ev groups _ _ Het)
      as (Hab1 & Hr1 & Hp1 & Hf1).
    assert (Hev : ev ∈ ev :: events) by apply list_elem_of_here.
    assert (Hab1' : Forall (about (ev :: events) groups) t1).
    { eapply Forall_impl; [exact Hab1|]. intros a. by apply about_event_in. }
    destruct o1 as [|e].
    + destruct Hrest as (t2 & -> & Hpt).
      destruct (IH _ _ Hpt) as (Hab2 & Hr2 & Hp2 & Hf2).
      destruct (Hf1 eq_refl) as [Hg1 Hc1].
      assert (Hgets : gets_of (Beginning ev :: t1 ++ Finished ev :: t2)
                      = event_gets groups ev ++ gets_of t2).
      { simpl. rewrite gets_of_app. simpl. by rewrite Hg1. }
      split; [|split; [|split]].
      * constructor; [by apply about_single|].
        apply Forall_app. split; [done|].
        constructor; [by apply about_single|].
        eapply Forall_impl; [exact Hab2|]. intros a.
        apply about_mono; [|done]. intros ev'. apply list_elem_of_further.
      * apply (raise_shape_app out (Beginning ev :: t1 ++ [Finished ev]) t2)
          in Hr2.
        -- simpl in Hr2. by rewrite <- app_assoc in Hr2.
        -- constructor; [simpl; tauto|]. apply Forall_app.
           split; [done|]. constructor; [simpl; tauto | constructor].
      * rewrite Hgets. unfold pass_gets. simpl. by apply prefix_app.
      * intros Hout. destruct (Hf2 Hout) as [Hg2 Hc2]. split.
        -- rewrite Hgets, Hg2. done.
        -- intros ev' Hev'. apply elem_of_cons in Hev' as [->|Hev'].
           ++ split.
              ** apply (completed_app_r this groups ev [Beginning ev]).
                 by apply completed_app_l.
              ** apply list_elem_of_further, elem_of_app. right.
                 apply list_elem_of_here.
           ++ destruct (Hc2 ev' Hev') as [Hc Hfin]. split.
              ** apply (completed_app_r this groups ev'
                          (Beginning ev :: t1 ++ [Finished ev]) t2) in Hc.
                 simpl in Hc. by rewrite <- app_assoc in Hc.
              ** apply list_elem_of_further, elem_of_app. right.
                 by apply list_elem_of_further.
    + destruct Hrest as [-> ->].
      split; [|split; [|split; [|done]]].
      * constructor; [by apply about_single | done].
      * destruct Hr1 as (t0 & k & ev' & -> & Ht0).
        exists (Beginning ev :: t0), k, ev'. split; [done|].
        constructor; [simpl; tauto | done].
      * simpl. unfold pass_gets. simpl. by apply prefix_app_r.
Qed.

Lemma app_split_later {A : Type} (P : A -> Prop) (X : list A) :
  forall (Y l1 l2 : list A) (a : A),
    Forall P X -> ~ P a -> X ++ Y = l1 ++ a :: l2 ->
    exists l1', l1 = X ++ l1' /\ Y = l1' ++ a :: l2.
Proof.
  induction X as [|x X IH]; intros Y l1 l2 a HX Ha Heq; simpl in *.
  - by exists l1.
  - apply Forall_cons in HX as [Hx HX].
    destruct l1 as [|y l1]; simpl in *.
    + injection Heq as -> _. done.
    + injection Heq as -> Heq.
      destruct (IH _ _ _ _ HX Ha Heq) as (l1' & -> & ->). by exists l1'.
Qed.

Lemma precedes_cons (ev : LifeCycleEvent) (events : list LifeCycleEvent)
  (ev1 ev2 : LifeCycleEvent) :
  precedes (ev :: events) ev1 ev2 ->
  ev2 ∈ events /\ (ev1 = ev \/ precedes events ev1 ev2).
Proof.
  intros (pre & mid & post & Heq). destruct pre as [|p pre]; simpl in *.
  - injection Heq as -> ->. split; [|by left].
    apply elem_of_app. right. apply list_elem_of_here.
  - injection Heq as -> ->. split.
    + apply elem_of_app. right. apply list_elem_of_further.
      apply elem_of_app. right. apply list_elem_of_here.
    + right. by exists pre, mid, post.
Qed.

(** The events of a pass come strictly one after the other: when an action
    of a later event happens, the earlier event is completed for every
    group, and nothing of the earlier event happens afterwards. *)
Lemma pass_trace_sequenced (events : list LifeCycleEvent)
  (groups : list LifeCycleObserverGroup) :
  NoDup events ->
  forall (out : Outcome) (t l1 l2 : list Action) (a : Action)
    (ev1 : LifeCycleEvent),
    pass_trace this events groups out t ->
    t = l1 ++ a :: l2 ->
    precedes events ev1 (action_event a) ->
    (completed this groups ev1 l1 /\ Finished ev1 ∈ l1)
    /\ Forall (fun a' => action_event a' <> ev1) l2.
Proof.
  induction events as [|ev events IH]; intros Hnd out t l1 l2 a ev1 Hpt Ht Hpre.
  - destruct Hpre as (pre & mid & post & Heq). by destruct pre.
  - apply NoDup_cons in Hnd as [Hev Hnd].
    apply precedes_cons in Hpre as [Hin2 Hpre].
    assert (Hne : action_event a <> ev) by (intros Heq; by rewrite Heq in Hin2).
    simpl in Hpt. destruct Hpt as (o1 & t1 & Het & Hrest).
    destruct (event_trace_facts this ev groups _ _ Het)
      as (Hab1 & _ & _ & Hf1).
    assert (Hevs : Forall (fun a' => action_event a' = ev) t1).
    { eapply Forall_impl; [exact Hab1|]. intros a' [Ha' _].
      by apply list_elem_of_singleton in Ha'. }
    destruct o1 as [|e].
    + destruct Hrest as (t2 & -> & Hpt2).
      destruct (Hf1 eq_refl) as [_ Hc1].
      assert (Hsplit : (Beginning ev :: t1 ++ [Finished ev]) ++ t2
                       = l1 ++ a :: l2).
      { rewrite <- Ht. simpl. by rewrite <- app_assoc. }
      apply (app_split_later (fun a' => action_event a' = ev)) in Hsplit
        as (l1' & -> & ->); [|
        constructor; [done|]; apply Forall_app; split; [done|];
        by repeat constructor | done].
      destruct (pass_trace_facts events groups _ _ Hpt2) as (Hab2 & _).
      destruct Hpre as [->|Hpre].
      * split; [split|].
        -- apply completed_app_l.
           apply (completed_app_r this groups ev [Beginning ev]).
           by apply completed_app_l.
        -- apply elem_of_app. left. apply list_elem_of_further, elem_of_app.
           right. apply list_elem_of_here.
        -- apply Forall_app in Hab2 as [_ Hab2].
           apply Forall_cons in Hab2 as [_ Hab2].
           eapply Forall_impl; [exact Hab2|]. intros a' [Ha' _] Heq.
           by rewrite Heq in Ha'.
      * destruct (IH Hnd _ _ _ _ _ _ Hpt2 eq_refl Hpre) as [[Hc Hfin] Hl2].
        split; [split|done].
        -- by apply completed_app_r.
        -- apply elem_of_app. by right.
    + destruct Hrest as [-> ->]. exfalso.
      assert (Hall : Forall (fun a' => action_event a' = ev)
                       (Beginning ev :: t1)) by (by constructor).
      rewrite Ht in Hall. apply Forall_app in Hall as [_ Hall].
      apply Forall_cons in Hall as [Ha _]. done.
Qed.

End PassFacts.

(** ** Runs of [notifyGroups] *)

Section RunFacts.

Context {W : Type} (this : LifeCycleObserverRegistry W).
Context (events : list LifeCycleEvent) (groups : list LifeCycleObserverGroup).

Lemma notifyGroups_failure_propagates :
  failure_propagates this events groups (notifyGroups this events groups).
Proof.
  intros st.
  pose proof (notifyGroups_trace this events groups st) as Hpt.
  destruct (pass_trace_facts this events groups _ _ Hpt)
    as (_ & Hraise & _ & Hful).
  set (t := actions_of (notifyGroups this events groups) st) in *.
  assert (Hok : (notifyGroups this events groups st).1 = Fulfilled ->
            forall ev g b, ev ∈ events -> g ∈ groups -> b ∈ bindings g ->
              hook_result this ev (key b) None).
  { intros Hout ev g b Hev Hg Hb.
    destruct (Hful Hout) as [_ Hc]. destruct (Hc ev Hev) as [Hcomp _].
    destruct (Hcomp g Hg) as [_ Hmp]. by destruct (Hmp b Hb). }
  destruct (notifyGroups this events groups st).1 as [|e'] eqn:Hout;
    simpl in Hraise.
  - split; [|split; [|split]].
    + intros k ev e Hin. rewrite Forall_forall in Hraise.
      by destruct (Hraise _ Hin).
    + done.
    + intros _. split; [done|]. by apply Hok.
    + intros ev g b o hook e Hev Hg Hb Hget Hhook Hfail.
      destruct (Hok eq_refl ev g b Hev Hg Hb) as (o' & Hget' & Hres).
      rewrite Hget in Hget'. injection Hget' as <-.
      rewrite Hhook in Hres. destruct Hres as [w Hw].
      by rewrite Hfail in Hw.
  - destruct Hraise as (t0 & k' & ev' & Ht & Ht0).
    split; [|split; [|split]].
    + intros k ev e Hin. rewrite Ht in Hin.
      apply elem_of_app in Hin as [Hin|Hin].
      * rewrite Forall_forall in Ht0. by destruct (Ht0 _ Hin).
      * apply list_elem_of_singleton in Hin. injection Hin as -> -> ->.
        split; [done|]. by exists t0.
    + intros e [= <-]. by exists t0, k', ev'.
    + done.
    + intros. by exists e'.
Qed.

Lemma notifyGroups_sequenced :
  NoDup events -> sequenced this events groups (notifyGroups this events groups).
Proof.
  intros Hnd st l1 a l2 ev1 Hsplit Hpre.
  eapply pass_trace_sequenced; [exact Hnd| |exact Hsplit|exact Hpre].
  apply notifyGroups_trace.
Qed.

Lemma event_gets_keys (ev : LifeCycleEvent) :
  event_gets groups ev
  = map (fun k => (k, ev)) (map key (concat (map bindings groups))).
Proof.
  unfold event_gets. induction groups as [|g gs IH]; simpl; [done|].
  rewrite IH, !map_app. f_equal. unfold group_gets. by rewrite map_map.
Qed.

Lemma NoDup_pass_gets :
  NoDup events ->
  NoDup (map key (concat (map bindings groups))) ->
  NoDup (pass_gets events groups).
Proof.
  intros Hev Hk. unfold pass_gets.
  induction events as [|ev evs IH]; simpl; [constructor|].
  apply NoDup_cons in Hev as [Hev Hevs].
  apply NoDup_app. split; [|split].
  - rewrite event_gets_keys. apply NoDup_fmap_2; [|done].
    intros k1 k2 [= ->]. done.
  - intros [k ev'] Hin1 Hin2. rewrite event_gets_keys in Hin1.
    apply list_elem_of_fmap in Hin1 as (k1 & Heq & _).
    injection Heq as _ ->. apply Hev. clear -Hin2. induction evs as [|ev' evs IH]; simpl in *.
    + by apply elem_of_nil in Hin2.
    + apply elem_of_app in Hin2 as [Hin|Hin].
      * rewrite event_gets_keys in Hin.
        apply list_elem_of_fmap in Hin as (k1 & Heq & _).
        injection Heq as _ ->. apply list_elem_of_here.
      * apply list_elem_of_further. by apply IH.
  - by apply IH.
Qed.

Lemma notifyGroups_resolves :
  NoDup events ->
  (NoDup (map key (registry (ctx this))) ->
   NoDup (map key (concat (map bindings groups)))) ->
  resolves_once_per_event this events groups
    (notifyGroups this events groups).
Proof.
  intros Hnd Hkeys st.
  pose proof (notifyGroups_trace this events groups st) as Hpt.
  destruct (pass_trace_facts this events groups _ _ Hpt)
    as (_ & _ & Hpre & Hful).
  split; [done|]. split.
  - intros Hout. by destruct (Hful Hout).
  - intros Hk. destruct Hpre as [rest Hrest].
    pose proof (NoDup_pass_gets Hnd (Hkeys Hk)) as Hnd'.
    rewrite Hrest in Hnd'. by apply NoDup_app in Hnd' as [? _].
Qed.

End RunFacts.

(** ** Discovery *)

Section Discovery.

Context {W : Type} (CoreTags : Tags) (this : LifeCycleObserverRegistry W).

Lemma elem_of_findObserverBindings (b : Binding) :
  b ∈ findObserverBindings CoreTags this
  <-> b ∈ registry (ctx this) /\ isObserverBinding CoreTags b = true.
Proof.
  unfold findObserverBindings, Context_find.
  rewrite !list_elem_of_In. apply filter_In.
Qed.

Lemma isObserverBinding_spec (b : Binding) :
  isObserverBinding CoreTags b = true
  <-> (type b = Some CONSTANT \/ scope b = SINGLETON)
      /\ (is_Some (tagMap b !! LIFE_CYCLE_OBSERVER CoreTags)
          \/ truthy (tagMap b !! SERVER CoreTags) = true).
Proof.
  unfold isObserverBinding.
  rewrite andb_true_iff, !orb_true_iff, !bool_decide_eq_true.
  assert (Hnn : forall v : option string, not_null v = true <-> is_Some v).
  { intros [s|]; simpl; split; intros H; done. }
  by rewrite Hnn.
Qed.

Lemma elem_of_groups_discovered (g : LifeCycleObserverGroup) (b : Binding) :
  g ∈ getObserverGroupsByOrder CoreTags this -> b ∈ bindings g ->
  b ∈ findObserverBindings CoreTags this.
Proof.
  unfold getObserverGroupsByOrder. intros Hg Hb.
  apply elem_of_sorted_groups in Hg as [_ Hm]. rewrite Hm in Hb.
  unfold members in Hb. by apply list_elem_of_filter in Hb as [_ ?].
Qed.

Lemma NoDup_keys_filter (p : Binding -> bool) (bs : list Binding) :
  NoDup (map key bs) -> NoDup (map key (List.filter p bs)).
Proof.
  induction bs as [|b bs IH]; simpl; [done|].
  intros Hnd. apply NoDup_cons in Hnd as [Hb Hnd].
  destruct (p b); simpl; [|by apply IH].
  apply NoDup_cons. split; [|by apply IH].
  intros Hin. apply Hb.
  apply list_elem_of_fmap in Hin as (b' & -> & Hb').
  apply list_elem_of_In, filter_In in Hb' as [Hb' _].
  apply list_elem_of_fmap_2. by apply list_elem_of_In.
Qed.

Lemma NoDup_group_keys :
  NoDup (map key (registry (ctx this))) ->
  NoDup (map key (concat (map bindings
                        (getObserverGroupsByOrder CoreTags this)))).
Proof.
  intros Hnd. unfold getObserverGroupsByOrder.
  rewrite concat_sorted_groups. by apply NoDup_keys_filter.
Qed.

Lemma NoDup_reverse_group_keys :
  NoDup (map key (registry (ctx this))) ->
  NoDup (map key (concat (map bindings
                        (reverse (getObserverGroupsByOrder CoreTags this))))).
Proof.
  intros Hnd.
  rewrite (concat_perm _ (map bindings (getObserverGroupsByOrder CoreTags this))).
  - by apply NoDup_group_keys.
  - apply Permutation_map, reverse_Permutation.
Qed.

End Discovery.

(** ** The claims about [start] and [stop] *)

(** C3, as amended: in a pass the instance of an entry is looked up once
    for each of the three events, not once for the pass.  The look-ups of a
    pass are a prefix of the list that names every member of every group
    once per event, all of it when the pass is fulfilled; with unique keys
    no entry is looked up twice for the same event.  This holds from every
    state, so every call of [start] or [stop] resolves the entries again. *)
Theorem resolved_once_per_event {W : Type} (CoreTags : Tags)
  (this : LifeCycleObserverRegistry W) :
  resolves_once_per_event this [PreStart; Start; PostStart]
    (getObserverGroupsByOrder CoreTags this) (start CoreTags this)
  /\ resolves_once_per_event this [PreStop; Stop; PostStop]
       (reverse (getObserverGroupsByOrder CoreTags this)) (stop CoreTags this).
Proof.
  split.
  - apply notifyGroups_resolves; [by compute_done | apply NoDup_group_keys].
  - apply notifyGroups_resolves;
      [by compute_done | apply NoDup_reverse_group_keys].
Qed.

Lemma resolved_once_per_event_witness :
  gets_of (actions_of (start Fixtures.CoreTags Mocks.registry_one)
             (Mocks.initial []))
  = [("my-observer", PreStart); ("my-observer", Start);
     ("my-observer", PostStart)].
Proof.
  destruct (resolved_once_per_event Fixtures.CoreTags Mocks.registry_one)
    as [Hstart _].
  destruct (Hstart (Mocks.initial [])) as (_ & Hall & _).
  rewrite Hall; [|vm_compute; reflexivity].
  vm_compute. reflexivity.
Defined.

(** C3, as the claim states it, fails: one pass of [start] looks the only
    observer up three times. *)
Lemma resolved_once_per_pass_fails :
  ~ resolved_once_per_pass
      (actions_of (start Fixtures.CoreTags Mocks.registry_one)
         (Mocks.initial [])).
Proof.
  intros H. specialize (H "my-observer"). vm_compute in H. lia.
Qed.

(** C4: in every run of [start] and of [stop], when an action of a later
    event happens, every group and every member has completed each earlier
    event, and no action of an earlier event follows; this holds in serial
    and in parallel mode, for every order of resumption. *)
Theorem phases_strictly_sequenced {W : Type} (CoreTags : Tags)
  (this : LifeCycleObserverRegistry W) :
  sequenced this [PreStart; Start; PostStart]
    (getObserverGroupsByOrder CoreTags this) (start CoreTags this)
  /\ sequenced this [PreStop; Stop; PostStop]
       (reverse (getObserverGroupsByOrder CoreTags this)) (stop CoreTags this).
Proof.
  split; apply notifyGroups_sequenced; by compute_done.
Qed.

(** C7: an observer without the hook of the event is notified without any
    call and without error: [invokeObserver] leaves the state as it is, the
    notification of the binding is fulfilled with the world unchanged, and
    so is the suspended task when it is resumed twice. *)
Theorem missing_hook_is_noop {W : Type} (this : LifeCycleObserverRegistry W)
  (observer : LifeCycleObserver W) (event : LifeCycleEvent) (b : Binding)
  (st : State W) :
  observer event = None ->
  get (ctx this) (key b) = inr observer ->
  skips_missing_hook this observer event b st.
Proof.
  intros Hhook Hget. unfold skips_missing_hook.
  unfold notifyObserver, notifyObserver_resume, invokeObserver. simpl.
  rewrite Hget. simpl. rewrite Hhook. simpl.
  split; [done|]. split.
  - unfold add_log. simpl. by rewrite <- !app_assoc.
  - unfold add_log. simpl. repeat split. by rewrite <- !app_assoc.
Qed.

(** C10: discovery returns exactly the bindings of the context that are
    constant or singleton and carry the observer tag or a truthy server
    tag; and whatever [start] or [stop] looks up or notifies is the key of
    such a binding, so an entry that is neither constant nor singleton, and
    shares its key with no other, is never notified. *)
Theorem only_constant_or_singleton_notified {W : Type} (CoreTags : Tags)
  (this : LifeCycleObserverRegistry W) :
  (forall b, b ∈ findObserverBindings CoreTags this
     <-> b ∈ registry (ctx this)
         /\ (type b = Some CONSTANT \/ scope b = SINGLETON)
         /\ (is_Some (tagMap b !! LIFE_CYCLE_OBSERVER CoreTags)
             \/ truthy (tagMap b !! SERVER CoreTags) = true))
  /\ (forall b, type b <> Some CONSTANT -> scope b <> SINGLETON ->
        b ∉ findObserverBindings CoreTags this)
  /\ (forall st a k,
        a ∈ actions_of (start CoreTags this) st
        \/ a ∈ actions_of (stop CoreTags this) st ->
        action_key a = Some k ->
        exists b, b ∈ registry (ctx this) /\ key b = k
                  /\ (type b = Some CONSTANT \/ scope b = SINGLETON)).
Proof.
  assert (Hfind : forall b, b ∈ findObserverBindings CoreTags this
     <-> b ∈ registry (ctx this)
         /\ (type b = Some CONSTANT \/ scope b = SINGLETON)
         /\ (is_Some (tagMap b !! LIFE_CYCLE_OBSERVER CoreTags)
             \/ truthy (tagMap b !! SERVER CoreTags) = true)).
  { intros b. rewrite elem_of_findObserverBindings.
    by rewrite isObserverBinding_spec. }
  split; [done|]. split.
  - intros b Ht Hs Hin. apply Hfind in Hin as (_ & [?|?] & _); done.
  - intros st a k Hin Hk.
    assert (Hab : exists groups : list LifeCycleObserverGroup,
              (forall g, g ∈ groups ->
                 g ∈ getObserverGroupsByOrder CoreTags this)
              /\ exists g, g ∈ groups /\ k ∈ map key (bindings g)).
    { destruct Hin as [Hin|Hin].
      - pose proof (notifyGroups_trace this [PreStart; Start; PostStart]
          (getObserverGroupsByOrder CoreTags this) st) as Hpt.
        apply pass_trace_facts in Hpt as (Hab & _).
        rewrite Forall_forall in Hab. destruct (Hab a Hin) as [_ Hkey].
        exists (getObserverGroupsByOrder CoreTags this). split; [done|].
        by apply Hkey.
      - pose proof (notifyGroups_trace this [PreStop; Stop; PostStop]
          (reverse (getObserverGroupsByOrder CoreTags this)) st) as Hpt.
        apply pass_trace_facts in Hpt as (Hab & _).
        rewrite Forall_forall in Hab. destruct (Hab a Hin) as [_ Hkey].
        exists (reverse (getObserverGroupsByOrder CoreTags this)).
        split; [intros g; by rewrite elem_of_reverse|]. by apply Hkey. }
    destruct Hab as (groups & Hsub & g & Hg & Hkg).
    apply list_elem_of_fmap in Hkg as (b & -> & Hb).
    pose proof (elem_of_groups_discovered CoreTags this g b (Hsub g Hg) Hb)
      as Hdisc.
    apply Hfind in Hdisc as (Hreg & Hcs & _). by exists b.
Qed.

(** ** Groups of one member: the order of resumption does not matter *)

Section SingleMember.

Context {W : Type} (this : LifeCycleObserverRegistry W) (ev : LifeCycleEvent).

Lemma same_state_refl (st : State W) : same_state st st.
Proof. by split. Qed.

Lemma same_state_add_log (a : Action) (st1 st2 : State W) :
  same_state st1 st2 -> same_state (add_log a st1) (add_log a st2).
Proof. intros [Hw Hl]. split; simpl; congruence. Qed.

(** A resumption does not read the oracle. *)
Lemma notifyObserver_resume_same (t : Task) (st1 st2 : State W) :
  same_state st1 st2 ->
  (notifyObserver_resume this ev t st1).1
  = (notifyObserver_resume this ev t st2).1
  /\ same_state (notifyObserver_resume this ev t st1).2
       (notifyObserver_resume this ev t st2).2.
Proof.
  intros [Hw Hl]. destruct t as [b s].
  unfold notifyObserver_resume, invokeObserver, add_log. simpl.
  destruct s as [|[e|]| |e]; simpl; try (by repeat split; simpl; congruence).
  destruct (get (ctx this) (key b)) as [e|o]; simpl;
    [by repeat split; simpl; congruence|].
  destruct (o ev) as [hook|]; simpl;
    [|by repeat split; simpl; congruence].
  rewrite Hw. destruct (hook (world st2)) as [w r]. simpl.
  repeat split; simpl; congruence.
Qed.

Lemma Promise_all_rest_same (ts : list Task) :
  forall st1 st2 : State W,
    same_state st1 st2 ->
    same_run (Promise_all_rest this ev ts st1)
      (Promise_all_rest this ev ts st2).
Proof.
  induction ts as [|t ts IH]; intros st1 st2 Hst; simpl; [by split|].
  destruct (notifyObserver_resume_same t st1 st2 Hst) as [Ht1 Hs1].
  destruct (notifyObserver_resume this ev t st1) as [t1 st1'].
  destruct (notifyObserver_resume this ev t st2) as [t1' st2'].
  simpl in *. subst t1'.
  destruct (notifyObserver_resume_same t1 st1' st2' Hs1) as [Ht2 Hs2].
  destruct (notifyObserver_resume this ev t1 st1') as [t2 st1''].
  destruct (notifyObserver_resume this ev t1 st2') as [t2' st2''].
  simpl in *. subst t2'.
  destruct (task_state t1); try (by split).
  all: destruct (task_state t2); try (by split); by apply IH.
Qed.

(** Once a task has been resumed without rejecting, the rest of the join
    of that single task is the same. *)
Ltac resume_cases this ev b st :=
  let Hget := fresh "Hget" in
  let Hhook := fresh "Hhook" in
  let Hh := fresh "Hh" in
  destruct (get (ctx this) (key b)) as [?e|?o] eqn:Hget;
  [|match goal with
    | o : LifeCycleObserver _ |- _ =>
        destruct (o ev) as [?hook|] eqn:Hhook;
        [match goal with
         | hook : Hook _ |- _ =>
             destruct (hook (world st)) as [?w [?e|]] eqn:Hh
         end|]
    end];
  repeat (progress (unfold notifyObserver, notifyObserver_resume,
                      invokeObserver, add_log;
                    simpl; rewrite ?Hget; simpl; rewrite ?Hhook; simpl;
                    rewrite ?Hh; simpl)).

Lemma Promise_all_rest_resumed_aux (t : Task) (st : State W) :
  let r := notifyObserver_resume this ev t st in
  (forall e, task_state r.1 <> TaskRejected e) ->
  Promise_all_rest this ev [r.1] r.2 = Promise_all_rest this ev [t] st.
Proof.
  destruct t as [b s].
  destruct s as [|[e|]| |e].
  - resume_cases this ev b st; done.
  - simpl. intros H. by destruct (H e).
  - done.
  - done.
  - simpl. intros H. by destruct (H e).
Qed.

Lemma Promise_all_rest_resumed (t t1 : Task) (st st1 : State W) :
  notifyObserver_resume this ev t st = (t1, st1) ->
  (forall e, task_state t1 <> TaskRejected e) ->
  Promise_all_rest this ev [t1] st1 = Promise_all_rest this ev [t] st.
Proof.
  intros Hr Hne. pose proof (Promise_all_rest_resumed_aux t st) as H.
  rewrite Hr in H. by apply H.
Qed.

Lemma resume_rejected_stays (t t1 : Task) (st st1 : State W) (e : Error) :
  notifyObserver_resume this ev t st = (t1, st1) ->
  task_state t1 = TaskRejected e ->
  Promise_all_rest this ev [t] st = (Rejected e, st1).
Proof.
  intros Hr Hs. cbn [Promise_all_rest]. rewrite Hr. cbv iota beta.
  by rewrite Hs.
Qed.

Lemma Promise_all_single (sched : list nat) :
  forall (t : Task) (st : State W),
    Promise_all this ev sched [t] st = Promise_all_rest this ev [t] st.
Proof.
  induction sched as [|n sched IH]; intros t st; [done|].
  destruct n as [|n]; [|by apply IH].
  cbn [Promise_all lookup list_lookup].
  destruct (notifyObserver_resume this ev t st) as [t1 st1] eqn:Hr.
  destruct (task_state t1) as [|r| |e] eqn:Hs.
  4: { symmetry. by eapply resume_rejected_stays. }
  all: simpl; rewrite IH; apply (Promise_all_rest_resumed _ _ _ _ Hr);
    intros e; by rewrite Hs.
Qed.

Lemma Promise_all_nil (sched : list nat) (st : State W) :
  Promise_all this ev sched [] st = (Fulfilled, st).
Proof. induction sched as [|n sched IH]; [done|]. by destruct n. Qed.

Lemma next_schedule_same (st : State W) :
  same_state (next_schedule st).2 st.
Proof. unfold next_schedule. by destruct (oracle st). Qed.

Lemma Promise_all_rest_notifyObserver (b : Binding) (st : State W) :
  Promise_all_rest this ev [mkTask b AwaitGet] (add_log (Get (key b) ev) st)
  = notifyObserver this ev b st.
Proof. resume_cases this ev b st; done. Qed.

Lemma notifyObserver_same (b : Binding) (st1 st2 : State W) :
  same_state st1 st2 ->
  same_run (notifyObserver this ev b st1) (notifyObserver this ev b st2).
Proof.
  intros Hst. rewrite <- !Promise_all_rest_notifyObserver.
  by apply Promise_all_rest_same, same_state_add_log.
Qed.

End SingleMember.

Section SingleMemberGroups.

Context {W : Type} (this : LifeCycleObserverRegistry W).

Lemma notifyObserverGroup_small (ev : LifeCycleEvent)
  (g : LifeCycleObserverGroup) (st1 st2 : State W) :
  small g -> same_state st1 st2 ->
  same_run (notifyObserverGroup (with_parallel this true) g ev st1)
    (notifyObserverGroup (with_parallel this false) g ev st2).
Proof.
  intros Hsmall Hst. unfold notifyObserverGroup, small in *.
  pose proof (same_state_add_log (NotifyingGroup (group g) ev) _ _ Hst)
    as Hst'.
  destruct (bindings g) as [|b [|b' bs]]; simpl in *; [| |lia].
  - pose proof (next_schedule_same
                  (add_log (NotifyingGroup (group g) ev) st1)) as Hs1.
    destruct (next_schedule _) as [sched st1'].
    rewrite Promise_all_nil. simpl in *. split; [done|].
    apply same_state_add_log. destruct Hs1 as [Hw Hl], Hst' as [Hw' Hl'].
    split; congruence.
  - set (s1 := add_log (Get (key b) ev) _).
    pose proof (next_schedule_same s1) as Hs1.
    destruct (next_schedule s1) as [sched st1']. simpl in Hs1.
    rewrite (Promise_all_single (with_parallel this true)).
    pose proof (Promise_all_rest_same (with_parallel this true) ev
      [mkTask b AwaitGet] st1'
      (add_log (Get (key b) ev) (add_log (NotifyingGroup (group g) ev) st2)))
      as Hsame.
    rewrite (Promise_all_rest_notifyObserver (with_parallel this true))
      in Hsame.
    destruct Hsame as [Hout Hsame].
    { destruct Hs1 as [Hw Hl]. split; [rewrite Hw|rewrite Hl]; unfold s1;
        apply (same_state_add_log (Get (key b) ev)); done. }
    change (notifyObserver (with_parallel this true) ev b)
      with (notifyObserver (with_parallel this false) ev b) in *.
    destruct (Promise_all_rest _ _ _ _) as [o1 sa].
    destruct (notifyObserver _ _ _ _) as [o2 sb].
    simpl in *. subst o2.
    destruct o1; split; try done. by apply same_state_add_log.
Qed.

Lemma notifyGroups_event_small (ev : LifeCycleEvent)
  (groups : list LifeCycleObserverGroup) :
  Forall small groups ->
  forall st1 st2 : State W,
    same_state st1 st2 ->
    same_run (notifyGroups_event (with_parallel this true) ev groups st1)
      (notifyGroups_event (with_parallel this false) ev groups st2).
Proof.
  induction 1 as [|g groups Hg _ IH]; intros st1 st2 Hst; simpl.
  - by split.
  - destruct (notifyObserverGroup_small ev g st1 st2 Hg Hst) as [Hout Hs].
    destruct (notifyObserverGroup (with_parallel this true) g ev st1)
      as [o1 sa].
    destruct (notifyObserverGroup (with_parallel this false) g ev st2)
      as [o2 sb].
    simpl in *. subst o2. destruct o1; [by apply IH | by split].
Qed.

Lemma notifyGroups_small (events : list LifeCycleEvent)
  (groups : list LifeCycleObserverGroup) :
  Forall small groups ->
  forall st1 st2 : State W,
    same_state st1 st2 ->
    same_run (notifyGroups (with_parallel this true) events groups st1)
      (notifyGroups (with_parallel this false) events groups st2).
Proof.
  intros Hsmall. induction events as [|ev events IH]; intros st1 st2 Hst;
    simpl.
  - by split.
  - pose proof (same_state_add_log (Beginning ev) _ _ Hst) as Hst'.
    destruct (notifyGroups_event_small ev groups Hsmall _ _ Hst')
      as [Hout Hs].
    destruct (notifyGroups_event (with_parallel this true) ev groups _)
      as [o1 sa].
    destruct (notifyGroups_event (with_parallel this false) ev groups _)
      as [o2 sb].
    simpl in *. subst o2. destruct o1; [|by split].
    by apply IH, same_state_add_log.
Qed.

End SingleMemberGroups.

(** ** The claims about one group and about the order of stopping *)

(** The same group with the second member resumed first: both look-ups
    come first, the hooks are called in the order of resumption, and the
    failure of the second member rejects the group while the first member
    is still suspended. *)
Example parallel_group_trace :
  actions_of
    (notifyObserverGroup (Mocks.registry_failing None)
       (mkGroup "g" [Fixtures.givenConstantBinding "h1" (Some "g");
                     Fixtures.givenConstantBinding "h2" (Some "g")])
       Start)
    (Mocks.initial [[1; 0; 1; 0]%nat])
  = [NotifyingGroup "g" Start; Get "h1" Start; Get "h2" Start;
     NotifyingBinding "h2" Start; Call Start;
     NotifyingBinding "h1" Start; Call Start;
     Raised "h2" Start "cannot start"].
Proof. vm_compute. reflexivity. Qed.

Lemma getObserverGroupsByOrder_AB (o : option LifeCycleObserverOptions) :
  getObserverGroupsByOrder Fixtures.CoreTags (Mocks.registry_AB o)
  = Mocks.groups_AB.
Proof. vm_compute. reflexivity. Qed.

Lemma small_groups_AB : Forall small Mocks.groups_AB /\ Forall small (reverse Mocks.groups_AB).
Proof. split; repeat constructor. Qed.

(** The run of [start] and then [stop] on A and B, one after the other. *)
Lemma start_stop_AB_serial (st : State (list string)) :
  same_state st (Mocks.initial []) ->
  let started :=
    notifyGroups (with_parallel (Mocks.registry_AB None) false) [PreStart; Start; PostStart]
      Mocks.groups_AB st in
  started.1 = Fulfilled
  /\ forall st', same_state st' started.2 ->
       let stopped :=
         notifyGroups (with_parallel (Mocks.registry_AB None) false) [PreStop; Stop; PostStop]
           (reverse Mocks.groups_AB) st' in
       stopped.1 = Fulfilled
       /\ world stopped.2
          = ["preStart-A"; "preStart-B"; "start-A"; "start-B";
             "postStart-A"; "postStart-B"; "preStop-B"; "preStop-A";
             "stop-B"; "stop-A"; "postStop-B"; "postStop-A"].
Proof.
  destruct st as [w l o]. intros [Hw Hl]. simpl in Hw, Hl. subst w l.
  split; [vm_compute; reflexivity|].
  intros [w l o'] [Hw Hl]. vm_compute in Hw, Hl. subst w l.
  split; vm_compute; reflexivity.
Qed.

Lemma start_stop_AB_parallel (oracle : list (list nat)) :
  let started :=
    notifyGroups (with_parallel (Mocks.registry_AB None) true) [PreStart; Start; PostStart]
      Mocks.groups_AB (Mocks.initial oracle) in
  let stopped :=
    notifyGroups (with_parallel (Mocks.registry_AB None) true) [PreStop; Stop; PostStop]
      (reverse Mocks.groups_AB) started.2 in
  started.1 = Fulfilled
  /\ stopped.1 = Fulfilled
  /\ world stopped.2
     = ["preStart-A"; "preStart-B"; "start-A"; "start-B";
        "postStart-A"; "postStart-B"; "preStop-B"; "preStop-A";
        "stop-B"; "stop-A"; "postStop-B"; "postStop-A"].
Proof.
  intros started stopped.
  destruct small_groups_AB as [Hs Hsr].
  destruct (notifyGroups_small (Mocks.registry_AB None) [PreStart; Start; PostStart] Mocks.groups_AB
              Hs (Mocks.initial oracle) (Mocks.initial []))
    as [Hout1 Hst1]; [by split|].
  fold started in Hout1, Hst1.
  destruct (start_stop_AB_serial (Mocks.initial []) (same_state_refl _))
    as [Hful Hstop].
  destruct (notifyGroups_small (Mocks.registry_AB None) [PreStop; Stop; PostStop]
              (reverse Mocks.groups_AB) Hsr started.2 started.2
              (same_state_refl _)) as [Hout2 [Hw2 _]].
  fold stopped in Hout2, Hw2.
  destruct (Hstop started.2 Hst1) as [Hful2 Hworld].
  split; [congruence|]. split; congruence.
Qed.

(** C2: observers A (group g1) and B (group g2) with all six hooks, order
    [g1, g2]: whatever the options and the order of resumption are, [start]
    and then [stop] are fulfilled and the hooks record exactly the trace of
    the claim.  [stop] notifies the groups of [start] in reverse order, the
    members of a group in their own order: with mysql and mongo in one
    group before the server rest, [stop] reaches rest, mysql, mongo. *)
Theorem stop_reverses_groups_only (o : option LifeCycleObserverOptions)
  (oracle : list (list nat)) :
  (let this := Mocks.registry_AB o in
   let started := start Fixtures.CoreTags this (Mocks.initial oracle) in
   let stopped := stop Fixtures.CoreTags this started.2 in
   started.1 = Fulfilled
   /\ stopped.1 = Fulfilled
   /\ world stopped.2
      = ["preStart-A"; "preStart-B"; "start-A"; "start-B";
         "postStart-A"; "postStart-B"; "preStop-B"; "preStop-A";
         "stop-B"; "stop-A"; "postStop-B"; "postStop-A"])
  /\ (let this := Scenario.registry_datasources in
      let started := start Fixtures.CoreTags this (Mocks.initial oracle) in
      let stopped := stop Fixtures.CoreTags this started.2 in
      world started.2
      = ["preStart-mysql"; "preStart-mongo"; "preStart-rest";
         "start-mysql"; "start-mongo"; "start-rest";
         "postStart-mysql"; "postStart-mongo"; "postStart-rest"]
      /\ world stopped.2
         = world started.2
           ++ ["preStop-rest"; "preStop-mysql"; "preStop-mongo";
               "stop-rest"; "stop-mysql"; "stop-mongo";
               "postStop-rest"; "postStop-mysql"; "postStop-mongo"]).
Proof.
  split.
  - cbv zeta. unfold start, stop. rewrite !getObserverGroupsByOrder_AB.
    destruct o as [[[[|]|]]|].
    + apply start_stop_AB_parallel.
    + destruct (start_stop_AB_serial (Mocks.initial oracle)) as [Hful Hstop];
        [by split|].
      split; [exact Hful|]. by apply Hstop.
    + split; [|split]; vm_compute; reflexivity.
    + apply start_stop_AB_parallel.
  - split; vm_compute; reflexivity.
Qed.

(** ** The theorems at concrete inputs *)

Lemma phases_strictly_sequenced_witness :
  exists l1 l2,
    actions_of (start Fixtures.CoreTags Mocks.registry_one) (Mocks.initial [])
    = l1 ++ Beginning Start :: l2
    /\ precedes [PreStart; Start; PostStart] PreStart Start
    /\ (completed Mocks.registry_one
          (getObserverGroupsByOrder Fixtures.CoreTags Mocks.registry_one)
          PreStart l1
        /\ Finished PreStart ∈ l1)
    /\ Forall (fun a' => action_event a' <> PreStart) l2.
Proof.
  set (t := actions_of (start Fixtures.CoreTags Mocks.registry_one)
              (Mocks.initial [])).
  assert (Hsplit : t = take 7 t ++ Beginning Start :: drop 8 t)
    by (vm_compute; reflexivity).
  assert (Hpre : precedes [PreStart; Start; PostStart] PreStart
                   (action_event (Beginning Start)))
    by (by exists [], [], [PostStart]).
  exists (take 7 t), (drop 8 t). split; [exact Hsplit|]. split; [exact Hpre|].
  exact (proj1 (phases_strictly_sequenced Fixtures.CoreTags Mocks.registry_one)
           (Mocks.initial []) _ _ _ PreStart Hsplit Hpre).
Defined.

Lemma missing_hook_is_noop_witness :
  Mocks.StartStopObserver "1" PreStart = None
  /\ get (ctx Mocks.registry_one) "my-observer"
     = inr (Mocks.StartStopObserver "1")
  /\ skips_missing_hook Mocks.registry_one (Mocks.StartStopObserver "1")
       PreStart (Fixtures.givenConstantBinding "my-observer" None)
       (Mocks.initial []).
Proof.
  split; [reflexivity|]. split; [reflexivity|].
  apply missing_hook_is_noop; reflexivity.
Defined.

Lemma only_constant_or_singleton_notified_witness :
  Mocks.transient_binding ∈ registry (ctx Mocks.registry_transient)
  /\ Mocks.transient_binding
       ∉ findObserverBindings Fixtures.CoreTags Mocks.registry_transient.
Proof.
  split; [apply list_elem_of_here|].
  apply (proj1 (proj2 (only_constant_or_singleton_notified Fixtures.CoreTags
                         Mocks.registry_transient))); discriminate.
Defined.

(** ** The scenarios of the test suite *)

(** An observer with [start] and [stop] only: the other events leave no
    entry and raise no error. *)
Example optional_hooks :
  let started :=
    start Fixtures.CoreTags Mocks.registry_one (Mocks.initial []) in
  let stopped := stop Fixtures.CoreTags Mocks.registry_one started.2 in
  started.1 = Fulfilled /\ stopped.1 = Fulfilled
  /\ world stopped.2 = ["start-1"; "stop-1"].
Proof. vm_compute. by repeat split. Qed.

(** A failing hook, members notified one after the other: the first member
    has started, the run is rejected with the error of the second, and the
    event postStart is never begun. *)
Example serial_failure :
  let r := start Fixtures.CoreTags
             (Mocks.registry_failing (Some (mkOptions (Some false))))
             (Mocks.initial []) in
  r.1 = Rejected "cannot start"
  /\ world r.2 = ["start-h1"]
  /\ Beginning PostStart ∉ log r.2.
Proof.
  vm_compute. split; [done|]. split; [done|].
  intros H. repeat (apply elem_of_cons in H as [H|H]; [discriminate|]).
  by apply elem_of_nil in H.
Qed.

(** The transient observer is not notified; the singleton one is. *)
Example transient_not_notified :
  gets_of (actions_of (start Fixtures.CoreTags Mocks.registry_transient)
             (Mocks.initial []))
  = [("my-observer", PreStart); ("my-observer", Start);
     ("my-observer", PostStart)].
Proof. vm_compute. reflexivity. Qed.

(** * Further properties of the registry *)

(** ** The group of a binding *)

Lemma Array_find_first {A : Type} (p : A -> bool) (pre post : list A)
  (x : A) :
  Forall (fun y => p y = false) pre -> p x = true ->
  Array_find p (pre ++ x :: post) = Some x.
Proof.
  induction 1 as [|y pre Hy _ IH]; intros Hx; simpl.
  - by rewrite Hx.
  - rewrite Hy. by apply IH.
Qed.

Lemma Array_find_Some {A : Type} (p : A -> bool) (l : list A) (x : A) :
  Array_find p l = Some x -> x ∈ l /\ p x = true.
Proof.
  induction l as [|y l IH]; simpl; [done|].
  destruct (p y) eqn:Hy.
  - intros [= ->]. split; [apply list_elem_of_here | done].
  - intros H. destruct (IH H). split; [by apply list_elem_of_further | done].
Qed.

Lemma Array_find_None {A : Type} (p : A -> bool) (l : list A) :
  Forall (fun y => p y = false) l -> Array_find p l = None.
Proof. induction 1 as [|y l Hy _ IH]; simpl; [done|]. by rewrite Hy. Qed.

(** X1: An explicit group tag decides the group, whatever the configured order
    is; an empty group tag is ignored, the group is that of the binding
    without the tag. *)
Theorem getObserverGroup_explicit (CoreTags : Tags) (order : list string)
  (b : Binding) (g : string) :
  tagMap b !! LIFE_CYCLE_OBSERVER_GROUP CoreTags = Some g ->
  (g <> "" -> getObserverGroup CoreTags order b = g)
  /\ (g = "" -> LIFE_CYCLE_OBSERVER_GROUP CoreTags <> "" ->
      getObserverGroup CoreTags order b
      = getObserverGroup CoreTags order
          (mkBinding (key b) (scope b) (type b)
             (delete (LIFE_CYCLE_OBSERVER_GROUP CoreTags) (tagMap b)))).
Proof.
  intros Htag. unfold getObserverGroup. rewrite Htag. simpl. split.
  - intros Hne. apply String.eqb_neq in Hne. rewrite Hne. simpl.
    by rewrite Hne.
  - intros -> Hname. simpl. rewrite lookup_delete_eq. simpl.
    assert (Hfind : forall l,
      Array_find (fun g => bool_decide (tagMap b !! g = Some g)) l
      = Array_find
          (fun g => bool_decide
             (delete (LIFE_CYCLE_OBSERVER_GROUP CoreTags) (tagMap b) !! g
              = Some g)) l).
    { induction l as [|x l IH]; [done|]. simpl. rewrite IH.
      destruct (decide (LIFE_CYCLE_OBSERVER_GROUP CoreTags = x)) as [<-|Hne].
      - rewrite Htag, lookup_delete_eq.
        rewrite !bool_decide_eq_false_2; [done|done|].
        intros [= Heq]. by apply Hname.
      - by rewrite lookup_delete_ne. }
    by rewrite Hfind.
Qed.

Lemma getObserverGroup_explicit_witness :
  tagMap (Fixtures.givenObserverBinding "my-observer" (Some "g1"))
    !! LIFE_CYCLE_OBSERVER_GROUP Fixtures.CoreTags = Some "g1"
  /\ getObserverGroup Fixtures.CoreTags ["server"]
       (Fixtures.givenObserverBinding "my-observer" (Some "g1")) = "g1"
  /\ tagMap Edge.empty_group_server
       !! LIFE_CYCLE_OBSERVER_GROUP Fixtures.CoreTags = Some ""
  /\ getObserverGroup Fixtures.CoreTags ["server"] Edge.empty_group_server
     = getObserverGroup Fixtures.CoreTags ["server"]
         (mkBinding (key Edge.empty_group_server)
            (scope Edge.empty_group_server) (type Edge.empty_group_server)
            (delete (LIFE_CYCLE_OBSERVER_GROUP Fixtures.CoreTags)
               (tagMap Edge.empty_group_server))).
Proof.
  split; [reflexivity|]. split; [|split; [reflexivity|]].
  - apply (getObserverGroup_explicit Fixtures.CoreTags ["server"]
             (Fixtures.givenObserverBinding "my-observer" (Some "g1")) "g1");
      [reflexivity | discriminate].
  - apply (getObserverGroup_explicit Fixtures.CoreTags ["server"]
             Edge.empty_group_server "");
      [reflexivity | reflexivity | discriminate].
Defined.

(** X2: Without a group tag the group is the first name of the configured order
    that the binding carries as a tag of the same value, and the empty
    string when there is none. *)
Theorem getObserverGroup_fallback (CoreTags : Tags) (order : list string)
  (b : Binding) :
  truthy (tagMap b !! LIFE_CYCLE_OBSERVER_GROUP CoreTags) = false ->
  (forall pre g post,
     order = pre ++ g :: post ->
     Forall (fun g' => tagMap b !! g' <> Some g') pre ->
     tagMap b !! g = Some g ->
     getObserverGroup CoreTags order b = g)
  /\ (Forall (fun g' => tagMap b !! g' <> Some g') order ->
      getObserverGroup CoreTags order b = "")
  /\ (getObserverGroup CoreTags order b <> "" ->
      getObserverGroup CoreTags order b ∈ order
      /\ tagMap b !! getObserverGroup CoreTags order b
         = Some (getObserverGroup CoreTags order b)).
Proof.
  intros Hno. unfold getObserverGroup. rewrite Hno.
  split; [|split].
  - intros pre g post -> Hpre Hg.
    rewrite (Array_find_first _ pre post g).
    + simpl. destruct (String.eqb_spec g ""); by subst.
    + eapply Forall_impl; [exact Hpre|]. intros g' Hg'.
      by apply bool_decide_eq_false.
    + by apply bool_decide_eq_true.
  - intros Hnone. rewrite Array_find_None; [done|].
    eapply Forall_impl; [exact Hnone|]. intros g' Hg'.
    by apply bool_decide_eq_false.
  - destruct (Array_find _ order) as [g|] eqn:Hfind; simpl; [|done].
    apply Array_find_Some in Hfind as [Hin Hg].
    apply bool_decide_eq_true in Hg.
    destruct (String.eqb_spec g ""); simpl; [done|]. by intros _.
Qed.

Lemma getObserverGroup_fallback_witness :
  truthy (tagMap (Fixtures.givenServerBinding "server-2" None)
            !! LIFE_CYCLE_OBSERVER_GROUP Fixtures.CoreTags) = false
  /\ getObserverGroup Fixtures.CoreTags ["g1"; "server"]
       (Fixtures.givenServerBinding "server-2" None) = "server".
Proof.
  split; [reflexivity|].
  apply (proj1 (getObserverGroup_fallback Fixtures.CoreTags ["g1"; "server"]
                  (Fixtures.givenServerBinding "server-2" None) eq_refl)
           ["g1"] "server" []); [reflexivity| |reflexivity].
  constructor; [discriminate | constructor].
Defined.

(** ** More on the order and the shape of the groups *)

Lemma sorted_groups_sorted (CoreTags : Tags) (order : list string)
  (bs : list Binding) :
  StronglySorted (key_le (fun g => indexOf order (group g)))
    (sortObserverBindingsByGroup CoreTags order bs).
Proof.
  unfold sortObserverBindingsByGroup.
  by apply (Array_sort_sorted (fun g => indexOf order (group g))).
Qed.

Lemma groups_follow_configured_order_aux (CoreTags : Tags)
  (order : list string) (bs : list Binding) (i j : nat)
  (gi gj : LifeCycleObserverGroup) :
  sortObserverBindingsByGroup CoreTags order bs !! i = Some gi ->
  sortObserverBindingsByGroup CoreTags order bs !! j = Some gj ->
  indexOf order (group gi) < indexOf order (group gj) ->
  (i < j)%nat.
Proof.
  intros Hi Hj Hlt.
  eapply (sorted_lookup_lt (fun g => indexOf order (group g)));
    [apply sorted_groups_sorted | exact Hi | exact Hj | exact Hlt].
Qed.

(** X3: The groups are ordered by the position of their label in the
    configured order: a label that [indexOf] finds earlier (or not at all)
    puts its group at a smaller index. *)
Theorem groups_follow_configured_order (CoreTags : Tags)
  (order : list string) (bs : list Binding) (i j : nat)
  (gi gj : LifeCycleObserverGroup) :
  sortObserverBindingsByGroup CoreTags order bs !! i = Some gi ->
  sortObserverBindingsByGroup CoreTags order bs !! j = Some gj ->
  indexOf order (group gi) < indexOf order (group gj) ->
  (i < j)%nat.
Proof. apply groups_follow_configured_order_aux. Qed.

Lemma groups_follow_configured_order_witness :
  let bs := [Fixtures.givenObserverBinding "o2" (Some "g2");
             Fixtures.givenObserverBinding "o1" (Some "g1")] in
  sortObserverBindingsByGroup Fixtures.CoreTags ["g1"; "g2"] bs !! 0%nat
  = Some (mkGroup "g1" [Fixtures.givenObserverBinding "o1" (Some "g1")])
  /\ sortObserverBindingsByGroup Fixtures.CoreTags ["g1"; "g2"] bs !! 1%nat
     = Some (mkGroup "g2" [Fixtures.givenObserverBinding "o2" (Some "g2")])
  /\ indexOf ["g1"; "g2"] "g1" < indexOf ["g1"; "g2"] "g2"
  /\ (0 < 1)%nat.
Proof.
  intros bs.
  assert (H0 : sortObserverBindingsByGroup Fixtures.CoreTags ["g1"; "g2"] bs
               !! 0%nat
               = Some (mkGroup "g1"
                         [Fixtures.givenObserverBinding "o1" (Some "g1")]))
    by (vm_compute; reflexivity).
  assert (H1 : sortObserverBindingsByGroup Fixtures.CoreTags ["g1"; "g2"] bs
               !! 1%nat
               = Some (mkGroup "g2"
                         [Fixtures.givenObserverBinding "o2" (Some "g2")]))
    by (vm_compute; reflexivity).
  assert (Hlt : indexOf ["g1"; "g2"] "g1" < indexOf ["g1"; "g2"] "g2")
    by (vm_compute; reflexivity).
  split; [exact H0|]. split; [exact H1|]. split; [exact Hlt|].
  exact (groups_follow_configured_order Fixtures.CoreTags ["g1"; "g2"] bs
           0 1 _ _ H0 H1 Hlt).
Defined.

(** X4: With the default order ['server'] the group of the servers, when there
    is one, is the last group. *)
Theorem server_group_is_last (CoreTags : Tags) (bs : list Binding) (i : nat)
  (g : LifeCycleObserverGroup) :
  sortObserverBindingsByGroup CoreTags ["server"] bs !! i = Some g ->
  group g = "server" ->
  S i = length (sortObserverBindingsByGroup CoreTags ["server"] bs).
Proof.
  intros Hi Hg.
  set (gs := sortObserverBindingsByGroup CoreTags ["server"] bs) in *.
  pose proof (lookup_lt_Some _ _ _ Hi) as Hlt.
  destruct (decide (S i = length gs)) as [|Hne]; [done|exfalso].
  destruct (lookup_lt_is_Some_2 gs (S i)) as [gj Hj]; [lia|].
  assert (Hlabel : group gj <> "server").
  { intros Heq.
    pose proof (NoDup_sorted_labels CoreTags ["server"] bs) as Hnd.
    fold gs in Hnd.
    assert (H1 : map group gs !! i = Some "server")
      by (by rewrite list_lookup_fmap, Hi; simpl; rewrite Hg).
    assert (H2 : map group gs !! S i = Some "server")
      by (by rewrite list_lookup_fmap, Hj; simpl; rewrite Heq).
    pose proof (NoDup_lookup _ _ _ _ Hnd H1 H2). lia. }
  assert (Hk : indexOf ["server"] (group gj) < indexOf ["server"] (group g)).
  { assert (H1 : indexOf ["server"] (group gj) = -1).
    { apply indexOf_absent. by rewrite list_elem_of_singleton. }
    assert (H2 : 0 <= indexOf ["server"] (group g)).
    { apply indexOf_present. rewrite Hg. apply list_elem_of_here. }
    lia. }
  pose proof (groups_follow_configured_order_aux CoreTags ["server"] bs
                (S i) i gj g Hj Hi Hk). lia.
Qed.

Lemma server_group_is_last_witness :
  let bs := [Fixtures.givenServerBinding "server-1" None;
             Fixtures.givenObserverBinding "my-observer" (Some "g1")] in
  sortObserverBindingsByGroup Fixtures.CoreTags ["server"] bs !! 1%nat
  = Some (mkGroup "server" [Fixtures.givenServerBinding "server-1" None])
  /\ 2%nat = length (sortObserverBindingsByGroup Fixtures.CoreTags ["server"] bs).
Proof.
  intros bs.
  assert (H1 : sortObserverBindingsByGroup Fixtures.CoreTags ["server"] bs
               !! 1%nat
               = Some (mkGroup "server"
                         [Fixtures.givenServerBinding "server-1" None]))
    by (vm_compute; reflexivity).
  split; [exact H1|].
  exact (server_group_is_last Fixtures.CoreTags bs 1 _ H1 eq_refl).
Defined.

Lemma first_seen_length (l : list string) :
  (length (first_seen l) <= length l)%nat.
Proof.
  induction l as [|x l IH]; simpl; [lia|].
  pose proof (length_filter (fun y => y <> x) (first_seen l)). lia.
Qed.

(** X5: No group is empty, no two groups have the same label, and there are at
    most as many groups as entries: none for no entry. *)
Theorem groups_are_nonempty (CoreTags : Tags) (order : list string)
  (bs : list Binding) :
  let gs := sortObserverBindingsByGroup CoreTags order bs in
  (forall g, g ∈ gs -> bindings g <> [])
  /\ NoDup (map group gs)
  /\ (length gs <= length bs)%nat.
Proof.
  intros gs. split; [|split].
  - intros g Hg Hnil. apply elem_of_sorted_groups in Hg as [Hl Hm].
    apply list_elem_of_fmap in Hl as (b & Hb & Hin).
    assert (Hmem : b ∈ members CoreTags order bs (group g)).
    { unfold members. by apply list_elem_of_filter. }
    rewrite <- Hm, Hnil in Hmem. by apply elem_of_nil in Hmem.
  - apply NoDup_sorted_labels.
  - unfold gs. rewrite (sortObserverBindingsByGroup_perm CoreTags order bs).
    unfold unsorted_groups. rewrite length_map.
    etransitivity; [apply first_seen_length|]. by rewrite length_map.
Qed.

Lemma Array_sort_ties {A : Type} (cmp : A -> A -> Z) (l : list A) :
  (forall x y, cmp x y = 0) -> Array_sort cmp l = l.
Proof.
  intros Hcmp. induction l as [|x l IH]; simpl; [done|].
  rewrite IH. destruct l as [|y l]; simpl; [done|]. by rewrite Hcmp.
Qed.

(** X6: [setGroupsByOrder] falls back to ['server'] for a missing argument
    only: an empty order is kept, and then no label is configured and the
    groups come in the order in which their labels are first seen. *)
Theorem empty_order_keeps_first_seen {W : Type} (CoreTags : Tags)
  (this : LifeCycleObserverRegistry W) :
  groupsByOrder (setGroupsByOrder this None) = ["server"]
  /\ groupsByOrder (setGroupsByOrder this (Some [])) = []
  /\ map group
       (getObserverGroupsByOrder CoreTags (setGroupsByOrder this (Some [])))
     = first_seen (map (getObserverGroup CoreTags [])
                     (findObserverBindings CoreTags this)).
Proof.
  split; [done|]. split; [done|].
  unfold getObserverGroupsByOrder, sortObserverBindingsByGroup. simpl.
  rewrite Array_sort_ties by done.
  rewrite groups_of_spec. unfold unsorted_groups.
  rewrite map_map. simpl. by rewrite map_id.
Qed.

(** ** More on the runs of [start] and [stop] *)

(** X7: [start] notifies the three start events only, [stop] the three stop
    events only. *)
Theorem start_and_stop_keep_to_their_events {W : Type} (CoreTags : Tags)
  (this : LifeCycleObserverRegistry W) (st : State W) :
  Forall (fun a => action_event a ∈ [PreStart; Start; PostStart])
    (actions_of (start CoreTags this) st)
  /\ Forall (fun a => action_event a ∈ [PreStop; Stop; PostStop])
       (actions_of (stop CoreTags this) st).
Proof.
  split.
  - pose proof (notifyGroups_trace this [PreStart; Start; PostStart]
                  (getObserverGroupsByOrder CoreTags this) st) as Hpt.
    apply pass_trace_facts in Hpt as (Hab & _).
    eapply Forall_impl; [exact Hab|]. by intros a [Ha _].
  - pose proof (notifyGroups_trace this [PreStop; Stop; PostStop]
                  (reverse (getObserverGroupsByOrder CoreTags this)) st)
      as Hpt.
    apply pass_trace_facts in Hpt as (Hab & _).
    eapply Forall_impl; [exact Hab|]. by intros a [Ha _].
Qed.

(** X8: When no observer is discovered, [start] and [stop] are fulfilled, look
    nothing up and call nothing: they only log the beginning and the end of
    their three events. *)
Theorem no_observer_nothing_notified {W : Type} (CoreTags : Tags)
  (this : LifeCycleObserverRegistry W) (st : State W) :
  findObserverBindings CoreTags this = [] ->
  start CoreTags this st
  = (Fulfilled,
     mkState (world st)
       (log st ++ [Beginning PreStart; Finished PreStart; Beginning Start;
                   Finished Start; Beginning PostStart; Finished PostStart])
       (oracle st))
  /\ stop CoreTags this st
     = (Fulfilled,
        mkState (world st)
          (log st ++ [Beginning PreStop; Finished PreStop; Beginning Stop;
                      Finished Stop; Beginning PostStop; Finished PostStop])
          (oracle st)).
Proof.
  intros Hnone. unfold start, stop, getObserverGroupsByOrder.
  rewrite Hnone. simpl. unfold add_log. simpl.
  by rewrite <- !app_assoc.
Qed.

Lemma no_observer_nothing_notified_witness :
  findObserverBindings Fixtures.CoreTags Edge.registry_none = []
  /\ start Fixtures.CoreTags Edge.registry_none (Mocks.initial [])
     = (Fulfilled,
        mkState []
          [Beginning PreStart; Finished PreStart; Beginning Start;
           Finished Start; Beginning PostStart; Finished PostStart]
          []).
Proof.
  split; [reflexivity|].
  apply (no_observer_nothing_notified Fixtures.CoreTags Edge.registry_none
           (Mocks.initial [])).
  reflexivity.
Defined.

Lemma discovered_in_group {W : Type} (CoreTags : Tags)
  (this : LifeCycleObserverRegistry W) (b : Binding) :
  b ∈ findObserverBindings CoreTags this ->
  exists g, g ∈ getObserverGroupsByOrder CoreTags this /\ b ∈ bindings g.
Proof.
  intros Hb. unfold getObserverGroupsByOrder.
  set (bs := findObserverBindings CoreTags this) in *.
  set (l := getObserverGroup CoreTags (groupsByOrder this) b).
  exists (mkGroup l (members CoreTags (groupsByOrder this) bs l)). split.
  - apply elem_of_sorted_groups. simpl. split; [|done].
    by apply (list_elem_of_fmap_2
                (getObserverGroup CoreTags (groupsByOrder this))).
  - simpl. unfold members. by apply list_elem_of_filter.
Qed.

(** X9: When the key of a discovered binding does not resolve to an instance,
    [start] and [stop] are rejected, in serial and in parallel mode. *)
Theorem unresolvable_entry_rejects {W : Type} (CoreTags : Tags)
  (this : LifeCycleObserverRegistry W) (st : State W) (b : Binding)
  (e : Error) :
  b ∈ findObserverBindings CoreTags this ->
  get (ctx this) (key b) = inl e ->
  (exists e', (start CoreTags this st).1 = Rejected e')
  /\ (exists e', (stop CoreTags this st).1 = Rejected e').
Proof.
  intros Hb Hget.
  destruct (discovered_in_group CoreTags this b Hb) as (g & Hg & Hbg).
  split.
  - destruct (notifyGroups_failure_propagates this [PreStart; Start; PostStart]
                (getObserverGroupsByOrder CoreTags this) st)
      as (_ & _ & Hful & _).
    unfold start. destruct (notifyGroups _ _ _ st).1 as [|e'];
      [|by exists e'].
    destruct (Hful eq_refl) as [_ Hok].
    destruct (Hok PreStart g b) as (o & Hget' & _);
      [apply list_elem_of_here|done|done|]. congruence.
  - destruct (notifyGroups_failure_propagates this [PreStop; Stop; PostStop]
                (reverse (getObserverGroupsByOrder CoreTags this)) st)
      as (_ & _ & Hful & _).
    unfold stop. destruct (notifyGroups _ _ _ st).1 as [|e'];
      [|by exists e'].
    destruct (Hful eq_refl) as [_ Hok].
    destruct (Hok PreStop g b) as (o & Hget' & _);
      [apply list_elem_of_here|by apply elem_of_reverse|done|]. congruence.
Qed.

Lemma unresolvable_entry_rejects_witness :
  Fixtures.givenObserverBinding "my-observer" None
    ∈ findObserverBindings Fixtures.CoreTags (Edge.registry_unbound None)
  /\ get (ctx (Edge.registry_unbound None)) "my-observer"
     = inl "The key my-observer was not bound to any value."
  /\ (exists e',
        (start Fixtures.CoreTags (Edge.registry_unbound None)
           (Mocks.initial [])).1 = Rejected e').
Proof.
  assert (Hin : Fixtures.givenObserverBinding "my-observer" None
                  ∈ findObserverBindings Fixtures.CoreTags
                      (Edge.registry_unbound None))
    by (vm_compute; apply list_elem_of_here).
  split; [exact Hin|]. split; [reflexivity|].
  exact (proj1 (unresolvable_entry_rejects Fixtures.CoreTags
                  (Edge.registry_unbound None) (Mocks.initial [])
                  (Fixtures.givenObserverBinding "my-observer" None) _
                  Hin eq_refl)).
Defined.

(** X10: When every group has at most one member, the parallel mode gives the
    outcome, the world and the log of the serial mode, whatever the order
    of resumption is. *)
Theorem single_member_groups_parallel_as_serial {W : Type} (CoreTags : Tags)
  (this : LifeCycleObserverRegistry W) (st : State W) :
  Forall small (getObserverGroupsByOrder CoreTags this) ->
  same_run (start CoreTags (with_parallel this true) st)
    (start CoreTags (with_parallel this false) st)
  /\ same_run (stop CoreTags (with_parallel this true) st)
       (stop CoreTags (with_parallel this false) st).
Proof.
  intros Hsmall. split.
  - apply (notifyGroups_small this); [exact Hsmall | apply same_state_refl].
  - apply (notifyGroups_small this); [|apply same_state_refl].
    by apply Forall_reverse.
Qed.

Lemma single_member_groups_parallel_as_serial_witness :
  Forall small
    (getObserverGroupsByOrder Fixtures.CoreTags (Mocks.registry_AB None))
  /\ same_run
       (start Fixtures.CoreTags (with_parallel (Mocks.registry_AB None) true)
          (Mocks.initial [[5; 0; 3]%nat]))
       (start Fixtures.CoreTags (with_parallel (Mocks.registry_AB None) false)
          (Mocks.initial [[5; 0; 3]%nat])).
Proof.
  assert (Hs : Forall small
            (getObserverGroupsByOrder Fixtures.CoreTags
               (Mocks.registry_AB None))).
  { vm_compute. repeat constructor. }
  split; [exact Hs|].
  exact (proj1 (single_member_groups_parallel_as_serial Fixtures.CoreTags
                  (Mocks.registry_AB None) (Mocks.initial [[5; 0; 3]%nat])
                  Hs)).
Defined.

(** ** Serial mode does not depend on the order of resumption *)

Section SerialMode.

Context {W : Type} (this : LifeCycleObserverRegistry W).
Hypothesis serial : is_parallel (options this) = false.

Lemma loop_serial_same (ev : LifeCycleEvent) (bs : list Binding) :
  forall (notifiers : list Task) (st1 st2 : State W),
    same_state st1 st2 ->
    let r1 := notifyObserverGroup_loop this ev bs notifiers st1 in
    let r2 := notifyObserverGroup_loop this ev bs notifiers st2 in
    r1.1 = r2.1 /\ same_state r1.2 r2.2 /\ oracle r1.2 = oracle st1.
Proof.
  induction bs as [|b bs IH]; intros notifiers st1 st2 Hst; simpl.
  - done.
  - rewrite serial.
    destruct (notifyObserver_same this ev b st1 st2 Hst) as [Hout Hs].
    destruct (notifyObserver_spec this ev b st1) as [Hor _].
    destruct (notifyObserver this ev b st1) as [o1 sa].
    destruct (notifyObserver this ev b st2) as [o2 sb].
    simpl in *. subst o2. destruct o1 as [|e]; [|done].
    destruct (IH notifiers sa sb Hs) as (H1 & H2 & H3).
    split; [done|]. split; [done|]. congruence.
Qed.

Lemma notifyObserverGroup_serial_same (ev : LifeCycleEvent)
  (g : LifeCycleObserverGroup) (st1 st2 : State W) :
  same_state st1 st2 ->
  same_run (notifyObserverGroup this g ev st1)
    (notifyObserverGroup this g ev st2)
  /\ oracle (notifyObserverGroup this g ev st1).2 = oracle st1.
Proof.
  intros Hst. unfold notifyObserverGroup. rewrite serial.
  destruct (loop_serial_same ev (bindings g) []
              (add_log (NotifyingGroup (group g) ev) st1)
              (add_log (NotifyingGroup (group g) ev) st2))
    as (Hout & Hs & Hor); [by apply same_state_add_log|].
  destruct (notifyObserverGroup_loop this ev (bindings g) [] _)
    as [[o1 ts1] sa].
  destruct (notifyObserverGroup_loop this ev (bindings g) [] _)
    as [[o2 ts2] sb].
  simpl in *. injection Hout as -> ->.
  destruct o2 as [|e]; simpl.
  - split; [split; [done|by apply same_state_add_log]|done].
  - by split.
Qed.

Lemma notifyGroups_event_serial_same (ev : LifeCycleEvent)
  (groups : list LifeCycleObserverGroup) :
  forall st1 st2 : State W,
    same_state st1 st2 ->
    same_run (notifyGroups_event this ev groups st1)
      (notifyGroups_event this ev groups st2)
    /\ oracle (notifyGroups_event this ev groups st1).2 = oracle st1.
Proof.
  induction groups as [|g groups IH]; intros st1 st2 Hst; simpl.
  - by split.
  - destruct (notifyObserverGroup_serial_same ev g st1 st2 Hst)
      as [[Hout Hs] Hor].
    destruct (notifyObserverGroup this g ev st1) as [o1 sa].
    destruct (notifyObserverGroup this g ev st2) as [o2 sb].
    simpl in *. subst o2. destruct o1 as [|e]; [|by split].
    destruct (IH sa sb Hs) as [Hrun Hor']. split; [done|]. congruence.
Qed.

Lemma notifyGroups_serial_same (events : list LifeCycleEvent)
  (groups : list LifeCycleObserverGroup) :
  forall st1 st2 : State W,
    same_state st1 st2 ->
    same_run (notifyGroups this events groups st1)
      (notifyGroups this events groups st2)
    /\ oracle (notifyGroups this events groups st1).2 = oracle st1.
Proof.
  induction events as [|ev events IH]; intros st1 st2 Hst; simpl.
  - by split.
  - destruct (notifyGroups_event_serial_same ev groups
                (add_log (Beginning ev) st1) (add_log (Beginning ev) st2))
      as [[Hout Hs] Hor]; [by apply same_state_add_log|].
    destruct (notifyGroups_event this ev groups (add_log _ st1)) as [o1 sa].
    destruct (notifyGroups_event this ev groups (add_log _ st2)) as [o2 sb].
    simpl in *. subst o2. destruct o1 as [|e]; [|by split].
    destruct (IH (add_log (Finished ev) sa) (add_log (Finished ev) sb))
      as [Hrun Hor']; [by apply same_state_add_log|].
    split; [done|]. simpl in Hor'. congruence.
Qed.

End SerialMode.

(** X11: In serial mode a run of [start] or [stop] is the same for every order
    in which promises could settle: outcome, world and log do not depend
    on the oracle, which is left as it was. *)
Theorem serial_mode_ignores_timing {W : Type} (CoreTags : Tags)
  (this : LifeCycleObserverRegistry W) (st1 st2 : State W) :
  is_parallel (options this) = false ->
  same_state st1 st2 ->
  (same_run (start CoreTags this st1) (start CoreTags this st2)
   /\ oracle (start CoreTags this st1).2 = oracle st1)
  /\ (same_run (stop CoreTags this st1) (stop CoreTags this st2)
      /\ oracle (stop CoreTags this st1).2 = oracle st1).
Proof.
  intros Hser Hst. split; by apply notifyGroups_serial_same.
Qed.

Lemma serial_mode_ignores_timing_witness :
  is_parallel (options Scenario.registry_datasources) = false
  /\ same_state (Mocks.initial [[1; 0]%nat]) (Mocks.initial [])
  /\ same_run
       (start Fixtures.CoreTags Scenario.registry_datasources
          (Mocks.initial [[1; 0]%nat]))
       (start Fixtures.CoreTags Scenario.registry_datasources
          (Mocks.initial [])).
Proof.
  split; [reflexivity|]. split; [split; reflexivity|].
  apply (serial_mode_ignores_timing Fixtures.CoreTags
           Scenario.registry_datasources
           (Mocks.initial [[1; 0]%nat]) (Mocks.initial []));
    [reflexivity | split; reflexivity].
Defined.

(** ** The earlier design: sorting the bindings *)

(** Two sorted lists that hold, for each key, the same elements in the
    same order are one list. *)
Lemma stable_sorted_unique {A : Type} (keyOf : A -> Z) (l1 : list A) :
  forall l2 : list A,
    StronglySorted (key_le keyOf) l1 ->
    StronglySorted (key_le keyOf) l2 ->
    (forall c, filter (fun x => keyOf x = c) l1
               = filter (fun x => keyOf x = c) l2) ->
    l1 = l2.
Proof.
  induction l1 as [|x l1 IH]; intros [|y l2] Hs1 Hs2 Hf.
  - done.
  - specialize (Hf (keyOf y)). rewrite filter_nil, filter_cons in Hf.
    by rewrite decide_True in Hf.
  - specialize (Hf (keyOf x)). rewrite filter_nil, filter_cons in Hf.
    by rewrite decide_True in Hf.
  - apply StronglySorted_inv in Hs1 as [Hs1 Hx].
    apply StronglySorted_inv in Hs2 as [Hs2 Hy].
    rewrite Forall_forall in Hx, Hy. unfold key_le in *.
    assert (Hxy : keyOf x = keyOf y).
    { assert (keyOf y <= keyOf x).
      { assert (Hin : x ∈ filter (fun z => keyOf z = keyOf x) (y :: l2)).
        { rewrite <- Hf, filter_cons, decide_True by done.
          apply list_elem_of_here. }
        apply list_elem_of_filter in Hin as [_ Hin].
        apply elem_of_cons in Hin as [->|Hin]; [lia|by apply Hy]. }
      assert (keyOf x <= keyOf y).
      { assert (Hin : y ∈ filter (fun z => keyOf z = keyOf y) (x :: l1)).
        { rewrite Hf, filter_cons, decide_True by done.
          apply list_elem_of_here. }
        apply list_elem_of_filter in Hin as [_ Hin].
        apply elem_of_cons in Hin as [->|Hin]; [lia|by apply Hx]. }
      lia. }
    pose proof (Hf (keyOf x)) as Hfx.
    rewrite !filter_cons in Hfx.
    rewrite decide_True in Hfx by done.
    rewrite (decide_True (P := keyOf y = keyOf x)) in Hfx by done.
    injection Hfx as -> Hfx. f_equal.
    apply IH; [done|done|]. intros c.
    destruct (decide (c = keyOf y)) as [->|Hne]; [done|].
    specialize (Hf c). rewrite !filter_cons in Hf.
    by rewrite !decide_False in Hf by congruence.
Qed.

Lemma filter_none {A : Type} (P : A -> Prop) `{!forall x, Decision (P x)}
  (l : list A) :
  (forall x, x ∈ l -> ~ P x) -> filter P l = [].
Proof.
  induction l as [|x l IH]; intros Hne; [done|].
  rewrite filter_cons, decide_False by (by apply Hne, list_elem_of_here).
  apply IH. intros y Hy. by apply Hne, list_elem_of_further.
Qed.

Section BindingSort.

Context {W : Type} (CoreTags : Tags)
  (this : LifeCycleContext.ContextWithLifeCycle W).

Local Abbreviation order := (LifeCycleContext.lifeCycleObserverGroups this).
Local Abbreviation index := (group_index CoreTags order).

Lemma compareBindings_keys (b1 b2 : Binding) :
  LifeCycleContext.compareBindings CoreTags this b1 b2 = index b1 - index b2.
Proof. reflexivity. Qed.

Lemma sorted_bindings_perm (bs : list Binding) :
  LifeCycleContext.sortLifeCycleObserverBindings CoreTags this bs ≡ₚ bs.
Proof. apply Array_sort_perm. Qed.

Lemma sorted_bindings_sorted (bs : list Binding) :
  StronglySorted (key_le index)
    (LifeCycleContext.sortLifeCycleObserverBindings CoreTags this bs).
Proof. by apply (Array_sort_sorted index). Qed.

Lemma sorted_bindings_stable (c : Z) (bs : list Binding) :
  filter (fun b => index b = c)
    (LifeCycleContext.sortLifeCycleObserverBindings CoreTags this bs)
  = filter (fun b => index b = c) bs.
Proof. by apply (Array_sort_stable index). Qed.

End BindingSort.

(** X13: [sortLifeCycleObserverBindings] is a stable sort by the position of the
    group in the configured order: it keeps every binding, as often as the
    input has it; a binding whose group stands earlier in the order (or is
    not in it: position -1) stands at a smaller index; the bindings of one
    position keep the order of the input. *)
Theorem sortLifeCycleObserverBindings_stable_sort {W : Type}
  (CoreTags : Tags) (this : LifeCycleContext.ContextWithLifeCycle W)
  (bs : list Binding) :
  let order := LifeCycleContext.lifeCycleObserverGroups this in
  let sorted :=
    LifeCycleContext.sortLifeCycleObserverBindings CoreTags this bs in
  sorted ≡ₚ bs
  /\ (forall i j bi bj,
        sorted !! i = Some bi -> sorted !! j = Some bj ->
        group_index CoreTags order bi < group_index CoreTags order bj ->
        (i < j)%nat)
  /\ (forall c,
        filter (fun b => group_index CoreTags order b = c) sorted
        = filter (fun b => group_index CoreTags order b = c) bs).
Proof.
  intros order sorted. split; [|split].
  - apply sorted_bindings_perm.
  - intros i j bi bj Hi Hj Hlt.
    eapply (sorted_lookup_lt (group_index CoreTags order));
      [apply sorted_bindings_sorted | exact Hi | exact Hj | exact Hlt].
  - intros c. apply sorted_bindings_stable.
Qed.

(** ** The two designs order the bindings alike *)

Section Flatten.

Context (CoreTags : Tags) (order : list string).

Local Abbreviation label := (getObserverGroup CoreTags order).
Local Abbreviation index := (group_index CoreTags order).

Lemma filter_label_groups (bs : list Binding) (l : string)
  (gs : list LifeCycleObserverGroup) :
  NoDup (map group gs) ->
  (forall g, g ∈ gs -> bindings g = members CoreTags order bs (group g)) ->
  filter (fun b => label b = l) (concat (map bindings gs))
  = if decide (l ∈ map group gs) then members CoreTags order bs l else [].
Proof.
  induction gs as [|g gs IH]; intros Hnd Hgs.
  - destruct (decide _) as [Hin|Hin]; [by apply elem_of_nil in Hin|done].
  - rewrite !map_cons, concat_cons in *.
    apply NoDup_cons in Hnd as [Hg Hnd].
    rewrite filter_app, IH; [|done|]; cycle 1.
    { intros g' Hg'. by apply Hgs, list_elem_of_further. }
    rewrite (Hgs g (list_elem_of_here _ _)).
    destruct (decide (group g = l)) as [<-|Hne].
    + rewrite (decide_False (P := group g ∈ map group gs)) by done.
      rewrite decide_True by apply list_elem_of_here.
      rewrite app_nil_r. unfold members.
      rewrite list_filter_filter. apply list_filter_iff. tauto.
    + assert (Hnone : filter (fun b => label b = l)
                        (members CoreTags order bs (group g)) = []).
      { apply filter_none. intros b Hb Hl. unfold members in Hb.
        apply list_elem_of_filter in Hb as [Hb _]. congruence. }
      rewrite Hnone. simpl.
      destruct (decide (l ∈ map group gs)) as [Hin|Hin].
      * rewrite decide_True; [done|]. by apply list_elem_of_further.
      * rewrite decide_False; [done|].
        intros Hin'. apply elem_of_cons in Hin' as [?|?]; auto.
Qed.

Lemma filter_label_sorted_groups (bs : list Binding) (l : string) :
  filter (fun b => label b = l)
    (concat (map bindings (sortObserverBindingsByGroup CoreTags order bs)))
  = filter (fun b => label b = l) bs.
Proof.
  rewrite (filter_label_groups bs).
  - destruct (decide _) as [Hin|Hin]; [done|].
    symmetry. apply (members_absent CoreTags order). intros Hl. apply Hin.
    apply list_elem_of_fmap.
    exists (mkGroup l (members CoreTags order bs l)). split; [done|].
    by apply elem_of_sorted_groups.
  - apply NoDup_sorted_labels.
  - intros g Hg. by apply elem_of_sorted_groups in Hg as [_ Hg].
Qed.

Lemma concat_groups_sorted (gs : list LifeCycleObserverGroup) :
  StronglySorted (key_le (fun g => indexOf order (group g))) gs ->
  (forall g b, g ∈ gs -> b ∈ bindings g -> label b = group g) ->
  StronglySorted (key_le index) (concat (map bindings gs)).
Proof.
  induction gs as [|g gs IH]; intros Hs Hl; simpl; [constructor|].
  apply StronglySorted_inv in Hs as [Hs Hg].
  assert (Hrest : StronglySorted (key_le index) (concat (map bindings gs))).
  { apply IH; [done|]. intros g' b Hg' Hb.
    by apply Hl; [apply list_elem_of_further|]. }
  assert (Hhead : forall b, b ∈ bindings g -> label b = group g).
  { intros b Hb. by apply Hl; [apply list_elem_of_here|]. }
  assert (Hle : forall b, label b = group g ->
            Forall (key_le index b) (concat (map bindings gs))).
  { intros b Hb. apply Forall_forall. intros b' Hb'.
    apply list_elem_of_In, in_concat in Hb' as (m & Hm & Hb').
    apply in_map_iff in Hm as (g' & <- & Hg').
    apply list_elem_of_In in Hg', Hb'.
    rewrite Forall_forall in Hg. specialize (Hg g' Hg').
    unfold key_le, group_index in *. rewrite Hb.
    rewrite (Hl g' b'); [done | by apply list_elem_of_further | done]. }
  induction (bindings g) as [|b m IHm]; simpl; [done|].
  constructor.
  - apply IHm. intros b' Hb'. by apply Hhead, list_elem_of_further.
  - apply Forall_app. split.
    + apply Forall_forall. intros b' Hb'. unfold key_le, group_index.
      rewrite (Hhead b (list_elem_of_here _ _)).
      rewrite (Hhead b'); [done | by apply list_elem_of_further].
    + apply Hle, Hhead, list_elem_of_here.
Qed.

Lemma flattened_groups_sorted (bs : list Binding) :
  StronglySorted (key_le index)
    (concat (map bindings (sortObserverBindingsByGroup CoreTags order bs))).
Proof.
  apply concat_groups_sorted.
  - apply sorted_groups_sorted.
  - intros g b Hg Hb. apply elem_of_sorted_groups in Hg as [_ Hg].
    rewrite Hg in Hb. unfold members in Hb.
    by apply list_elem_of_filter in Hb as [? _].
Qed.

Lemma filter_index_label (bs l : list Binding) (c : Z) :
  index_names_group CoreTags order bs ->
  (forall b, b ∈ l -> b ∈ bs) ->
  forall b0, b0 ∈ bs -> index b0 = c ->
    filter (fun b => index b = c) l
    = filter (fun b => label b = label b0) l.
Proof.
  intros Hidx Hsub b0 Hb0 Hc.
  induction l as [|b l IH]; [done|].
  rewrite !filter_cons.
  assert (Hl : forall b', b' ∈ l -> b' ∈ bs).
  { intros b' Hb'. by apply Hsub, list_elem_of_further. }
  specialize (IH Hl).
  pose proof (Hsub b (list_elem_of_here _ _)) as Hb.
  destruct (decide (index b = c)) as [Hbc|Hbc].
  - rewrite decide_True; [by rewrite IH|].
    apply Hidx; [done|done|congruence].
  - rewrite decide_False; [done|].
    intros Hlab. apply Hbc. unfold group_index in *. by rewrite Hlab.
Qed.

Lemma filter_index_sorted_groups (bs : list Binding) (c : Z) :
  index_names_group CoreTags order bs ->
  filter (fun b => index b = c)
    (concat (map bindings (sortObserverBindingsByGroup CoreTags order bs)))
  = filter (fun b => index b = c) bs.
Proof.
  intros Hidx.
  set (flat := concat (map bindings
                 (sortObserverBindingsByGroup CoreTags order bs))).
  assert (Hsub : forall b, b ∈ flat -> b ∈ bs).
  { intros b. unfold flat. by rewrite concat_sorted_groups. }
  destruct (decide (Exists (fun b => index b = c) bs)) as [Hex|Hex].
  - apply Exists_exists in Hex as (b0 & Hb0 & Hc).
    rewrite (filter_index_label bs flat c Hidx Hsub b0 Hb0 Hc).
    rewrite (filter_index_label bs bs c Hidx (fun _ H => H) b0 Hb0 Hc).
    apply filter_label_sorted_groups.
  - rewrite <- Forall_Exists_neg, Forall_forall in Hex.
    rewrite !filter_none; [done|done|].
    intros b Hb. by apply Hex, Hsub.
Qed.

End Flatten.

Lemma concat_groups_as_sorted {W : Type} (CoreTags : Tags)
  (this : LifeCycleContext.ContextWithLifeCycle W) (bs : list Binding) :
  index_names_group CoreTags
    (LifeCycleContext.lifeCycleObserverGroups this) bs ->
  concat (map bindings
            (sortObserverBindingsByGroup CoreTags
               (LifeCycleContext.lifeCycleObserverGroups this) bs))
  = LifeCycleContext.sortLifeCycleObserverBindings CoreTags this bs.
Proof.
  intros Hidx.
  apply (stable_sorted_unique
           (group_index CoreTags
              (LifeCycleContext.lifeCycleObserverGroups this))).
  - apply flattened_groups_sorted.
  - apply sorted_bindings_sorted.
  - intros c. rewrite sorted_bindings_stable.
    by apply filter_index_sorted_groups.
Qed.

(** X14: When no two groups among the bindings share a position in the
    configured order (at most one group is missing from it), the groups of
    the registry, laid end to end, are the bindings as
    [ContextWithLifeCycle] sorts them. *)
Theorem groups_flatten_to_sorted_bindings {W : Type} (CoreTags : Tags)
  (this : LifeCycleContext.ContextWithLifeCycle W) (bs : list Binding) :
  index_names_group CoreTags
    (LifeCycleContext.lifeCycleObserverGroups this) bs ->
  concat (map bindings
            (sortObserverBindingsByGroup CoreTags
               (LifeCycleContext.lifeCycleObserverGroups this) bs))
  = LifeCycleContext.sortLifeCycleObserverBindings CoreTags this bs.
Proof. apply concat_groups_as_sorted. Qed.

Lemma index_names_group_g1_g2_g1 :
  index_names_group Fixtures.CoreTags ["g1"; "g2"]
    ContextFixtures.observers_g1_g2_g1.
Proof.
  intros b1 b2 H1 H2 Heq. unfold ContextFixtures.observers_g1_g2_g1 in *.
  repeat (apply elem_of_cons in H1 as [->|H1]);
    try (by apply elem_of_nil in H1);
    repeat (apply elem_of_cons in H2 as [->|H2]);
    try (by apply elem_of_nil in H2);
    vm_compute in Heq |- *; congruence.
Qed.

Lemma groups_flatten_to_sorted_bindings_witness :
  index_names_group Fixtures.CoreTags
    (LifeCycleContext.lifeCycleObserverGroups ContextFixtures.context_121)
    ContextFixtures.observers_g1_g2_g1
  /\ concat (map bindings
               (sortObserverBindingsByGroup Fixtures.CoreTags
                  (LifeCycleContext.lifeCycleObserverGroups
                     ContextFixtures.context_121)
                  ContextFixtures.observers_g1_g2_g1))
     = LifeCycleContext.sortLifeCycleObserverBindings Fixtures.CoreTags
         ContextFixtures.context_121 ContextFixtures.observers_g1_g2_g1.
Proof.
  split; [exact index_names_group_g1_g2_g1|].
  apply (groups_flatten_to_sorted_bindings Fixtures.CoreTags
           ContextFixtures.context_121 ContextFixtures.observers_g1_g2_g1).
  exact index_names_group_g1_g2_g1.
Defined.

(** ** The earlier design: notifying the bindings *)

Section Designs.

Context {W : Type} (CoreTags : Tags)
  (this : LifeCycleContext.ContextWithLifeCycle W).

Local Abbreviation reg := (registry_for this).
Local Abbreviation notifyLifeCycleObservers :=
  (LifeCycleContext.notifyLifeCycleObservers this).
Local Abbreviation notifyEvents := (LifeCycleContext.notifyEvents this).

(** The loop of [notifyLifeCycleObservers] is the loop of
    [notifyObserverGroup] in serial mode. *)
Lemma registry_loop_as_context (ev : LifeCycleEvent) (bs : list Binding) :
  forall (ns : list Task) (st : State W),
    notifyObserverGroup_loop reg ev bs ns st
    = ((notifyLifeCycleObservers bs ev st).1, ns,
       (notifyLifeCycleObservers bs ev st).2).
Proof.
  induction bs as [|b bs IH]; intros ns st; [done|].
  cbn [notifyObserverGroup_loop LifeCycleContext.notifyLifeCycleObservers].
  change (is_parallel (options reg)) with false. cbv iota.
  unfold notifyObserver. change (ctx reg) with (LifeCycleContext.super this).
  destruct (get (LifeCycleContext.super this) (key b)) as [e|o]; [done|].
  unfold invokeObserver, LifeCycleContext.invokeLifeCycleObserver.
  destruct (o ev) as [hook|].
  - cbn [world add_log]. destruct (hook (world st)) as [w [e|]]; [done|].
    apply IH.
  - apply IH.
Qed.

Lemma notifyLifeCycleObservers_app (ev : LifeCycleEvent)
  (bs1 bs2 : list Binding) :
  forall st : State W,
    notifyLifeCycleObservers (bs1 ++ bs2) ev st
    = match notifyLifeCycleObservers bs1 ev st with
      | (Fulfilled, st1) => notifyLifeCycleObservers bs2 ev st1
      | (Rejected e, st1) => (Rejected e, st1)
      end.
Proof.
  induction bs1 as [|b bs1 IH]; intros st; [done|].
  cbn [app LifeCycleContext.notifyLifeCycleObservers].
  destruct (get (LifeCycleContext.super this) (key b)) as [e|o]; [done|].
  destruct (LifeCycleContext.invokeLifeCycleObserver o ev _) as [[e|] st'];
    [done|].
  apply IH.
Qed.

Lemma notifyLifeCycleObservers_trace (ev : LifeCycleEvent)
  (bs : list Binding) (st : State W) :
  exists l,
    log (notifyLifeCycleObservers bs ev st).2 = log st ++ l
    /\ members_trace reg ev bs (notifyLifeCycleObservers bs ev st).1 l.
Proof.
  destruct (loop_serial reg ev bs eq_refl [] st) as [_ H].
  by rewrite registry_loop_as_context in H.
Qed.

Lemma map_take_prefix {A B : Type} (f : A -> B) (n : nat) (l : list A) :
  map f (take n l) `prefix_of` map f l.
Proof.
  exists (map f (drop n l)). by rewrite <- map_app, take_drop.
Qed.

Lemma notifyEvents_gets (events : list LifeCycleEvent) (bs : list Binding) :
  forall st : State W,
    exists t,
      log (notifyEvents events bs st).2 = log st ++ t
      /\ gets_of t `prefix_of` binding_gets events bs
      /\ ((notifyEvents events bs st).1 = Fulfilled ->
          gets_of t = binding_gets events bs).
Proof.
  induction events as [|ev events IH]; intros st.
  - exists []. simpl. by rewrite app_nil_r.
  - cbn [LifeCycleContext.notifyEvents].
    destruct (notifyLifeCycleObservers_trace ev bs (add_log (Beginning ev) st))
      as (l & Hlog & Htr).
    change (binding_gets (ev :: events) bs)
      with (map (fun b => (key b, ev)) bs ++ binding_gets events bs).
    destruct (notifyLifeCycleObservers bs ev (add_log (Beginning ev) st))
      as [[|e] st1]; simpl in Hlog, Htr.
    + destruct (IH (add_log (Finished ev) st1)) as (t & Hlog' & Hpre & Hall).
      exists (Beginning ev :: l ++ Finished ev :: t).
      assert (Hgets : gets_of (Beginning ev :: l ++ Finished ev :: t)
                      = map (fun b => (key b, ev)) bs ++ gets_of t).
      { change (Beginning ev :: l ++ Finished ev :: t)
          with ([Beginning ev] ++ l ++ [Finished ev] ++ t).
        rewrite !gets_of_app.
        by rewrite (mt_all_gets _ _ _ _ _ Htr eq_refl). }
      rewrite Hgets. split; [|split].
      * rewrite Hlog'. simpl. rewrite Hlog. by rewrite <- !app_assoc.
      * by apply prefix_app.
      * intros Hout. f_equal. by apply Hall.
    + exists (Beginning ev :: l).
      assert (Hgets : gets_of (Beginning ev :: l) = gets_of l) by done.
      rewrite Hgets. split; [|split].
      * simpl. rewrite Hlog. by rewrite <- !app_assoc.
      * destruct (mt_gets _ _ _ _ _ Htr) as [n ->].
        apply prefix_app_r, map_take_prefix.
      * done.
Qed.

Lemma actions_of_log (run : State W -> Outcome * State W) (st : State W)
  (t : list Action) :
  log (run st).2 = log st ++ t -> actions_of run st = t.
Proof.
  intros Hlog. unfold actions_of. by rewrite Hlog, drop_app_length.
Qed.

(** *** The registry in serial mode against the earlier design *)

Lemma same_but_group_lines_refl (st : State W) :
  same_but_group_lines (log st) st st.
Proof.
  split; [done|]. exists [], []. by rewrite app_nil_r.
Qed.

Lemma same_but_group_lines_step (l0 : list Action) (a : Action)
  (st1 st2 st1' st2' : State W) :
  is_group_line a = false ->
  same_but_group_lines l0 st1 st2 ->
  world st1' = world st2' ->
  log st1' = log st1 ++ [a] -> log st2' = log st2 ++ [a] ->
  same_but_group_lines l0 st1' st2'.
Proof.
  intros Ha [_ (l1 & l2 & H1 & H2 & Hf)] Hw Hl1 Hl2. split; [done|].
  exists (l1 ++ [a]), (l2 ++ [a]). split; [|split].
  - by rewrite Hl1, H1, app_assoc.
  - by rewrite Hl2, H2, app_assoc.
  - unfold without_group_lines in *. rewrite List.filter_app, Hf. simpl.
    by rewrite Ha.
Qed.

Lemma same_but_group_lines_add_log (l0 : list Action) (a : Action)
  (st1 st2 : State W) :
  is_group_line a = false ->
  same_but_group_lines l0 st1 st2 ->
  same_but_group_lines l0 (add_log a st1) (add_log a st2).
Proof.
  intros Ha Hs.
  apply (same_but_group_lines_step l0 a st1 st2); try done. apply Hs.
Qed.

Lemma same_but_group_lines_group (l0 : list Action) (a : Action)
  (st1 st2 : State W) :
  is_group_line a = true ->
  same_but_group_lines l0 st1 st2 ->
  same_but_group_lines l0 (add_log a st1) st2.
Proof.
  intros Ha [Hw (l1 & l2 & H1 & H2 & Hf)]. split; [done|].
  exists (l1 ++ [a]), l2. split; [|split]; [|done|].
  - simpl. by rewrite H1, app_assoc.
  - unfold without_group_lines in *. rewrite List.filter_app, Hf. simpl.
    rewrite Ha. simpl. by rewrite app_nil_r.
Qed.

Lemma invokeLifeCycleObserver_same (l0 : list Action)
  (o : LifeCycleObserver W) (ev : LifeCycleEvent) (st1 st2 : State W) :
  same_but_group_lines l0 st1 st2 ->
  (LifeCycleContext.invokeLifeCycleObserver o ev st1).1
  = (LifeCycleContext.invokeLifeCycleObserver o ev st2).1
  /\ same_but_group_lines l0
       (LifeCycleContext.invokeLifeCycleObserver o ev st1).2
       (LifeCycleContext.invokeLifeCycleObserver o ev st2).2.
Proof.
  intros Hs. unfold LifeCycleContext.invokeLifeCycleObserver.
  destruct (o ev) as [hook|]; [|done].
  pose proof Hs as [Hw _]. rewrite Hw.
  destruct (hook (world st2)) as [w r]. simpl. split; [done|].
  by apply (same_but_group_lines_step l0 (Call ev) st1 st2).
Qed.

Lemma notifyLifeCycleObservers_same (l0 : list Action) (ev : LifeCycleEvent)
  (bs : list Binding) :
  forall st1 st2 : State W,
    same_but_group_lines l0 st1 st2 ->
    (notifyLifeCycleObservers bs ev st1).1
    = (notifyLifeCycleObservers bs ev st2).1
    /\ same_but_group_lines l0 (notifyLifeCycleObservers bs ev st1).2
         (notifyLifeCycleObservers bs ev st2).2.
Proof.
  induction bs as [|b bs IH]; intros st1 st2 Hs; [done|].
  cbn [LifeCycleContext.notifyLifeCycleObservers].
  assert (Hget : same_but_group_lines l0 (add_log (Get (key b) ev) st1)
                   (add_log (Get (key b) ev) st2))
    by (by apply same_but_group_lines_add_log).
  destruct (get (LifeCycleContext.super this) (key b)) as [e|o].
  { split; [done|]. by apply same_but_group_lines_add_log. }
  destruct (invokeLifeCycleObserver_same l0 o ev
              (add_log (NotifyingBinding (key b) ev)
                 (add_log (Get (key b) ev) st1))
              (add_log (NotifyingBinding (key b) ev)
                 (add_log (Get (key b) ev) st2)))
    as [Hr Hs']; [by apply same_but_group_lines_add_log|].
  destruct (LifeCycleContext.invokeLifeCycleObserver o ev
              (add_log _ (add_log _ st1))) as [r1 sa].
  destruct (LifeCycleContext.invokeLifeCycleObserver o ev
              (add_log _ (add_log _ st2))) as [r2 sb].
  simpl in Hr, Hs'. subst r2. destruct r1 as [e|].
  - split; [done|]. by apply same_but_group_lines_add_log.
  - apply IH. by apply same_but_group_lines_add_log.
Qed.

Lemma notifyGroups_event_as_context (l0 : list Action) (ev : LifeCycleEvent)
  (groups : list LifeCycleObserverGroup) :
  forall st1 st2 : State W,
    same_but_group_lines l0 st1 st2 ->
    (notifyGroups_event reg ev groups st1).1
    = (notifyLifeCycleObservers (concat (map bindings groups)) ev st2).1
    /\ same_but_group_lines l0 (notifyGroups_event reg ev groups st1).2
         (notifyLifeCycleObservers (concat (map bindings groups)) ev st2).2.
Proof.
  induction groups as [|g groups IH]; intros st1 st2 Hs; [done|].
  cbn [notifyGroups_event map concat].
  rewrite notifyLifeCycleObservers_app.
  unfold notifyObserverGroup. rewrite registry_loop_as_context.
  change (is_parallel (options reg)) with false. cbv iota.
  destruct (notifyLifeCycleObservers_same l0 ev (bindings g)
              (add_log (NotifyingGroup (group g) ev) st1) st2)
    as [Hout Hs']; [by apply same_but_group_lines_group|].
  destruct (notifyLifeCycleObservers (bindings g) ev (add_log _ st1))
    as [o1 sa].
  destruct (notifyLifeCycleObservers (bindings g) ev st2) as [o2 sb].
  simpl in Hout, Hs'. subst o2. destruct o1 as [|e]; simpl.
  - apply IH. by apply same_but_group_lines_group.
  - done.
Qed.

Lemma notifyGroups_as_context (l0 : list Action)
  (events : list LifeCycleEvent) (groups : list LifeCycleObserverGroup) :
  forall st1 st2 : State W,
    same_but_group_lines l0 st1 st2 ->
    (notifyGroups reg events groups st1).1
    = (notifyEvents events (concat (map bindings groups)) st2).1
    /\ same_but_group_lines l0 (notifyGroups reg events groups st1).2
         (notifyEvents events (concat (map bindings groups)) st2).2.
Proof.
  induction events as [|ev events IH]; intros st1 st2 Hs; [done|].
  cbn [notifyGroups LifeCycleContext.notifyEvents].
  destruct (notifyGroups_event_as_context l0 ev groups
              (add_log (Beginning ev) st1) (add_log (Beginning ev) st2))
    as [Hout Hs']; [by apply same_but_group_lines_add_log|].
  destruct (notifyGroups_event reg ev groups _) as [o1 sa].
  destruct (notifyLifeCycleObservers _ ev _) as [o2 sb].
  simpl in Hout, Hs'. subst o2. destruct o1 as [|e]; [|done].
  apply IH. by apply same_but_group_lines_add_log.
Qed.

Lemma notifyEvents_log (events : list LifeCycleEvent) (bs : list Binding)
  (st : State W) :
  exists t, log (notifyEvents events bs st).2 = log st ++ t.
Proof.
  destruct (notifyEvents_gets events bs st) as (t & Ht & _). by exists t.
Qed.

Lemma as_context_actions (run1 run2 : State W -> Outcome * State W)
  (st : State W) :
  same_but_group_lines (log st) (run1 st).2 (run2 st).2 ->
  world (run1 st).2 = world (run2 st).2
  /\ without_group_lines (actions_of run1 st) = actions_of run2 st.
Proof.
  intros [Hw (l1 & l2 & H1 & H2 & Hf)]. split; [done|].
  by rewrite (actions_of_log run1 st l1 H1), (actions_of_log run2 st l2 H2).
Qed.

End Designs.

Lemma concat_reverse_small (gs : list LifeCycleObserverGroup) :
  Forall small gs ->
  concat (map bindings (reverse gs)) = reverse (concat (map bindings gs)).
Proof.
  induction 1 as [|g gs Hg _ IH]; [done|].
  rewrite reverse_cons, map_app, concat_app, IH. simpl.
  rewrite app_nil_r, reverse_app. f_equal.
  unfold small in Hg. destruct (bindings g) as [|b [|b' m]]; simpl in *;
    [done | done | lia].
Qed.

(** X15: In [ContextWithLifeCycle] a run resolves the discovered bindings in
    sorted order, once for each of the three events, and [stop] takes them
    in exactly the reverse order of [start], inside a group too.  A run
    that is rejected has resolved a first part of that sequence, and no
    other binding. *)
Theorem context_stop_is_exact_reverse {W : Type} (CoreTags : Tags)
  (this : LifeCycleContext.ContextWithLifeCycle W) (st : State W) :
  let bs := LifeCycleContext.findLifeCycleObserverBindings CoreTags this in
  let started := gets_of (actions_of (LifeCycleContext.start CoreTags this) st) in
  let stopped := gets_of (actions_of (LifeCycleContext.stop CoreTags this) st) in
  (started `prefix_of` binding_gets [PreStart; Start; PostStart] bs
   /\ ((LifeCycleContext.start CoreTags this st).1 = Fulfilled ->
       started = binding_gets [PreStart; Start; PostStart] bs))
  /\ (stopped `prefix_of` binding_gets [PreStop; Stop; PostStop] (reverse bs)
      /\ ((LifeCycleContext.stop CoreTags this st).1 = Fulfilled ->
          stopped = binding_gets [PreStop; Stop; PostStop] (reverse bs))).
Proof.
  intros bs started stopped. split.
  - destruct (notifyEvents_gets this [PreStart; Start; PostStart] bs st)
      as (t & Hlog & Hpre & Hall).
    unfold started.
    by rewrite (actions_of_log (LifeCycleContext.start CoreTags this) st t Hlog).
  - destruct (notifyEvents_gets this [PreStop; Stop; PostStop] (reverse bs) st)
      as (t & Hlog & Hpre & Hall).
    unfold stopped.
    by rewrite (actions_of_log (LifeCycleContext.stop CoreTags this) st t Hlog).
Qed.

Lemma context_stop_is_exact_reverse_witness :
  (LifeCycleContext.start Fixtures.CoreTags ContextFixtures.context_121
     (Mocks.initial [])).1 = Fulfilled
  /\ (LifeCycleContext.stop Fixtures.CoreTags ContextFixtures.context_121
        (Mocks.initial [])).1 = Fulfilled
  /\ gets_of (actions_of
                (LifeCycleContext.start Fixtures.CoreTags
                   ContextFixtures.context_121) (Mocks.initial []))
     = binding_gets [PreStart; Start; PostStart]
         (LifeCycleContext.findLifeCycleObserverBindings
            Fixtures.CoreTags ContextFixtures.context_121)
  /\ gets_of (actions_of
                (LifeCycleContext.stop Fixtures.CoreTags
                   ContextFixtures.context_121) (Mocks.initial []))
     = binding_gets [PreStop; Stop; PostStop]
         (reverse (LifeCycleContext.findLifeCycleObserverBindings
                     Fixtures.CoreTags ContextFixtures.context_121)).
Proof.
  split; [reflexivity|]. split; [reflexivity|]. split.
  - apply (proj2 (proj1 (context_stop_is_exact_reverse Fixtures.CoreTags
                           ContextFixtures.context_121 (Mocks.initial [])))).
    reflexivity.
  - apply (proj2 (proj2 (context_stop_is_exact_reverse Fixtures.CoreTags
                           ContextFixtures.context_121 (Mocks.initial [])))).
    reflexivity.
Defined.

(** X16: The registry, set to notify in series, starts as
    [ContextWithLifeCycle] did, when no two groups among the discovered
    bindings share a position in the configured order: [start] settles
    alike, leaves the same world and logs the same actions, the lines
    about groups apart. *)
Theorem serial_registry_starts_as_context {W : Type} (CoreTags : Tags)
  (this : LifeCycleContext.ContextWithLifeCycle W) (st : State W) :
  index_names_group CoreTags (LifeCycleContext.lifeCycleObserverGroups this)
    (findObserverBindings CoreTags (registry_for this)) ->
  (start CoreTags (registry_for this) st).1
  = (LifeCycleContext.start CoreTags this st).1
  /\ world (start CoreTags (registry_for this) st).2
     = world (LifeCycleContext.start CoreTags this st).2
  /\ without_group_lines (actions_of (start CoreTags (registry_for this)) st)
     = actions_of (LifeCycleContext.start CoreTags this) st.
Proof.
  intros Hidx.
  pose proof (concat_groups_as_sorted CoreTags this _ Hidx) as Hflat.
  destruct (notifyGroups_as_context this (log st)
              [PreStart; Start; PostStart]
              (getObserverGroupsByOrder CoreTags (registry_for this))
              st st (same_but_group_lines_refl st)) as [Hout Hs].
  unfold getObserverGroupsByOrder in Hout, Hs at 2.
  change (groupsByOrder (registry_for this))
    with (LifeCycleContext.lifeCycleObserverGroups this) in Hout, Hs.
  rewrite Hflat in Hout, Hs.
  split; [exact Hout|].
  apply (as_context_actions (start CoreTags (registry_for this))
           (LifeCycleContext.start CoreTags this) st Hs).
Qed.

Lemma serial_registry_starts_as_context_witness :
  index_names_group Fixtures.CoreTags
    (LifeCycleContext.lifeCycleObserverGroups ContextFixtures.context_121)
    (findObserverBindings Fixtures.CoreTags
       (registry_for ContextFixtures.context_121))
  /\ without_group_lines
       (actions_of (start Fixtures.CoreTags
                      (registry_for ContextFixtures.context_121))
          (Mocks.initial []))
     = actions_of (LifeCycleContext.start Fixtures.CoreTags
                     ContextFixtures.context_121) (Mocks.initial []).
Proof.
  split; [exact index_names_group_g1_g2_g1|].
  apply (serial_registry_starts_as_context Fixtures.CoreTags
           ContextFixtures.context_121 (Mocks.initial [])
           index_names_group_g1_g2_g1).
Defined.

(** X17: For [stop] the two designs agree in the same way when, besides, every
    group has at most one member: the registry reverses the groups and
    not the members of a group, [ContextWithLifeCycle] reversed the
    bindings. *)
Theorem serial_registry_stops_as_context {W : Type} (CoreTags : Tags)
  (this : LifeCycleContext.ContextWithLifeCycle W) (st : State W) :
  index_names_group CoreTags (LifeCycleContext.lifeCycleObserverGroups this)
    (findObserverBindings CoreTags (registry_for this)) ->
  Forall small (getObserverGroupsByOrder CoreTags (registry_for this)) ->
  (stop CoreTags (registry_for this) st).1
  = (LifeCycleContext.stop CoreTags this st).1
  /\ world (stop CoreTags (registry_for this) st).2
     = world (LifeCycleContext.stop CoreTags this st).2
  /\ without_group_lines (actions_of (stop CoreTags (registry_for this)) st)
     = actions_of (LifeCycleContext.stop CoreTags this) st.
Proof.
  intros Hidx Hsmall.
  pose proof (concat_groups_as_sorted CoreTags this _ Hidx) as Hflat.
  destruct (notifyGroups_as_context this (log st)
              [PreStop; Stop; PostStop]
              (reverse (getObserverGroupsByOrder CoreTags (registry_for this)))
              st st (same_but_group_lines_refl st)) as [Hout Hs].
  rewrite (concat_reverse_small _ Hsmall) in Hout, Hs.
  unfold getObserverGroupsByOrder in Hout, Hs at 2.
  change (groupsByOrder (registry_for this))
    with (LifeCycleContext.lifeCycleObserverGroups this) in Hout, Hs.
  rewrite Hflat in Hout, Hs.
  split; [exact Hout|].
  apply (as_context_actions (stop CoreTags (registry_for this))
           (LifeCycleContext.stop CoreTags this) st Hs).
Qed.

Lemma index_names_group_AB :
  index_names_group Fixtures.CoreTags ["g1"; "g2"]
    [Fixtures.givenConstantBinding "A" (Some "g1");
     Fixtures.givenConstantBinding "B" (Some "g2")].
Proof.
  intros b1 b2 H1 H2 Heq.
  repeat (apply elem_of_cons in H1 as [->|H1]);
    try (by apply elem_of_nil in H1);
    repeat (apply elem_of_cons in H2 as [->|H2]);
    try (by apply elem_of_nil in H2);
    vm_compute in Heq |- *; congruence.
Qed.

Lemma serial_registry_stops_as_context_witness :
  index_names_group Fixtures.CoreTags
    (LifeCycleContext.lifeCycleObserverGroups ContextFixtures.context_AB)
    (findObserverBindings Fixtures.CoreTags
       (registry_for ContextFixtures.context_AB))
  /\ Forall small
       (getObserverGroupsByOrder Fixtures.CoreTags
          (registry_for ContextFixtures.context_AB))
  /\ without_group_lines
       (actions_of (stop Fixtures.CoreTags
                      (registry_for ContextFixtures.context_AB))
          (Mocks.initial []))
     = actions_of (LifeCycleContext.stop Fixtures.CoreTags
                     ContextFixtures.context_AB) (Mocks.initial []).
Proof.
  split; [exact index_names_group_AB|].
  split; [exact (proj1 small_groups_AB)|].
  apply (serial_registry_stops_as_context Fixtures.CoreTags
           ContextFixtures.context_AB (Mocks.initial [])
           index_names_group_AB (proj1 small_groups_AB)).
Defined.

(** ** Recognising and registering observers *)

Lemma registered_is_observer_binding (CoreTags : Tags) (b : Binding) :
  isObserverBinding CoreTags (Lifecycle.asLifeCycleObserverBinding CoreTags b)
  = true.
Proof.
  unfold isObserverBinding, Lifecycle.asLifeCycleObserverBinding. simpl.
  rewrite lookup_insert_eq. simpl.
  by rewrite ?orb_true_r.
Qed.

Lemma fulfilled_pass_processes {W : Type} (this : LifeCycleObserverRegistry W)
  (events : list LifeCycleEvent) (groups : list LifeCycleObserverGroup)
  (st : State W) (g : LifeCycleObserverGroup) (b : Binding)
  (ev : LifeCycleEvent) :
  (notifyGroups this events groups st).1 = Fulfilled ->
  g ∈ groups -> b ∈ bindings g -> ev ∈ events ->
  BindingProcessed (key b) ev ∈ actions_of (notifyGroups this events groups) st.
Proof.
  intros Hout Hg Hb Hev.
  pose proof (notifyGroups_trace this events groups st) as Hpt.
  destruct (pass_trace_facts this events groups _ _ Hpt)
    as (_ & _ & _ & Hful).
  destruct (Hful Hout) as [_ Hdone].
  destruct (Hdone ev Hev) as [Hcompleted _].
  destruct (Hcompleted g Hg) as [_ Hmembers].
  by destruct (Hmembers b Hb).
Qed.

(** X18: A binding configured with [asLifeCycleObserverBinding] is discovered
    by the registry whatever its type, its scope before and its other
    tags: when [start] is fulfilled, the binding has processed each of
    preStart, start and postStart, and likewise for [stop]. *)
Theorem registered_observer_is_notified {W : Type} (CoreTags : Tags)
  (this : LifeCycleObserverRegistry W) (st : State W) (b : Binding) :
  Lifecycle.asLifeCycleObserverBinding CoreTags b ∈ registry (ctx this) ->
  ((start CoreTags this st).1 = Fulfilled ->
   forall ev, ev ∈ [PreStart; Start; PostStart] ->
     BindingProcessed (key b) ev ∈ actions_of (start CoreTags this) st)
  /\ ((stop CoreTags this st).1 = Fulfilled ->
      forall ev, ev ∈ [PreStop; Stop; PostStop] ->
        BindingProcessed (key b) ev ∈ actions_of (stop CoreTags this) st).
Proof.
  intros Hreg.
  assert (Hfound : Lifecycle.asLifeCycleObserverBinding CoreTags b
                   ∈ findObserverBindings CoreTags this).
  { apply elem_of_findObserverBindings. split; [done|].
    apply registered_is_observer_binding. }
  destruct (discovered_in_group CoreTags this _ Hfound) as (g & Hg & Hb).
  split; intros Hout ev Hev.
  - by apply (fulfilled_pass_processes this _ _ st g
                (Lifecycle.asLifeCycleObserverBinding CoreTags b) ev Hout).
  - apply (fulfilled_pass_processes this _ _ st g
             (Lifecycle.asLifeCycleObserverBinding CoreTags b) ev Hout);
      [|done|done].
    by apply elem_of_reverse.
Qed.

Lemma registered_observer_is_notified_witness :
  Lifecycle.asLifeCycleObserverBinding Fixtures.CoreTags
    (mkBinding "my-observer" TRANSIENT (Some CONSTANT) ∅)
  ∈ registry (ctx Mocks.registry_one)
  /\ (start Fixtures.CoreTags Mocks.registry_one (Mocks.initial [])).1
     = Fulfilled
  /\ (stop Fixtures.CoreTags Mocks.registry_one (Mocks.initial [])).1
     = Fulfilled
  /\ BindingProcessed "my-observer" Start
     ∈ actions_of (start Fixtures.CoreTags Mocks.registry_one)
         (Mocks.initial [])
  /\ BindingProcessed "my-observer" Stop
     ∈ actions_of (stop Fixtures.CoreTags Mocks.registry_one)
         (Mocks.initial []).
Proof.
  assert (Hreg : Lifecycle.asLifeCycleObserverBinding Fixtures.CoreTags
                   (mkBinding "my-observer" TRANSIENT (Some CONSTANT) ∅)
                 ∈ registry (ctx Mocks.registry_one)).
  { apply list_elem_of_here. }
  split; [exact Hreg|]. split; [reflexivity|]. split; [reflexivity|]. split.
  - apply (proj1 (registered_observer_is_notified Fixtures.CoreTags
                    Mocks.registry_one (Mocks.initial [])
                    (mkBinding "my-observer" TRANSIENT (Some CONSTANT) ∅)
                    Hreg) eq_refl Start).
    apply list_elem_of_further, list_elem_of_here.
  - apply (proj2 (registered_observer_is_notified Fixtures.CoreTags
                    Mocks.registry_one (Mocks.initial [])
                    (mkBinding "my-observer" TRANSIENT (Some CONSTANT) ∅)
                    Hreg) eq_refl Stop).
    apply list_elem_of_further, list_elem_of_here.
Defined.

(** X19: [isLifeCycleObserver] rejects an object exactly when the registry
    would call none of its methods: [invokeObserver] then does nothing,
    for each of the six events. *)
Theorem isLifeCycleObserver_false_iff_never_invoked {W : Type}
  (obj : LifeCycleObserver W) (st : State W) :
  Lifecycle.isLifeCycleObserver obj = false
  <-> forall ev, invokeObserver obj ev st = (None, st).
Proof.
  unfold Lifecycle.isLifeCycleObserver, invokeObserver. split.
  - intros Hno ev.
    assert (Hev : ev ∈ Lifecycle.lifeCycleMethods).
    { unfold Lifecycle.lifeCycleMethods. destruct ev;
        repeat first [apply list_elem_of_here | apply list_elem_of_further]. }
    destruct (obj ev) as [hook|] eqn:Hobj; [|done].
    assert (Hyes : existsb
              (fun m => match obj m with Some _ => true | None => false end)
              Lifecycle.lifeCycleMethods = true).
    { apply existsb_exists. exists ev. split; [by apply list_elem_of_In|].
      by rewrite Hobj. }
    congruence.
  - intros Hnone.
    destruct (existsb _ Lifecycle.lifeCycleMethods) eqn:Hex; [|done].
    apply existsb_exists in Hex as (ev & _ & Hev).
    specialize (Hnone ev). destruct (obj ev) as [hook|]; [|done].
    destruct (hook (world st)) as [w r].
    apply (f_equal (fun p => length (log p.2))) in Hnone. simpl in Hnone.
    rewrite length_app in Hnone. simpl in Hnone. lia.
Qed.

(** * The hooks that a run calls *)

Section HistoryFacts.

Context {W : Type} (this : LifeCycleObserverRegistry W).

Lemma replays_app (w0 w1 w2 : W) (h1 h2 : list Invocation) :
  replays this w0 h1 w1 -> replays this w1 h2 w2 ->
  replays this w0 (h1 ++ h2) w2.
Proof.
  induction 1 as [|w ev b o h w' Hget _ IH]; intros H2; [done|].
  simpl. econstructor; [exact Hget|]. by apply IH.
Qed.

Lemma replays_snoc (w0 w : W) (h : list Invocation) (ev : LifeCycleEvent)
  (b : Binding) (o : LifeCycleObserver W) :
  replays this w0 h w -> get (ctx this) (key b) = inr o ->
  replays this w0 (h ++ [(ev, b, (call_hook this ev b w).2)])
    (call_hook this ev b w).1.
Proof.
  intros Hh Hget. eapply replays_app; [exact Hh|].
  econstructor; [exact Hget|]. constructor.
Qed.

Lemma hook_calls_of_app (l1 l2 : list Action) :
  hook_calls_of (l1 ++ l2) = hook_calls_of l1 ++ hook_calls_of l2.
Proof. apply omap_app. Qed.

Lemma hook_calls_of_add_log (a : Action) (st : State W) :
  hook_calls_of (log (add_log a st))
  = hook_calls_of (log st) ++ hook_calls_of [a].
Proof. apply hook_calls_of_app. Qed.

Lemma logged_calls_app (h1 h2 : list Invocation) :
  logged_calls this (h1 ++ h2) = logged_calls this h1 ++ logged_calls this h2.
Proof. unfold logged_calls. by rewrite List.filter_app, map_app. Qed.

Lemma hook_calls_of_get_actions (ev : LifeCycleEvent) (bs : list Binding) :
  hook_calls_of (get_actions ev bs) = [].
Proof. induction bs as [|b bs IH]; [done|]. exact IH. Qed.

(** [invokeObserver] on the observer of a binding is [call_hook]. *)
Lemma invokeObserver_call (ev : LifeCycleEvent) (b : Binding)
  (o : LifeCycleObserver W) (st : State W) :
  get (ctx this) (key b) = inr o ->
  let r := invokeObserver o ev st in
  r.1 = (call_hook this ev b (world st)).2
  /\ world r.2 = (call_hook this ev b (world st)).1
  /\ hook_calls_of (log r.2)
     = hook_calls_of (log st) ++ logged_calls this [(ev, b, r.1)].
Proof.
  intros Hget.
  unfold invokeObserver, call_hook, logged_calls, has_hook, invoked,
    invoked_event.
  simpl. rewrite Hget.
  destruct (o ev) as [hook|] eqn:Hhook; simpl.
  - destruct (hook (world st)) as [w r]. simpl.
    by rewrite hook_calls_of_app.
  - by rewrite app_nil_r.
Qed.

End HistoryFacts.

Ltac quiet_log :=
  cbn [fst snd]; rewrite ?hook_calls_of_add_log, ?hook_calls_of_app; simpl;
  rewrite ?app_nil_r.

(** ** The pool of a parallel group *)

Section PoolFacts.

Context {W : Type} (this : LifeCycleObserverRegistry W) (ev : LifeCycleEvent).
Context (w0 : W) (l0 : list Action).

Local Abbreviation pool_history := (pool_history this ev w0 l0).

Lemma ledger_app (ts1 ts2 : list Task) :
  ledger ev (ts1 ++ ts2) = ledger ev ts1 ++ ledger ev ts2.
Proof. apply omap_app. Qed.

Lemma ledger_cons (t : Task) (ts : list Task) :
  ledger ev (t :: ts)
  = match entry ev t with
    | Some x => x :: ledger ev ts
    | None => ledger ev ts
    end.
Proof. reflexivity. Qed.

Lemma ledger_middle_none (pre post : list Task) (t : Task) :
  entry ev t = None ->
  ledger ev (pre ++ t :: post) = ledger ev pre ++ ledger ev post.
Proof. intros Ht. by rewrite ledger_app, ledger_cons, Ht. Qed.

Lemma ledger_middle_some (pre post : list Task) (t : Task) (x : Invocation) :
  entry ev t = Some x ->
  ledger ev (pre ++ t :: post) = ledger ev pre ++ x :: ledger ev post.
Proof. intros Ht. by rewrite ledger_app, ledger_cons, Ht. Qed.

Lemma ledger_events (ts : list Task) :
  Forall (fun x => invoked_event x = ev) (ledger ev ts).
Proof.
  induction ts as [|[b s] ts IH]; [constructor|].
  rewrite ledger_cons. unfold entry. simpl.
  destruct s; simpl; try constructor; done.
Qed.

Lemma ledger_invoked (ts : list Task) :
  map invoked (ledger ev ts) `sublist_of` map task_binding ts.
Proof.
  induction ts as [|[b s] ts IH]; [constructor|].
  rewrite ledger_cons. unfold entry. simpl.
  destruct s; simpl; by constructor.
Qed.

Lemma ledger_fulfilled (ts : list Task) :
  Forall (fun t => task_state t = TaskFulfilled) ts ->
  ledger ev ts = map (fun t => (ev, task_binding t, None)) ts.
Proof.
  induction 1 as [|[b s] ts Hs _ IH]; [done|].
  rewrite ledger_cons. unfold entry. simpl in *. subst s. simpl.
  by rewrite IH.
Qed.

Lemma ledger_waiting (bs : list Binding) :
  ledger ev (map (fun b => mkTask b AwaitGet) bs) = [].
Proof. induction bs as [|b bs IH]; [done|]. exact IH. Qed.

Lemma pool_history_facts (ts : list Task) (st : State W)
  (h : list Invocation) :
  pool_history ts st h ->
  Forall (fun x => invoked_event x = ev) h
  /\ map invoked h ⊆+ map task_binding ts.
Proof.
  intros (_ & Hperm & _ & _). split.
  - apply Forall_forall. intros x Hx. rewrite Hperm in Hx.
    pose proof (ledger_events ts) as Hev. rewrite Forall_forall in Hev.
    by apply Hev.
  - transitivity (map invoked (ledger ev ts)).
    + apply Permutation_submseteq. by apply Permutation_map.
    + apply sublist_submseteq, ledger_invoked.
Qed.

(** A rejection while the pool is joined. *)
Lemma pool_rejected (ts : list Task) (st st' : State W)
  (h : list Invocation) (e : Error) :
  pool_history ts st h ->
  world st' = world st ->
  hook_calls_of (log st') = hook_calls_of (log st) ->
  (exists t, t ∈ ts /\ get (ctx this) (key (task_binding t)) = inl e)
  \/ (exists b, (ev, b, Some e) ∈ h) ->
  exists h',
    chunk_run this ev (map task_binding ts) w0 h' (Rejected e) (world st')
    /\ hook_calls_of (log st') = hook_calls_of l0 ++ logged_calls this h'.
Proof.
  intros Hpool Hw Hl Hwhy.
  destruct (pool_history_facts ts st h Hpool) as [Hev Hsub].
  destruct Hpool as (Hrep & Hperm & Hlog & _).
  exists h. split; [|by rewrite Hl].
  split; [by rewrite Hw|]. split; [done|]. split; [done|].
  destruct Hwhy as [(t & Ht & Hget)|Hin]; [left|by right].
  exists (task_binding t). split; [|done].
  by apply (list_elem_of_fmap_2 task_binding).
Qed.

(** The pool when every task is fulfilled. *)
Lemma pool_fulfilled (ts : list Task) (st : State W) (h : list Invocation) :
  pool_history ts st h ->
  Forall (fun t => task_state t = TaskFulfilled) ts ->
  exists h',
    chunk_run this ev (map task_binding ts) w0 h' Fulfilled (world st)
    /\ hook_calls_of (log st) = hook_calls_of l0 ++ logged_calls this h'.
Proof.
  intros Hpool Hall.
  destruct (pool_history_facts ts st h Hpool) as [Hev _].
  destruct Hpool as (Hrep & Hperm & Hlog & _).
  rewrite (ledger_fulfilled ts Hall) in Hperm.
  exists h. split; [|done].
  split; [done|]. split; [done|]. split.
  - rewrite Hperm, map_map. simpl. done.
  - apply Forall_forall. intros x Hx. rewrite Hperm in Hx.
    apply list_elem_of_fmap in Hx as (t & -> & _). done.
Qed.

(** One resumption of a task of the pool. *)
Lemma resume_history (pre post : list Task) (t : Task) (st : State W)
  (h : list Invocation) :
  pool_history (pre ++ t :: post) st h ->
  let r := notifyObserver_resume this ev t st in
  task_binding r.1 = task_binding t
  /\ match task_state r.1 with
     | TaskRejected e =>
         world r.2 = world st
         /\ hook_calls_of (log r.2) = hook_calls_of (log st)
         /\ (get (ctx this) (key (task_binding t)) = inl e
             \/ (ev, task_binding t, Some e) ∈ h)
     | _ => exists h', pool_history (pre ++ r.1 :: post) r.2 h'
     end.
Proof.
  destruct t as [b s]. intros (Hrep & Hperm & Hlog & Hnr).
  apply Forall_app in Hnr as [Hpre Hnr].
  apply Forall_cons in Hnr as [Ht Hpost]. simpl in Ht.
  assert (Hkeep : forall t' : Task,
            (forall e, task_state t' <> TaskRejected e) ->
            Forall (fun t => forall e, task_state t <> TaskRejected e)
              (pre ++ t' :: post)).
  { intros t' Ht'. apply Forall_app. split; [done|]. by constructor. }
  unfold notifyObserver_resume. simpl.
  destruct s as [|[e|]| |e].
  - rewrite (ledger_middle_none pre post (mkTask b AwaitGet) eq_refl) in Hperm.
    destruct (get (ctx this) (key b)) as [e|o] eqn:Hget; simpl.
    + split; [done|]. split; [done|]. split; [|by left].
      by rewrite ?hook_calls_of_add_log, ?hook_calls_of_app, app_nil_r.
    + pose proof (invokeObserver_call this ev b o
                    (add_log (NotifyingBinding (key b) ev) st) Hget)
        as (Hr & Hw & Hl).
      destruct (invokeObserver o ev _) as [r st'] eqn:Hio. simpl in *.
      split; [done|]. exists (h ++ [(ev, b, r)]).
      split; [|split; [|split]].
      * subst r. rewrite Hw. by eapply replays_snoc.
      * rewrite (ledger_middle_some pre post (mkTask b (AwaitInvoke r))
                   (ev, b, r) eq_refl).
        rewrite Hperm, <- Permutation_middle.
        by rewrite <- Permutation_cons_append.
      * rewrite Hl, hook_calls_of_app. simpl. rewrite app_nil_r.
        by rewrite Hlog, logged_calls_app, app_assoc.
      * by apply Hkeep.
  - rewrite (ledger_middle_some pre post (mkTask b (AwaitInvoke (Some e)))
               (ev, b, Some e) eq_refl) in Hperm.
    simpl. split; [done|]. split; [done|]. split.
    + by rewrite ?hook_calls_of_add_log, ?hook_calls_of_app, app_nil_r.
    + right. rewrite Hperm. apply elem_of_app. right.
      apply list_elem_of_here.
  - rewrite (ledger_middle_some pre post (mkTask b (AwaitInvoke None))
               (ev, b, None) eq_refl) in Hperm.
    simpl. split; [done|]. exists h. split; [done|]. split; [|split].
    + by rewrite (ledger_middle_some pre post (mkTask b TaskFulfilled)
                    (ev, b, None) eq_refl).
    + by rewrite ?hook_calls_of_add_log, ?hook_calls_of_app, app_nil_r.
    + by apply Hkeep.
  - simpl. split; [done|]. exists h. split; [done|]. split; [done|].
    split; [done|]. by apply Hkeep.
  - by destruct (Ht e).
Qed.

(** Two resumptions settle a task. *)
Lemma resume_twice_settled (t : Task) (st : State W) :
  let r1 := notifyObserver_resume this ev t st in
  let r2 := notifyObserver_resume this ev r1.1 r1.2 in
  task_state r2.1 = TaskFulfilled \/ exists e, task_state r2.1 = TaskRejected e.
Proof.
  intros r1 r2.
  destruct (notifyObserver_resume_spec this ev t st)
    as (Hb1 & _ & l1 & _ & H1).
  destruct (notifyObserver_resume_spec this ev r1.1 r1.2)
    as (_ & _ & l2 & _ & H2).
  fold r1 in Hb1, H1. rewrite Hb1 in H2.
  exact (resumes_twice_settled this ev _ _ _ _ _ _ H1 H2).
Qed.

Lemma Promise_all_rest_history (ts : list Task) :
  forall (done : list Task) (st : State W) (h : list Invocation),
    pool_history (done ++ ts) st h ->
    Forall (fun t => task_state t = TaskFulfilled) done ->
    let r := Promise_all_rest this ev ts st in
    exists h',
      chunk_run this ev (map task_binding (done ++ ts)) w0 h' r.1 (world r.2)
      /\ hook_calls_of (log r.2) = hook_calls_of l0 ++ logged_calls this h'.
Proof.
  induction ts as [|t ts IH]; intros done st h Hpool Hdone.
  - simpl. rewrite app_nil_r in *. by apply (pool_fulfilled done st h).
  - cbn [Promise_all_rest].
    pose proof (resume_history done ts t st h Hpool) as [Hb1 H1].
    pose proof (resume_twice_settled t st) as Hsettled.
    destruct (notifyObserver_resume this ev t st) as [t1 st1]. simpl in *.
    assert (Hin : forall t', t' ∈ done ++ t :: ts ->
              t' ∈ done ++ t :: ts) by done.
    destruct (task_state t1) as [|r1| |e1] eqn:Es1.
    4:{ destruct H1 as (Hw & Hl & Hwhy).
        apply (pool_rejected (done ++ t :: ts) st st1 h e1 Hpool Hw Hl).
        destruct Hwhy as [Hget|Hh]; [left|right; by eexists].
        exists t. split; [|done].
        apply elem_of_app. right. apply list_elem_of_here. }
    all: destruct H1 as [h1 Hp1];
      pose proof (resume_history done ts t1 st1 h1 Hp1) as [Hb2 H2];
      destruct (notifyObserver_resume this ev t1 st1) as [t2 st2];
      simpl in *;
      assert (Hbs : map task_binding (done ++ t :: ts)
                    = map task_binding (done ++ t1 :: ts))
        by (rewrite !map_app; simpl; by rewrite Hb1);
      rewrite Hbs;
      destruct Hsettled as [Es2|[e2 Es2]]; rewrite Es2 in H2 |- *.
    all: try (destruct H2 as [h2 Hp2];
      assert (Hbs2 : map task_binding (done ++ t1 :: ts)
                     = map task_binding ((done ++ [t2]) ++ ts))
        by (rewrite <- app_assoc, !map_app; simpl; by rewrite Hb2);
      rewrite Hbs2;
      apply (IH (done ++ [t2]) st2 h2);
      [by rewrite <- app_assoc
      |apply Forall_app; split; [done|by constructor]]).
    all: destruct H2 as (Hw & Hl & Hwhy);
      apply (pool_rejected (done ++ t1 :: ts) st1 st2 h1 e2 Hp1 Hw Hl);
      destruct Hwhy as [Hget|Hh]; [left|right; by eexists];
      exists t1; split; [|done];
      apply elem_of_app; right; apply list_elem_of_here.
Qed.

Lemma Promise_all_history (sched : list nat) :
  forall (ts : list Task) (st : State W) (h : list Invocation),
    pool_history ts st h ->
    let r := Promise_all this ev sched ts st in
    exists h',
      chunk_run this ev (map task_binding ts) w0 h' r.1 (world r.2)
      /\ hook_calls_of (log r.2) = hook_calls_of l0 ++ logged_calls this h'.
Proof.
  induction sched as [|n sched IH]; intros ts st h Hpool.
  - by apply (Promise_all_rest_history ts [] st h).
  - cbn [Promise_all].
    destruct (ts !! n) as [t|] eqn:Hn; [|by apply (IH ts st h)].
    apply list_elem_of_split_length in Hn as (pre & post & -> & ->).
    pose proof (resume_history pre post t st h Hpool) as [Hb H1].
    destruct (notifyObserver_resume this ev t st) as [t' st']. simpl in *.
    assert (Hins : <[length pre := t']> (pre ++ t :: post)
                   = pre ++ t' :: post).
    { rewrite insert_app_r_alt by lia. by rewrite Nat.sub_diag. }
    assert (Hbs : map task_binding (pre ++ t' :: post)
                  = map task_binding (pre ++ t :: post)).
    { rewrite !map_app. simpl. by rewrite Hb. }
    rewrite Hins.
    destruct (task_state t') as [|r'| |e'] eqn:Es.
    4:{ destruct H1 as (Hw & Hl & Hwhy).
        apply (pool_rejected _ st st' h e' Hpool Hw Hl).
        destruct Hwhy as [Hget|Hh]; [left|right; by eexists].
        exists t. split; [|done].
        apply elem_of_app. right. apply list_elem_of_here. }
    all: destruct H1 as [h1 Hp1]; rewrite <- Hbs; by apply (IH _ st' h1).
Qed.

End PoolFacts.

(** ** From the members of a group to a pass *)

Section RunHistory.

Context {W : Type} (this : LifeCycleObserverRegistry W).

Lemma unresolved_cons (b : Binding) (bs : list Binding) (e : Error) :
  unresolved this bs e -> unresolved this (b :: bs) e.
Proof.
  intros (b' & Hb' & Hget). exists b'. split; [|done].
  by apply list_elem_of_further.
Qed.

Lemma loop_serial_history (ev : LifeCycleEvent) (bs : list Binding) :
  is_parallel (options this) = false ->
  forall (ns : list Task) (st : State W),
    members_history this ev bs st
      ((notifyObserverGroup_loop this ev bs ns st).1.1,
       (notifyObserverGroup_loop this ev bs ns st).2).
Proof.
  intros Hser. induction bs as [|b bs IH]; intros ns st.
  - exists []. simpl. split; [|by rewrite app_nil_r].
    split; [constructor|]. split; [constructor|]. by split.
  - cbn [notifyObserverGroup_loop]. rewrite Hser. unfold notifyObserver.
    destruct (get (ctx this) (key b)) as [e|o] eqn:Hget.
    + exists []. simpl. split.
      * split; [constructor|]. split; [constructor|].
        split; [apply submseteq_nil_l|]. left. exists b.
        split; [apply list_elem_of_here | done].
      * by rewrite !hook_calls_of_app, !app_nil_r.
    + pose proof (invokeObserver_call this ev b o
                    (add_log (NotifyingBinding (key b) ev)
                       (add_log (Get (key b) ev) st)) Hget)
        as (Hr & Hw & Hl).
      destruct (invokeObserver o ev _) as [r st'] eqn:Hio. simpl in Hr, Hw, Hl.
      assert (Hl' : hook_calls_of (log st')
                    = hook_calls_of (log st) ++ logged_calls this [(ev, b, r)]).
      { rewrite Hl. by rewrite !hook_calls_of_app, !app_nil_r. }
      assert (Hone : replays this (world st) [(ev, b, r)] (world st')).
      { subst r. rewrite Hw. econstructor; [exact Hget|]. constructor. }
      destruct r as [e|].
      * exists [(ev, b, Some e)]. simpl. split.
        -- split; [done|]. split; [by repeat constructor|]. split.
           ++ apply submseteq_skip, submseteq_nil_l.
           ++ right. exists b. apply list_elem_of_here.
        -- by rewrite hook_calls_of_app, app_nil_r.
      * destruct (IH ns (add_log (BindingProcessed (key b) ev) st'))
          as (h & (Hrep & Hev & Hout) & Hlog).
        destruct (notifyObserverGroup_loop this ev bs ns _)
          as [[out ns'] st''] eqn:Hloop.
        simpl in Hrep, Hout, Hlog |- *.
        exists ((ev, b, None) :: h). split.
        -- split; [exact (replays_app this _ _ _ _ _ Hone Hrep)|].
           split; [by constructor|].
           destruct out as [|e].
           ++ destruct Hout as [Hperm Hnone]. split.
              ** simpl. by constructor.
              ** by constructor.
           ++ destruct Hout as [Hsub Hwhy]. split.
              ** simpl. by apply submseteq_skip.
              ** destruct Hwhy as [Hun|[b' Hb']].
                 --- left. by apply unresolved_cons.
                 --- right. exists b'. by apply list_elem_of_further.
        -- simpl. rewrite Hlog, hook_calls_of_app. simpl. rewrite app_nil_r.
           rewrite Hl'. rewrite <- app_assoc. f_equal.
           by rewrite <- logged_calls_app.
Qed.

Lemma notifyObserverGroup_history (ev : LifeCycleEvent)
  (g : LifeCycleObserverGroup) (st : State W) :
  members_history this ev (bindings g) st (notifyObserverGroup this g ev st).
Proof.
  unfold notifyObserverGroup.
  destruct (is_parallel (options this)) eqn:Hpar.
  - rewrite loop_parallel by done. cbn [app].
    set (st1 := mkState _ _ _).
    assert (Hns : world (next_schedule st1).2 = world st
                  /\ log (next_schedule st1).2 = log st1).
    { unfold next_schedule. by destruct (oracle st1). }
    destruct (next_schedule st1) as [sched st2]. simpl in Hns.
    destruct Hns as [Hw2 Hl2].
    assert (Hpool : pool_history this ev (world st) (log st)
                      (map (fun b => mkTask b AwaitGet) (bindings g)) st2 []).
    { split; [rewrite Hw2; constructor|]. split; [by rewrite ledger_waiting|].
      split.
      - rewrite Hl2. unfold st1. simpl.
        rewrite !hook_calls_of_app, hook_calls_of_get_actions. simpl.
        by rewrite !app_nil_r.
      - apply Forall_forall. intros t Ht.
        apply list_elem_of_fmap in Ht as (b & -> & _). done. }
    destruct (Promise_all_history this ev (world st) (log st) sched _ st2 []
                Hpool) as (h & Hrun & Hlog).
    rewrite map_map, map_id in Hrun.
    destruct (Promise_all this ev sched _ st2) as [[|e] st3];
      simpl in Hrun, Hlog |- *.
    + exists h. split; [done|]. by quiet_log.
    + by exists h.
  - pose proof (loop_serial_history ev (bindings g) Hpar []
                  (add_log (NotifyingGroup (group g) ev) st))
      as (h & Hrun & Hlog).
    destruct (notifyObserverGroup_loop this ev (bindings g) [] _)
      as [[[|e] ns] st1]; simpl in Hrun, Hlog |- *.
    + exists h. split; [done|]. quiet_log. rewrite Hlog. by quiet_log.
    + exists h. split; [done|]. quiet_log. rewrite Hlog. by quiet_log.
Qed.

Lemma notifyGroups_event_history (ev : LifeCycleEvent)
  (groups : list LifeCycleObserverGroup) :
  forall st : State W,
    run_history this (event_chunks ev groups) st
      (notifyGroups_event this ev groups st).
Proof.
  induction groups as [|g groups IH]; intros st.
  - exists []. simpl. by rewrite app_nil_r.
  - cbn [notifyGroups_event event_chunks map].
    destruct (notifyObserverGroup_history ev g st) as (h1 & Hrun1 & Hlog1).
    destruct (notifyObserverGroup this g ev st) as [[|e] st1];
      simpl in Hrun1, Hlog1.
    + destruct (IH st1) as (h2 & Hrun2 & Hlog2).
      exists (h1 ++ h2). split.
      * exists h1, Fulfilled, (world st1). split; [done|]. by exists h2.
      * by rewrite Hlog2, Hlog1, logged_calls_app, app_assoc.
    + exists h1. split; [|done].
      by exists h1, (Rejected e), (world st1).
Qed.

Lemma chunks_run_app (c1 c2 : list (LifeCycleEvent * list Binding)) :
  forall (w : W) (h1 : list Invocation) (out1 : Outcome) (w1 : W),
    chunks_run this c1 w h1 out1 w1 ->
    match out1 with
    | Fulfilled =>
        forall h2 out w2,
          chunks_run this c2 w1 h2 out w2 ->
          chunks_run this (c1 ++ c2) w (h1 ++ h2) out w2
    | Rejected e => chunks_run this (c1 ++ c2) w h1 (Rejected e) w1
    end.
Proof.
  induction c1 as [|[ev bs] c1 IH]; intros w h1 out1 w1 Hrun.
  - destruct Hrun as (-> & -> & ->). by intros h2 out w2 H2.
  - destruct Hrun as (ha & oa & wa & Ha & Hrest).
    destruct oa as [|e].
    + destruct Hrest as (hb & -> & Hb).
      specialize (IH wa hb out1 w1 Hb).
      destruct out1 as [|e].
      * intros h2 out w2 H2. simpl.
        exists ha, Fulfilled, wa. split; [done|].
        exists (hb ++ h2). split; [by rewrite app_assoc|]. by apply IH.
      * simpl. exists ha, Fulfilled, wa. split; [done|]. by exists hb.
    + destruct Hrest as (-> & -> & ->). simpl.
      by eexists _, (Rejected e), _.
Qed.

Lemma notifyGroups_history (events : list LifeCycleEvent)
  (groups : list LifeCycleObserverGroup) :
  forall st : State W,
    run_history this (pass_chunks events groups) st
      (notifyGroups this events groups st).
Proof.
  induction events as [|ev events IH]; intros st.
  - exists []. simpl. by rewrite app_nil_r.
  - cbn [notifyGroups]. unfold pass_chunks. cbn [map concat].
    fold (pass_chunks events groups).
    destruct (notifyGroups_event_history ev groups
                (add_log (Beginning ev) st)) as (h1 & Hrun1 & Hlog1).
    destruct (notifyGroups_event this ev groups _) as [[|e] st1];
      simpl in Hrun1, Hlog1.
    + destruct (IH (add_log (Finished ev) st1)) as (h2 & Hrun2 & Hlog2).
      simpl in Hrun2, Hlog2.
      exists (h1 ++ h2). split.
      * exact (chunks_run_app _ _ _ _ _ _ Hrun1 _ _ _ Hrun2).
      * quiet_log. rewrite Hlog2. quiet_log. rewrite Hlog1. quiet_log.
        by rewrite logged_calls_app, app_assoc.
    + exists h1. split.
      * exact (chunks_run_app _ _ _ _ _ _ Hrun1).
      * quiet_log. rewrite Hlog1. by quiet_log.
Qed.

End RunHistory.

(** ** What a history tells *)

Section HistoryTells.

Context {W : Type} (this : LifeCycleObserverRegistry W).

Lemma calls_of_event (ev : LifeCycleEvent) (h : list Invocation) :
  Forall (fun x => invoked_event x = ev) h ->
  map call_of h = map (fun b => (ev, b)) (map invoked h).
Proof.
  induction 1 as [|[[ev' b] r] h Hx _ IH]; [done|].
  simpl in *. unfold invoked_event in Hx. simpl in Hx. subst ev'.
  by rewrite IH.
Qed.

Lemma chunk_run_facts (ev : LifeCycleEvent) (bs : list Binding) (w : W)
  (h : list Invocation) (out : Outcome) (w' : W) :
  chunk_run this ev bs w h out w' ->
  map call_of h ⊆+ chunk_calls (ev, bs)
  /\ (out = Fulfilled ->
      map call_of h ≡ₚ chunk_calls (ev, bs)
      /\ Forall (fun x => settled x = None) h).
Proof.
  intros (_ & Hev & Hout). rewrite (calls_of_event ev h Hev).
  unfold chunk_calls. simpl. destruct out as [|e].
  - destruct Hout as [Hperm Hnone]. split.
    + apply Permutation_submseteq. by apply Permutation_map.
    + intros _. split; [by apply Permutation_map | done].
  - destruct Hout as [Hsub _]. split; [|done].
    by apply (fmap_submseteq (fun b => (ev, b))).
Qed.

Lemma chunks_run_facts (chunks : list (LifeCycleEvent * list Binding)) :
  forall (w : W) (h : list Invocation) (out : Outcome) (w' : W),
    chunks_run this chunks w h out w' ->
    replays this w h w'
    /\ map call_of h ⊆+ expected_calls chunks
    /\ (out = Fulfilled ->
        map call_of h ≡ₚ expected_calls chunks
        /\ Forall (fun x => settled x = None) h)
    /\ (forall e, out = Rejected e ->
          (exists c, c ∈ chunks /\ unresolved this c.2 e)
          \/ exists ev b, (ev, b, Some e) ∈ h).
Proof.
  induction chunks as [|[ev bs] chunks IH]; intros w h out w' Hrun.
  - destruct Hrun as (-> & -> & ->). split; [constructor|].
    split; [done|]. split; [done|]. done.
  - destruct Hrun as (h1 & o1 & w1 & H1 & Hrest).
    destruct (chunk_run_facts ev bs w h1 o1 w1 H1) as [Hsub1 Hful1].
    unfold expected_calls. cbn [map concat]. fold (expected_calls chunks).
    destruct o1 as [|e1].
    + destruct Hrest as (h2 & -> & H2).
      destruct (IH w1 h2 out w' H2) as (Hrep2 & Hsub2 & Hful2 & Hrej2).
      destruct (Hful1 eq_refl) as [Hperm1 Hnone1].
      destruct H1 as (Hrep1 & _ & _).
      split; [exact (replays_app this _ _ _ _ _ Hrep1 Hrep2)|].
      rewrite map_app. split; [by apply submseteq_app|]. split.
      * intros Hout. destruct (Hful2 Hout) as [Hperm2 Hnone2]. split.
        -- by rewrite Hperm1, Hperm2.
        -- by apply Forall_app.
      * intros e Hout. destruct (Hrej2 e Hout) as [(c & Hc & Hun)|Hhook].
        -- left. exists c. split; [by apply list_elem_of_further | done].
        -- right. destruct Hhook as (ev' & b & Hin). exists ev', b.
           apply elem_of_app. by right.
    + destruct Hrest as (-> & -> & ->). destruct H1 as (Hrep1 & _ & Hout1).
      split; [done|]. split; [by apply submseteq_inserts_r|].
      split; [done|]. intros e [= <-].
      destruct Hout1 as [_ [Hun|[b Hb]]].
      * left. exists (ev, bs). split; [apply list_elem_of_here | done].
      * right. by exists ev, b.
Qed.

Lemma settled_error_rejects (h : list Invocation) (out : Outcome) :
  (out = Fulfilled -> Forall (fun x => settled x = None) h) ->
  forall x e, x ∈ h -> settled x = Some e -> exists e', out = Rejected e'.
Proof.
  intros Hful x e Hx Hset. destruct out as [|e']; [|by exists e'].
  specialize (Hful eq_refl). rewrite Forall_forall in Hful.
  specialize (Hful x Hx). congruence.
Qed.

Lemma run_history_actions (chunks : list (LifeCycleEvent * list Binding))
  (run : State W -> Outcome * State W) (st : State W) (t : list Action) :
  log (run st).2 = log st ++ t ->
  run_history this chunks st (run st) ->
  exists h,
    chunks_run this chunks (world st) h (run st).1 (world (run st).2)
    /\ hook_calls_of (actions_of run st) = logged_calls this h.
Proof.
  intros Hlog (h & Hrun & Hcalls). exists h. split; [done|].
  rewrite (actions_of_app run st t Hlog).
  rewrite Hlog, hook_calls_of_app in Hcalls.
  by apply app_inv_head in Hcalls.
Qed.

Lemma notifyGroups_joins_in_sequence (events : list LifeCycleEvent)
  (groups : list LifeCycleObserverGroup) :
  joins_in_sequence this (pass_chunks events groups)
    (notifyGroups this events groups).
Proof.
  intros st.
  destruct (notifyGroups_spec this events groups st) as (t & Hlog & _).
  apply (run_history_actions _ (notifyGroups this events groups) st t Hlog).
  apply notifyGroups_history.
Qed.

Lemma notifyGroups_event_joins_in_sequence (ev : LifeCycleEvent)
  (groups : list LifeCycleObserverGroup) :
  joins_in_sequence this (event_chunks ev groups)
    (notifyGroups_event this ev groups).
Proof.
  intros st.
  destruct (notifyGroups_event_spec this ev groups st) as (t & Hlog & _).
  apply (run_history_actions _ (notifyGroups_event this ev groups) st t Hlog).
  apply notifyGroups_event_history.
Qed.

Lemma notifyObserverGroup_joins_hooks (g : LifeCycleObserverGroup)
  (ev : LifeCycleEvent) (st : State W) :
  joins_hooks this g ev st.
Proof.
  unfold joins_hooks. cbv zeta.
  destruct (notifyObserverGroup_spec this ev g st) as (t & Hlog & _).
  destruct (notifyObserverGroup_history this ev g st)
    as (h & (Hrep & Hev & Hout) & Hcalls).
  exists h. split; [done|]. split; [done|].
  assert (Hful : (notifyObserverGroup this g ev st).1 = Fulfilled ->
            map invoked h ≡ₚ bindings g
            /\ Forall (fun x => settled x = None) h).
  { intros E. by rewrite E in Hout. }
  split; [|split; [|split; [done|split]]].
  - destruct (notifyObserverGroup this g ev st).1 as [|e].
    + destruct Hout as [Hperm _]. by apply Permutation_submseteq.
    + by destruct Hout.
  - rewrite (actions_of_app _ st t Hlog).
    rewrite Hlog, hook_calls_of_app in Hcalls.
    by apply app_inv_head in Hcalls.
  - intros e E. rewrite E in Hout. by destruct Hout.
  - apply settled_error_rejects. intros E. by destruct (Hful E).
Qed.

Lemma notifyGroups_failures_surface (events : list LifeCycleEvent)
  (groups : list LifeCycleObserverGroup) :
  failures_surface this events groups (notifyGroups this events groups).
Proof.
  intros st.
  destruct (notifyGroups_joins_in_sequence events groups st)
    as (h & Hrun & Hcalls).
  destruct (chunks_run_facts _ _ _ _ _ Hrun) as (Hrep & Hsub & Hful & Hrej).
  exists h. split; [done|]. split; [done|]. split; [done|].
  split; [done|]. split; [done|]. split.
  - intros e E. destruct (Hrej e E) as [(c & Hc & Hun)|Hhook]; [|by right].
    left. unfold pass_chunks in Hc.
    apply list_elem_of_In, in_concat in Hc as (cs & Hcs & Hc).
    apply in_map_iff in Hcs as (ev & <- & _).
    apply in_map_iff in Hc as (g & <- & Hg).
    exists g. split; [by apply list_elem_of_In | done].
  - apply settled_error_rejects. intros E. by destruct (Hful E).
Qed.

End HistoryTells.

(** * The claims about the hooks *)





(** * The computation of the groups writes to nothing that exists *)

Section MapOperations.

Context {V : Type}.

Lemma Map_get_elem (m : list (string * V)) (k : string) (v : V) :
  Map_get m k = Some v -> (k, v) ∈ m.
Proof.
  induction m as [|[k' v'] m IH]; simpl; [done|].
  destruct (String.eqb_spec k' k) as [->|Hne].
  - intros [= ->]. apply list_elem_of_here.
  - intros H. by apply list_elem_of_further, IH.
Qed.

Lemma Map_set_absent (m : list (string * V)) (k : string) (v : V) :
  Map_get m k = None -> Map_set m k v = m ++ [(k, v)].
Proof.
  induction m as [|[k' v'] m IH]; simpl; [done|].
  destruct (String.eqb k' k); [done|]. intros H. by rewrite IH.
Qed.

Lemma Map_get_map {V' : Type} (f : V -> V') (m : list (string * V))
  (k : string) :
  Map_get (map (fun entry => (entry.1, f entry.2)) m) k = f <$> Map_get m k.
Proof.
  induction m as [|[k' v'] m IH]; simpl; [done|].
  by destruct (String.eqb k' k).
Qed.

End MapOperations.

Lemma Array_sort_map {A B : Type} (f : A -> B) (cmpA : A -> A -> Z)
  (cmpB : B -> B -> Z) (l : list A) :
  (forall x y, cmpB (f x) (f y) = cmpA x y) ->
  map f (Array_sort cmpA l) = Array_sort cmpB (map f l).
Proof.
  intros Hcmp.
  assert (Hins : forall x l', map f (sort_insert cmpA x l')
                              = sort_insert cmpB (f x) (map f l')).
  { intros x l'. induction l' as [|y l' IH]; simpl; [done|].
    rewrite Hcmp. destruct (cmpA x y <=? 0); simpl; [done|]. by rewrite IH. }
  induction l as [|x l IH]; simpl; [done|]. by rewrite Hins, IH.
Qed.

Ltac in_dom :=
  repeat match goal with
    | |- _ ⊆ dom (<[_:=_]> _) => etrans; [|apply dom_insert_subseteq]
    | |- ?a ∈ dom (<[?a:=_]> _) =>
        apply elem_of_dom; rewrite lookup_insert_eq; by eexists
    | |- _ ∈ dom (<[_:=_]> _) => apply dom_insert_subseteq
    end;
  try done.

Section StoreFacts.

Context (CoreTags : Tags).

Local Abbreviation Heap := Store.Heap.
Local Abbreviation loc := Store.loc.

Lemma alloc_fresh (h : Heap) (o : Store.Object) :
((Store.alloc h o).1 ∉ dom h)
  /\ (Store.alloc h o).2 = <[(Store.alloc h o).1 := o]> h.
Proof. unfold Store.alloc. simpl. split; [apply is_fresh | done]. Qed.

Lemma read_strings_agree (h hs : Heap) (l : loc) :
  l ∈ dom hs -> (forall l', l' ∈ dom hs -> h !! l' = hs !! l') ->
  Store.read_strings h l = Store.read_strings hs l.
Proof. intros Hl Hag. unfold Store.read_strings. by rewrite (Hag l Hl). Qed.

Lemma registry_at_agree (h hs : Heap) (this : loc) (bs : list Binding)
  (names : list string) :
  Store.registry_at hs this bs names ->
  (forall l, l ∈ dom hs -> h !! l = hs !! l) ->
  Store.registry_at h this bs names.
Proof.
  intros (ctx & order & Hthis & Hctx & Hord) Hag. exists ctx, order.
  rewrite !Hag by (by eapply elem_of_dom_2). done.
Qed.

Lemma registry_at_order (h : Heap) (this : loc) (bs : list Binding)
  (names : list string) :
  Store.registry_at h this bs names ->
  Store.read_strings h (Store.this_groupsByOrder h this) = names.
Proof.
  intros (ctx & order & Hthis & Hctx & Hord).
  unfold Store.read_strings, Store.this_groupsByOrder.
  by rewrite Hthis, Hord.
Qed.

Lemma registry_at_context (h : Heap) (this : loc) (bs : list Binding)
  (names : list string) :
  Store.registry_at h this bs names ->
  Store.read_context h (Store.this_ctx h this) = bs.
Proof.
  intros (ctx & order & Hthis & Hctx & Hord).
  unfold Store.read_context, Store.this_ctx.
  by rewrite Hthis, Hctx.
Qed.

Lemma Map_get_deep (h : Heap) (entries : list (string * loc)) (k : string) :
  Map_get (Store.deep_map h entries) k
  = Store.read_bindings h <$> Map_get entries k.
Proof. apply (Map_get_map (Store.read_bindings h)). Qed.

(** Reading the arrays of a map after a write elsewhere. *)
Lemma deep_map_insert_ne (h : Heap) (l : loc) (o : Store.Object)
  (entries : list (string * loc)) :
  l ∉ map snd entries ->
  Store.deep_map (<[l := o]> h) entries = Store.deep_map h entries.
Proof.
  intros Hl. unfold Store.deep_map. apply map_ext_in. intros [k a] Hin.
  cbn [fst snd]. unfold Store.read_bindings.
  rewrite lookup_insert_ne; [done|].
  intros ->. apply Hl. apply list_elem_of_In in Hin.
  by apply (list_elem_of_fmap_2 snd) in Hin.
Qed.

(** [push] on the array that the map holds for a name. *)
Lemma deep_map_push (h : Heap) (entries : list (string * loc)) (k : string)
  (a : loc) (v : list Binding) :
  NoDup (map snd entries) ->
  Map_get entries k = Some a ->
  Store.deep_map (<[a := Store.BindingArray v]> h) entries
  = Map_set (Store.deep_map h entries) k v.
Proof.
  induction entries as [|[k' a'] entries IH]; simpl; [done|].
  intros Hnd Hget. apply NoDup_cons in Hnd as [Ha' Hnd].
  destruct (String.eqb k' k) eqn:Hk.
  - injection Hget as ->. f_equal.
    + unfold Store.read_bindings. simpl. by rewrite lookup_insert_eq.
    + by apply deep_map_insert_ne.
  - f_equal.
    + simpl. unfold Store.read_bindings. rewrite lookup_insert_ne; [done|].
      intros ->. apply Ha'. apply Map_get_elem in Hget.
      by apply (list_elem_of_fmap_2 snd) in Hget.
    + by apply IH.
Qed.

Section Loop.

Context (hs : Heap) (this groupMap : loc) (bs : list Binding)
  (names : list string).
Hypothesis Hreg : Store.registry_at hs this bs names.

Lemma group_binding_inv (h : Heap) (pm : list (string * list Binding))
  (b : Binding) :
  Store.map_inv hs groupMap h pm ->
  Store.map_inv hs groupMap (Store.group_binding CoreTags this groupMap h b)
    (groupMap_add CoreTags names pm b).
Proof.
  intros (Hdom & Hgm & Hag & entries & Hmap & Hnd & Hall & Hdeep).
  unfold Store.group_binding, groupMap_add, Store.getObserverGroup.
  rewrite (registry_at_order h this bs names)
    by (by eapply registry_at_agree).
  set (group := getObserverGroup CoreTags names b).
  assert (Hread : Store.read_map h groupMap = entries)
    by (unfold Store.read_map; by rewrite Hmap).
  rewrite Hread. rewrite <- Hdeep. rewrite Map_get_deep.
  assert (Hgm' : groupMap ∈ dom h) by (by eapply elem_of_dom_2).
  rewrite Forall_forall in Hall.
  destruct (Map_get entries group) as [a|] eqn:Hget; simpl.
  - (* the name has its array *)
    pose proof (Map_get_elem _ _ _ Hget) as Hin.
    destruct (Hall _ Hin) as (HaD & Hagm & Hah). simpl in *.
    unfold Store.push. split; [|split; [done|split]].
    + in_dom.
    + intros l Hl. rewrite lookup_insert_ne; [by apply Hag|].
      intros ->. done.
    + exists entries. split; [by rewrite lookup_insert_ne|].
      split; [done|]. split.
      * apply Forall_forall. intros e He.
        destruct (Hall e He) as (? & ? & ?). split; [done|]. split; [done|].
        in_dom.
      * by apply deep_map_push.
  - (* a new name: a new array *)
    pose proof (is_fresh (dom h)) as Hfresh.
    set (a := fresh (dom h)) in *.
    assert (Hagm : a <> groupMap) by (intros Heq; by rewrite Heq in Hfresh).
    assert (Hread1 : Store.read_map (<[a := Store.BindingArray []]> h)
                       groupMap = entries).
    { unfold Store.read_map. by rewrite lookup_insert_ne, Hmap. }
    rewrite Hread1. rewrite (Map_set_absent entries group a Hget).
    unfold Store.push.
    assert (Hra : Store.read_bindings
                    (<[groupMap := Store.MapObject (entries ++ [(group, a)])]>
                       (<[a := Store.BindingArray []]> h)) a = []).
    { unfold Store.read_bindings.
      by rewrite lookup_insert_ne, lookup_insert_eq. }
    rewrite Hra. simpl.
    assert (Hnotin : a ∉ map snd entries).
    { intros Hin. apply list_elem_of_fmap in Hin as (e & -> & He).
      by destruct (Hall e He) as (_ & _ & ?). }
    split; [|split; [done|split]].
    + in_dom.
    + intros l Hl.
      assert (l <> a) by (intros ->; apply Hfresh; by apply Hdom).
      assert (l <> groupMap) by (intros ->; done).
      rewrite !lookup_insert_ne by done. by apply Hag.
    + exists (entries ++ [(group, a)]). split; [|split; [|split]].
      * by rewrite lookup_insert_ne, lookup_insert_eq.
      * rewrite map_app. simpl. apply NoDup_app. split; [done|].
        split; [|apply NoDup_singleton].
        intros x Hx Hx'. apply list_elem_of_singleton in Hx'. by subst x.
      * apply Forall_app. split.
        -- apply Forall_forall. intros e He.
           destruct (Hall e He) as (? & ? & ?).
           split; [done|]. split; [done|]. in_dom.
        -- constructor; [|constructor]. simpl. split; [|split; [done|]].
           ++ intros HaD. apply Hfresh. by apply Hdom.
           ++ in_dom.
      * unfold Store.deep_map. rewrite map_app. simpl.
        fold (Store.deep_map h entries).
        rewrite (Map_set_absent _ group [b])
          by (by rewrite Map_get_deep, Hget).
        f_equal.
        -- fold (Store.deep_map
                   (<[a := Store.BindingArray [b]]>
                      (<[groupMap := Store.MapObject (entries ++ [(group, a)])]>
                         (<[a := Store.BindingArray []]> h))) entries).
           rewrite !deep_map_insert_ne; [done|done| |done].
           intros Hin. apply list_elem_of_fmap in Hin as (e & -> & He).
           by destruct (Hall e He) as (_ & ? & _).
        -- unfold Store.read_bindings. by rewrite lookup_insert_eq.
Qed.

Lemma group_bindings_inv (items : list Binding) :
  forall (h : Heap) (pm : list (string * list Binding)),
    Store.map_inv hs groupMap h pm ->
    Store.map_inv hs groupMap
      (foldl (Store.group_binding CoreTags this groupMap) h items)
      (foldl (groupMap_add CoreTags names) pm items).
Proof.
  induction items as [|b items IH]; intros h pm Hinv; [done|].
  simpl. by apply IH, group_binding_inv.
Qed.

End Loop.

Lemma push_groups (groups : loc) (entries : list (string * loc)) :
  forall (h : Heap) (items : list (string * loc)),
    h !! groups = Some (Store.GroupArray items) ->
    foldl (Store.push_group groups) h entries
    = <[groups := Store.GroupArray (items ++ entries)]> h.
Proof.
  induction entries as [|e entries IH]; intros h items Hg; simpl.
  - by rewrite app_nil_r, insert_id.
  - unfold Store.push_group at 2. unfold Store.read_groups. rewrite Hg.
    rewrite (IH _ (items ++ [e])) by (by rewrite lookup_insert_eq).
    by rewrite insert_insert_eq, <- app_assoc.
Qed.

Lemma sortObserverBindingsByGroup_unfold (hs : Heap) (this bindings : loc) :
  Store.sortObserverBindingsByGroup CoreTags hs this bindings
  = let gm := fresh (dom hs) in
    let h1 := <[gm := Store.MapObject []]> hs in
    let h2 := foldl (Store.group_binding CoreTags this gm) h1
                (Store.read_bindings h1 bindings) in
    let g := fresh (dom h2) in
    let h3 := <[g := Store.GroupArray []]> h2 in
    let h4 := foldl (Store.push_group g) h3 (Store.read_map h3 gm) in
    (g, <[g := Store.GroupArray
                 (Array_sort (Store.compareGroups h4 this)
                    (Store.read_groups h4 g))]> h4).
Proof. reflexivity. Qed.

(** What [sortObserverBindingsByGroup] does to the store. *)
Lemma sortObserverBindingsByGroup_store (hs : Heap) (this bindings : loc)
  (items bs : list Binding) (names : list string) :
  Store.registry_at hs this bs names ->
  hs !! bindings = Some (Store.BindingArray items) ->
  let r := Store.sortObserverBindingsByGroup CoreTags hs this bindings in
  (forall l, l ∈ dom hs -> r.2 !! l = hs !! l)
  /\ dom hs ⊆ dom r.2
  /\ (r.1 ∉ dom hs)
  /\ r.1 ∈ dom r.2
  /\ Store.deep_groups r.2 r.1
     = sortObserverBindingsByGroup CoreTags names items
  /\ (forall h' : Heap,
        (forall l, l ∈ dom r.2 -> h' !! l = r.2 !! l) ->
        Store.deep_groups h' r.1 = Store.deep_groups r.2 r.1).
Proof.
  intros Hreg Hbindings. rewrite sortObserverBindingsByGroup_unfold.
  cbv zeta.
  pose proof (is_fresh (dom hs)) as Hgm. set (gm := fresh (dom hs)) in *.
  set (h1 := <[gm := Store.MapObject []]> hs).
  assert (Hitems : Store.read_bindings h1 bindings = items).
  { unfold Store.read_bindings, h1. rewrite lookup_insert_ne, Hbindings; [done|].
    intros Heq. apply Hgm. rewrite Heq. by eapply elem_of_dom_2. }
  rewrite Hitems.
  assert (Hinv1 : Store.map_inv hs gm h1 []).
  { split; [unfold h1; in_dom|]. split; [done|]. split.
    - intros l Hl. unfold h1. rewrite lookup_insert_ne; [done|].
      intros Heq. by rewrite Heq in Hgm.
    - exists []. split; [unfold h1; by rewrite lookup_insert_eq|].
      split; [constructor|]. split; [constructor|done]. }
  pose proof (group_bindings_inv hs this gm bs names Hreg items h1 [] Hinv1)
    as (Hdom & _ & Hag & entries & Hmap & Hnd & Hall & Hdeep).
  set (h2 := foldl (Store.group_binding CoreTags this gm) h1 items) in *.
  fold (groupMap_of CoreTags names items) in Hdeep.
  pose proof (is_fresh (dom h2)) as Hg. set (g := fresh (dom h2)) in *.
  assert (Hggm : g <> gm).
  { intros Heq. apply Hg. rewrite Heq. by eapply elem_of_dom_2. }
  assert (Hgs : g ∉ dom hs) by (intros Hin; by apply Hg, Hdom).
  set (h3 := <[g := Store.GroupArray []]> h2).
  assert (Hread3 : Store.read_map h3 gm = entries).
  { unfold Store.read_map, h3. by rewrite lookup_insert_ne, Hmap. }
  rewrite Hread3.
  rewrite (push_groups g entries h3 [])
    by (unfold h3; by rewrite lookup_insert_eq).
  cbn [app].
  assert (Hh4 : <[g := Store.GroupArray entries]> h3
                = <[g := Store.GroupArray entries]> h2)
    by (unfold h3; by rewrite insert_insert_eq).
  rewrite !Hh4.
  set (h4 := <[g := Store.GroupArray entries]> h2).
  assert (Hag4 : forall l, l ∈ dom hs -> h4 !! l = hs !! l).
  { intros l Hl. unfold h4. rewrite lookup_insert_ne; [by apply Hag|].
    intros Heq. by rewrite Heq in Hgs. }
  assert (Hcmp : forall x y,
            Store.compareGroups h4 this x y
            = indexOf names x.1 - indexOf names y.1).
  { intros x y. unfold Store.compareGroups.
    by rewrite (registry_at_order h4 this bs names)
      by (by eapply registry_at_agree). }
  assert (Hread4 : Store.read_groups h4 g = entries).
  { unfold Store.read_groups, h4. by rewrite lookup_insert_eq. }
  rewrite Hread4.
  set (sorted := Array_sort (Store.compareGroups h4 this) entries).
  assert (Hh5 : <[g := Store.GroupArray sorted]> h4
                = <[g := Store.GroupArray sorted]> h2)
    by (unfold h4; by rewrite insert_insert_eq).
  rewrite !Hh5.
  set (h5 := <[g := Store.GroupArray sorted]> h2).
  assert (Hsorted : forall e, e ∈ sorted -> e ∈ entries).
  { intros e He. unfold sorted in He. by rewrite Array_sort_perm in He. }
  rewrite Forall_forall in Hall.
  assert (Hdeep5 : forall h' : Heap,
            (forall l, l ∈ dom h5 -> h' !! l = h5 !! l) ->
            Store.deep_groups h' g
            = map (fun e => mkGroup e.1 (Store.read_bindings h2 e.2)) sorted).
  { intros h' Hh'. unfold Store.deep_groups, Store.read_groups.
    rewrite (Hh' g) by (unfold h5; in_dom).
    unfold h5 at 1. rewrite lookup_insert_eq.
    apply map_ext_in. intros e He. apply list_elem_of_In, Hsorted in He.
    destruct (Hall e He) as (_ & _ & Hin). f_equal.
    unfold Store.read_bindings.
    rewrite (Hh' e.2) by (unfold h5; in_dom).
    unfold h5. rewrite lookup_insert_ne; [done|].
    intros Heq. apply Hg. by rewrite Heq. }
  cbn [fst snd].
  split; [|split; [|split; [done|split; [|split]]]].
  - intros l Hl. unfold h5. rewrite lookup_insert_ne; [by apply Hag|].
    intros Heq. by rewrite Heq in Hgs.
  - unfold h5. in_dom.
  - unfold h5. in_dom.
  - rewrite (Hdeep5 h5) by done.
    unfold sorted.
    rewrite (Array_sort_map
               (fun e => mkGroup e.1 (Store.read_bindings h2 e.2))
               (Store.compareGroups h4 this) (compareGroups names)).
    + unfold sortObserverBindingsByGroup. f_equal.
      rewrite <- Hdeep. unfold groups_of, Store.deep_map.
      by rewrite map_map.
    + intros x y. by rewrite Hcmp.
  - intros h' Hh'. rewrite (Hdeep5 h' Hh'). by rewrite (Hdeep5 h5).
Qed.

(** What [getObserverGroupsByOrder] does to the store. *)
Lemma getObserverGroupsByOrder_store (h : Heap) (this : loc)
  (bs : list Binding) (names : list string) :
  Store.registry_at h this bs names ->
  let r := Store.getObserverGroupsByOrder CoreTags h this in
  (forall l, l ∈ dom h -> r.2 !! l = h !! l)
  /\ dom h ⊆ dom r.2
  /\ (r.1 ∉ dom h)
  /\ r.1 ∈ dom r.2
  /\ Store.deep_groups r.2 r.1
     = sortObserverBindingsByGroup CoreTags names
         (List.filter (isObserverBinding CoreTags) bs)
  /\ (forall h' : Heap,
        (forall l, l ∈ dom r.2 -> h' !! l = r.2 !! l) ->
        Store.deep_groups h' r.1 = Store.deep_groups r.2 r.1).
Proof.
  intros Hreg.
  unfold Store.getObserverGroupsByOrder, Store.findObserverBindings,
    Store.Context_find, Store.alloc.
  rewrite (registry_at_context h this bs names Hreg). cbv zeta.
  cbn [fst snd].
  pose proof (is_fresh (dom h)) as Hb. set (bl := fresh (dom h)) in *.
  set (items := List.filter (isObserverBinding CoreTags) bs).
  set (hs := <[bl := Store.BindingArray items]> h).
  assert (Hags : forall l, l ∈ dom h -> hs !! l = h !! l).
  { intros l Hl. unfold hs. rewrite lookup_insert_ne; [done|].
    intros Heq. by rewrite Heq in Hb. }
  assert (Hregs : Store.registry_at hs this bs names)
    by (by eapply registry_at_agree).
  assert (Hbl : hs !! bl = Some (Store.BindingArray items))
    by (unfold hs; by rewrite lookup_insert_eq).
  destruct (sortObserverBindingsByGroup_store hs this bl items bs names
              Hregs Hbl) as (Hag & Hdom & Hnew & Hin & Hdeep & Hstable).
  assert (Hsub : dom h ⊆ dom hs) by (unfold hs; in_dom).
  destruct (Store.sortObserverBindingsByGroup CoreTags hs this bl)
    as [g h']. simpl in *.
  split; [|split; [|split; [|split; [done|split; [done|done]]]]].
  - intros l Hl. rewrite Hag by (by apply Hsub). by apply Hags.
  - by etrans.
  - intros Hg. by apply Hnew, Hsub.
Qed.

End StoreFacts.

(** C9: the computation of the groups, run on a store that holds the
    registry, its array of group names and its context, writes to nothing
    that existed before the call: the registry, the configured order and
    the context are as they were.  What it returns, read through the
    store, is the list of groups that the entries of the context and the
    order determine, the one that [getObserverGroupsByOrder] gives for a
    registry with these entries and this order.  A second call returns a
    new array that holds equal groups, and leaves the result of the first
    call as it was. *)
Theorem getObserverGroupsByOrder_deterministic (CoreTags : Tags)
  (h : Store.Heap) (this : Store.loc) (bs : list Binding)
  (names : list string) :
  Store.registry_at h this bs names ->
  groups_computed_purely CoreTags h this bs names
  /\ forall (W : Type) (reg : LifeCycleObserverRegistry W),
       registry (ctx reg) = bs -> groupsByOrder reg = names ->
       Store.deep_groups (Store.getObserverGroupsByOrder CoreTags h this).2
         (Store.getObserverGroupsByOrder CoreTags h this).1
       = getObserverGroupsByOrder CoreTags reg.
Proof.
  intros Hreg.
  destruct (getObserverGroupsByOrder_store CoreTags h this bs names Hreg)
    as (Hag1 & Hdom1 & Hnew1 & Hin1 & Hdeep1 & Hstable1).
  split.
  - unfold groups_computed_purely. cbv zeta.
    set (r1 := Store.getObserverGroupsByOrder CoreTags h this) in *.
    assert (Hreg1 : Store.registry_at r1.2 this bs names)
      by (by eapply registry_at_agree).
    destruct (getObserverGroupsByOrder_store CoreTags r1.2 this bs names
                Hreg1) as (Hag2 & Hdom2 & Hnew2 & Hin2 & Hdeep2 & _).
    set (r2 := Store.getObserverGroupsByOrder CoreTags r1.2 this) in *.
    split; [done|]. split; [done|]. split; [done|].
    split; [by rewrite Hdeep1, Hdeep2|]. split.
    + intros Heq. apply Hnew2. by rewrite Heq.
    + by apply Hstable1.
  - intros W reg Hbs Hnames. rewrite Hdeep1.
    unfold getObserverGroupsByOrder, findObserverBindings, Context_find.
    by rewrite Hbs, Hnames.
Qed.

Lemma getObserverGroupsByOrder_deterministic_witness :
  Store.registry_at
    (Store.given_registry
       [Fixtures.givenConstantBinding "B" (Some "g2");
        Fixtures.givenConstantBinding "A" (Some "g1")]
       ["g1"; "g2"])
    0%nat
    [Fixtures.givenConstantBinding "B" (Some "g2");
     Fixtures.givenConstantBinding "A" (Some "g1")]
    ["g1"; "g2"]
  /\ groups_computed_purely Fixtures.CoreTags
       (Store.given_registry
          [Fixtures.givenConstantBinding "B" (Some "g2");
           Fixtures.givenConstantBinding "A" (Some "g1")]
          ["g1"; "g2"])
       0%nat
       [Fixtures.givenConstantBinding "B" (Some "g2");
        Fixtures.givenConstantBinding "A" (Some "g1")]
       ["g1"; "g2"].
Proof.
  assert (Hreg : Store.registry_at
            (Store.given_registry
               [Fixtures.givenConstantBinding "B" (Some "g2");
                Fixtures.givenConstantBinding "A" (Some "g1")]
               ["g1"; "g2"])
            0%nat
            [Fixtures.givenConstantBinding "B" (Some "g2");
             Fixtures.givenConstantBinding "A" (Some "g1")]
            ["g1"; "g2"]).
  { exists 1%nat, 2%nat. by split; [|split]. }
  split; [exact Hreg|].
  exact (proj1 (getObserverGroupsByOrder_deterministic Fixtures.CoreTags
                  _ _ _ _ Hreg)).
Defined.
